(** * mkcdda: WAV to CDDA (BIN/CUE) converter -- shallow embedding of main.c

    The development follows main.c function by function:
    [rd_le_u16], [rd_le_u32], [mmssff_from_sectors], [parse_wav], [main].

    Data model.
    - C integers are [Z] with the wrap-around of each conversion written
      out.  The target is LP64: [unsigned long] and [long] are 64 bits wide,
      [int] is 32 bits, [unsigned short] is 16 bits.
    - Bytes are [Byte.byte]; buffers and file contents are [list byte].
    - A [FILE] opened for reading is the content of the file together with
      the read cursor.  Reading past the end is a short read; seeking past
      the end is allowed, as it is for regular files; a cursor outside
      [0, LONG_MAX] is refused.
    - The image stream [fbin] is an append-only byte list together with the
      number of bytes the device still accepts; a write that does not fit is
      short, which is how the [fwrite] error branches are reached.
    - The file system is a finite map from paths to contents.  The image
      stream is committed to the file system when it is closed.  An input
      path equal to the image path is therefore read as the freshly
      truncated file.
    - The streams are unbuffered: a write is reported short at the call
      that does not fit, and [fclose] and the writes to [disc.cue], whose
      results main.c does not look at, do not fail.  What stdio reports
      late, at a flush or at [fclose], and what an input named [disc.bin]
      reads back of the image written so far, is outside the model.  The
      statements about a run that returns 0 are made for a device with
      room for what is written, or behind a completed track loop of the
      model, which implies it and implies that no input is [disc.bin].
    - [stderr] and [stdout] are lists of the strings of each print call.
    - The three loops of the program whose trip count is not a list length
      ([for (;;)] in parse_wav and the two [while] copy loops of main) take
      an iteration budget.  The callers pass a budget computed from the
      data, and the lemmas [scan_chunks_budget], [copy_loop_budget],
      [pad_loop_budget] and [main_total] show that it is never exhausted.
    - Text is formatted into strings.  The one buffer of the program that a
      formatted text can outgrow is [ts] of 16 bytes, which receives the
      timecode; a longer timecode is the outcome [Undefined] of [main]
      (lemma [main_defined]: it takes an image of 100 minutes or more).
    - [main] is taken with [argc >= 1]: [prog] is [argv[0]]. *)

From Stdlib Require Import ZArith Lia String Ascii Decimal DecimalString DecimalN.
From Stdlib Require Import Strings.Byte.
From stdpp Require Import base option list gmap strings.

Local Open Scope Z_scope.

(** ** C integer types (LP64) *)

Module CInt.

Definition ULONG_BITS : Z := 64.
Definition USHRT_BITS : Z := 16.
Definition INT_MAX : Z := 2 ^ 31 - 1.
Definition LONG_MAX : Z := 2 ^ 63 - 1.

(** Conversion to [unsigned long]. *)
Definition to_ulong (z : Z) : Z := z mod 2 ^ ULONG_BITS.

(** Conversion to [unsigned short]. *)
Definition to_ushort (z : Z) : Z := z mod 2 ^ USHRT_BITS.

(** Conversion to [int]. *)
Definition to_int (z : Z) : Z := (z + 2 ^ 31) mod 2 ^ 32 - 2 ^ 31.

(** Conversion of an [unsigned long] value to [long]. *)
Definition to_long (z : Z) : Z :=
  let u := to_ulong z in if u <=? LONG_MAX then u else u - 2 ^ ULONG_BITS.

(** [x << n] at type [unsigned long]. *)
Definition ul_shl (x n : Z) : Z := to_ulong (Z.shiftl x n).

(** [x + y] at type [unsigned long]. *)
Definition ul_add (x y : Z) : Z := to_ulong (x + y).

(** [x - y] at type [unsigned long]. *)
Definition ul_sub (x y : Z) : Z := to_ulong (x - y).

End CInt.
Import CInt.

(** ** Bytes and strings *)

Definition x00 : byte := Byte.x00.

(** [b[i]] for a pointer [b] into a buffer, as an unsigned char value.  The
    list holds the bytes read into the buffer from [b] on; the program
    reads no byte behind them. *)
Definition ub (b : list byte) (i : nat) : Z := Z.of_N (Byte.to_N (nth i b x00)).

Definition bytes_of (s : string) : list byte := list_byte_of_string s.

Definition nl : string := String (ascii_of_nat 10) EmptyString.
Definition dquote : string := String (ascii_of_nat 34) EmptyString.

Fixpoint zeros (n : nat) : string :=
  match n with
  | O => EmptyString
  | S n' => String "0"%char (zeros n')
  end.

(** [%lu]: decimal digits of a non-negative value. *)
Definition fmt_lu (n : Z) : string := NilEmpty.string_of_uint (N.to_uint (Z.to_N n)).

(** Zero padding on the left up to a minimum field width. *)
Definition zero_pad (width : nat) (digits : string) : string :=
  zeros (width - String.length digits) +:+ digits.

(** [%02lu] *)
Definition fmt_02lu (n : Z) : string := zero_pad 2 (fmt_lu n).

(** [%d] and [%02d]: the sign counts towards the field width. *)
Definition fmt_d (n : Z) : string :=
  if n <? 0 then "-" +:+ fmt_lu (- n) else fmt_lu n.
Definition fmt_02d (n : Z) : string :=
  if n <? 0 then "-" +:+ zero_pad 1 (fmt_lu (- n)) else zero_pad 2 (fmt_lu n).

(** ** stdio *)

Module Stdio.

(** A stream opened with mode "rb". *)
Record FILE := mkFILE { f_content : list byte; f_pos : Z }.

(** A stream opened with mode "wb". *)
Record OFILE := mkOFILE { o_content : list byte; o_room : Z }.

(** [fopen(path, "rb")]; it fails when there is no such file, and when the
    size of the file does not fit the offset type (EOVERFLOW). *)
Definition fopen_rb (fs : gmap string (list byte)) (path : string) : option FILE :=
  match fs !! path with
  | Some c => if Z.of_nat (length c) <=? LONG_MAX then Some (mkFILE c 0) else None
  | None => None
  end.

(** [fread(buf, 1, n, f)]: the bytes read (their number is the return
    value) and the advanced stream. *)
Definition fread (n : Z) (f : FILE) : list byte * FILE :=
  let got := take (Z.to_nat n) (drop (Z.to_nat (f_pos f)) (f_content f)) in
  (got, mkFILE (f_content f) (f_pos f + Z.of_nat (length got))).

Definition seekable (p : Z) : bool := (0 <=? p) && (p <=? LONG_MAX).

(** [fseek(f, off, SEEK_CUR)]; [None] is a non-zero return. *)
Definition fseek_cur (off : Z) (f : FILE) : option FILE :=
  let p := f_pos f + off in
  if seekable p then Some (mkFILE (f_content f) p) else None.

(** [fseek(f, off, SEEK_SET)] *)
Definition fseek_set (off : Z) (f : FILE) : option FILE :=
  if seekable off then Some (mkFILE (f_content f) off) else None.

Definition ftell (f : FILE) : Z := f_pos f.

(** [fwrite(buf, 1, n, o)] with [n = length buf]: the number of bytes
    written and the extended stream. *)
Definition fwrite (buf : list byte) (o : OFILE) : Z * OFILE :=
  let w := take (Z.to_nat (o_room o)) buf in
  (Z.of_nat (length w), mkOFILE (o_content o ++ w) (o_room o - Z.of_nat (length w))).

End Stdio.
Import Stdio.

Arguments fread : simpl never.
Arguments fwrite : simpl never.
Arguments fseek_cur : simpl never.
Arguments fseek_set : simpl never.
Arguments to_ulong : simpl never.
Arguments to_long : simpl never.
Arguments ul_sub : simpl never.
Arguments ul_add : simpl never.

(** ** main.c *)

Definition SECTOR : Z := 2352.

Definition rd_le_u16 (b : list byte) : Z :=
  to_ushort (Z.lor (ub b 0) (Z.shiftl (ub b 1) 8)).

Definition rd_le_u32 (b : list byte) : Z :=
  to_ulong (Z.lor (Z.lor (Z.lor (to_ulong (ub b 0)) (ul_shl (to_ulong (ub b 1)) 8))
                         (ul_shl (to_ulong (ub b 2)) 16))
                  (ul_shl (to_ulong (ub b 3)) 24)).

(** The three locals of [mmssff_from_sectors].  Division and remainder of
    unsigned values do not wrap. *)
Definition mmssff_fields (sectors : Z) : Z * Z * Z :=
  let minutes := sectors / to_ulong (75 * 60) in
  let seconds := (sectors / 75) mod 60 in
  let frames := sectors mod 75 in
  (minutes, seconds, frames).

Definition mmssff_from_sectors (sectors : Z) : string :=
  let '(minutes, seconds, frames) := mmssff_fields sectors in
  fmt_02lu minutes +:+ ":" +:+ fmt_02lu seconds +:+ ":" +:+ fmt_02lu frames.

(** [memcmp(a, b, n) == 0] *)
Fixpoint memcmp_eq (a b : list byte) (n : nat) {struct n} : bool :=
  match n with
  | O => true
  | S n' =>
      match a, b with
      | x :: a', y :: b' => Byte.eqb x y && memcmp_eq a' b' n'
      | _, _ => false
      end
  end.

(** *** parse_wav *)

(** The locals of [parse_wav] that live across loop iterations, with the two
    out-parameters [*data_ofs] and [*data_size]. *)
Record wav_state := mkWav {
  got_fmt : bool;
  got_data : bool;
  audioFormat : Z;
  numChannels : Z;
  bitsPerSample : Z;
  sampleRate : Z;
  data_ofs : Z;
  data_size : Z
}.

(** State on entry of the loop; [main] passes pointers to zeroed locals. *)
Definition wav_init : wav_state := mkWav false false 0 0 0 0 0 0.

(** [if (csize & 1UL) fseek(f, 1L, SEEK_CUR)] *)
Definition skip_pad_byte (csize : Z) (f : FILE) : option FILE :=
  if negb (Z.land csize 1 =? 0) then fseek_cur 1 f else Some f.

(** The body of the [for (;;)] loop after a complete chunk header [chdr] has
    been read: the three branches on the chunk tag.  [None] is a
    [return -1] from inside the loop. *)
Definition chunk_body (chdr : list byte) (f : FILE) (st : wav_state)
  : option (wav_state * FILE) :=
  let csize := rd_le_u32 (drop 4 chdr) in
  if memcmp_eq chdr (bytes_of "fmt ") 4 then
    let need := if csize <? 40 then csize else 40 in
    let '(fmbuf, f) := fread need f in
    if negb (Z.of_nat (length fmbuf) =? need) then None
    else
      let st :=
        if csize >=? 16 then
          mkWav true (got_data st)
                (rd_le_u16 (drop 0 fmbuf)) (rd_le_u16 (drop 2 fmbuf))
                (rd_le_u16 (drop 14 fmbuf)) (rd_le_u32 (drop 4 fmbuf))
                (data_ofs st) (data_size st)
        else st in
      match (if to_long need <? to_long csize
             then fseek_cur (to_long csize - to_long need) f else Some f) with
      | None => None
      | Some f =>
          match skip_pad_byte csize f with
          | None => None
          | Some f => Some (st, f)
          end
      end
  else if memcmp_eq chdr (bytes_of "data") 4 then
    let here := ftell f in
    if here <? 0 then None
    else
      let st := mkWav (got_fmt st) (got_data st) (audioFormat st) (numChannels st)
                      (bitsPerSample st) (sampleRate st) (to_ulong here) csize in
      match fseek_cur (to_long csize) f with
      | None => None
      | Some f =>
          match skip_pad_byte csize f with
          | None => None
          | Some f =>
              Some (mkWav (got_fmt st) true (audioFormat st) (numChannels st)
                          (bitsPerSample st) (sampleRate st) (data_ofs st) (data_size st), f)
          end
      end
  else
    match fseek_cur (to_long csize) f with
    | None => None
    | Some f =>
        match skip_pad_byte csize f with
        | None => None
        | Some f => Some (st, f)
        end
    end.

Inductive scan_result :=
| ScanDone (st : wav_state) (f : FILE)   (* the loop was left by [break] *)
| ScanError                              (* [return -1] inside the loop *)
| ScanBudget.                            (* iteration budget exhausted *)

(** The [for (;;)] loop of [parse_wav]. *)
Fixpoint scan_chunks (budget : nat) (f : FILE) (st : wav_state) : scan_result :=
  match budget with
  | O => ScanBudget
  | S budget' =>
      let '(chdr, f) := fread 8 f in
      if negb (Z.of_nat (length chdr) =? 8) then ScanDone st f
      else
        match chunk_body chdr f st with
        | None => ScanError
        | Some (st, f) =>
            if got_fmt st && got_data st then ScanDone st f
            else scan_chunks budget' f st
        end
  end.

(** Result of [parse_wav].  On [return 0] the caller goes on with the
    stream and the two out-parameters; on [return -1] it returns at once,
    so only the diagnostics printed on stderr are kept. *)
Inductive parse_result :=
| ParseOk (f : FILE) (data_ofs data_size : Z)
| ParseFail (diag : list string)
| ParseBudget.

Definition msg_no_header (name : string) : string :=
  name +:+ ": cannot read RIFF header" +:+ nl.
Definition msg_not_riff (name : string) : string :=
  name +:+ ": not a RIFF/WAVE file" +:+ nl.
Definition msg_missing_chunk (name : string) : string :=
  name +:+ ": missing fmt or data chunk" +:+ nl.
Definition msg_bad_format (name : string) : string :=
  name +:+ " must be 44.1kHz, 16-bit, stereo PCM" +:+ nl.

(** The test of lines 100-101. *)
Definition format_ok (st : wav_state) : bool :=
  (audioFormat st =? 1) && (numChannels st =? 2) && (sampleRate st =? 44100)
  && (bitsPerSample st =? 16).

Definition parse_wav (f : FILE) (name : string) : parse_result :=
  let '(hdr12, f) := fread 12 f in
  if negb (Z.of_nat (length hdr12) =? 12) then ParseFail [msg_no_header name]
  else if negb (memcmp_eq (drop 0 hdr12) (bytes_of "RIFF") 4)
          || negb (memcmp_eq (drop 8 hdr12) (bytes_of "WAVE") 4)
  then ParseFail [msg_not_riff name]
  else
    match scan_chunks (S (length (f_content f))) f wav_init with
    | ScanBudget => ParseBudget
    | ScanError => ParseFail []
    | ScanDone st f =>
        if negb (got_fmt st) || negb (got_data st)
        then ParseFail [msg_missing_chunk name]
        else if negb (format_ok st) then ParseFail [msg_bad_format name]
        else ParseOk f (data_ofs st) (data_size st)
    end.

(** *** main *)

(** What the program does not control: whether a file can be created,
    whether [malloc] succeeds, how many bytes the image device accepts, the
    content of freshly allocated memory and the text of [strerror]. *)
Record Env := mkEnv {
  can_create : string -> bool;
  malloc_ok : bool;
  disk_room : Z;
  heap_junk : nat -> Z;
  strerror : string -> string
}.

Record World := mkWorld {
  files : gmap string (list byte);
  stderr : list string;
  stdout : list string
}.

Definition eprint (msgs : list string) (w : World) : World :=
  mkWorld (files w) (stderr w ++ msgs) (stdout w).
Definition print (msgs : list string) (w : World) : World :=
  mkWorld (files w) (stderr w) (stdout w ++ msgs).
Definition store (path : string) (content : list byte) (w : World) : World :=
  mkWorld (<[path := content]> (files w)) (stderr w) (stdout w).

(** [perror(s)] after a failed [fopen] of [path]. *)
Definition perror (env : Env) (s path : string) : string :=
  s +:+ ": " +:+ strerror env path +:+ nl.

Definition bin_path : string := "disc.bin".
Definition cue_path : string := "disc.cue".

(** The expression [(SECTOR - (data_size % SECTOR)) % SECTOR] of lines 193
    and 209, at type [unsigned long]. *)
Definition sector_pad (data_size : Z) : Z :=
  (ul_sub (to_ulong SECTOR) (data_size mod to_ulong SECTOR)) mod to_ulong SECTOR.

(** [padded] of line 209. *)
Definition padded_size (data_size : Z) : Z := ul_add data_size (sector_pad data_size).

Inductive copy_result :=
| CopyDone (fin : FILE) (fbin : OFILE)
| CopyShortRead (fbin : OFILE)
| CopyWriteError (fbin : OFILE)
| CopyBudget.

(** The payload loop [while (remaining > 0)] of lines 170-189. *)
Fixpoint copy_loop (budget : nat) (fin : FILE) (fbin : OFILE) (remaining : Z)
  : copy_result :=
  if remaining >? 0 then
    match budget with
    | O => CopyBudget
    | S budget' =>
        let chunk := if remaining >? 8192 then 8192 else remaining in
        let '(buf, fin) := fread chunk fin in
        if negb (Z.of_nat (length buf) =? chunk) then CopyShortRead fbin
        else
          let '(written, fbin) := fwrite buf fbin in
          if negb (written =? chunk) then CopyWriteError fbin
          else copy_loop budget' fin fbin (ul_sub remaining chunk)
    end
  else CopyDone fin fbin.

Inductive pad_result :=
| PadDone (fbin : OFILE)
| PadWriteError (fbin : OFILE)
| PadBudget.

(** The padding loop [while (pad_bytes > 0)] of lines 196-206; [buf] has
    been zeroed by [memset]. *)
Fixpoint pad_loop (budget : nat) (fbin : OFILE) (pad_bytes : Z) : pad_result :=
  if pad_bytes >? 0 then
    match budget with
    | O => PadBudget
    | S budget' =>
        let chunk2 := if pad_bytes >? 8192 then 8192 else pad_bytes in
        let '(written, fbin) := fwrite (replicate (Z.to_nat chunk2) x00) fbin in
        if negb (written =? chunk2) then PadWriteError fbin
        else pad_loop budget' fbin (ul_sub pad_bytes chunk2)
    end
  else PadDone fbin.

(** Number of trips granted to a loop that moves [n] bytes in pieces of
    8192. *)
Definition trips (n : Z) : nat := S (Z.to_nat (n / 8192)).

(** The block [if (pad_bytes) { memset ...; while ... }] of lines 194-207. *)
Definition write_padding (fbin : OFILE) (pad_bytes : Z) : pad_result :=
  if negb (pad_bytes =? 0) then pad_loop (trips pad_bytes) fbin pad_bytes
  else PadDone fbin.

(** The variables of [main] that the track loop updates. *)
Record run_state := mkRun {
  world : World;
  fbin : OFILE;
  index_times : list Z;
  total_sectors_before : Z
}.

Inductive step_result :=
| StepNext (st : run_state)    (* end of the loop body *)
| StepExit (st : run_state)    (* [return 1]; [fbin] is closed by the caller *)
| StepBudget.

Definition msg_appended (wav : string) (data_size padded : Z) : string :=
  "Appended " +:+ wav +:+ " (" +:+ fmt_lu data_size +:+ " bytes, padded to "
  +:+ fmt_lu padded +:+ ")" +:+ nl.

(** The body of the track loop, lines 139-212, for loop index [i] and
    [wav = argv[1 + i]]. *)
Definition process_track (env : Env) (i : nat) (wav : string) (st : run_state)
  : step_result :=
  let fail msgs fb its :=
    StepExit (mkRun (eprint msgs (world st)) fb its (total_sectors_before st)) in
  match fopen_rb (files (world st)) wav with
  | None => fail [perror env "open wav" wav] (fbin st) (index_times st)
  | Some fin =>
      match parse_wav fin wav with
      | ParseBudget => StepBudget
      | ParseFail diag => fail diag (fbin st) (index_times st)
      | ParseOk fin data_ofs data_size =>
          let its := <[i := total_sectors_before st]> (index_times st) in
          match fseek_set (to_long data_ofs) fin with
          | None => fail [wav +:+ ": seek failed" +:+ nl] (fbin st) its
          | Some fin =>
              match copy_loop (trips data_size) fin (fbin st) data_size with
              | CopyBudget => StepBudget
              | CopyShortRead fb => fail [wav +:+ ": short read" +:+ nl] fb its
              | CopyWriteError fb => fail ["disc.bin: write error" +:+ nl] fb its
              | CopyDone _ fb =>
                  let pad_bytes := to_ulong (sector_pad data_size) in
                  match write_padding fb pad_bytes with
                  | PadBudget => StepBudget
                  | PadWriteError fb =>
                      fail ["disc.bin: write error (padding)" +:+ nl] fb its
                  | PadDone fb =>
                      let padded := padded_size data_size in
                      StepNext
                        (mkRun (print [msg_appended wav data_size padded] (world st))
                               fb its
                               (ul_add (total_sectors_before st) (padded / to_ulong SECTOR)))
                  end
              end
          end
      end
  end.

(** The track loop [for (i = 0; i < ntracks; ++i)] over [argv[1 + i]]. *)
Fixpoint track_loop (env : Env) (i : nat) (wavs : list string) (st : run_state)
  : step_result :=
  match wavs with
  | [] => StepNext st
  | wav :: rest =>
      match process_track env i wav st with
      | StepNext st => track_loop env (S i) rest st
      | other => other
      end
  end.

Definition cue_header : string := "FILE " +:+ dquote +:+ bin_path +:+ dquote +:+ " BINARY" +:+ nl.
Definition cue_track_line (i : Z) : string :=
  "  TRACK " +:+ fmt_02d (to_int (i + 1)) +:+ " AUDIO" +:+ nl.
Definition cue_pregap_line : string := "    PREGAP 00:02:00" +:+ nl.

(** [mmssff_from_sectors(index_times[i], ts)] and the [sprintf] of line
    238.  The buffer [ts] has room for 15 characters and the terminator;
    [None] is a write past its end, after which the behaviour of the
    program is undefined. *)
Definition cue_index_line (sectors : Z) : option string :=
  let ts := mmssff_from_sectors sectors in
  if (String.length ts <? 16)%nat then Some ("    INDEX 01 " +:+ ts +:+ nl) else None.

(** The cue loop of lines 229-240: the lines written to [fcue], one per
    [fwrite]; [n] trips are left and the loop variable is [i]. *)
Fixpoint cue_loop (n : nat) (i : Z) (index_times : list Z) : option (list string) :=
  match n with
  | O => Some []
  | S n' =>
      match cue_index_line (nth (Z.to_nat i) index_times 0) with
      | None => None
      | Some index_line =>
          match cue_loop n' (to_int (i + 1)) index_times with
          | None => None
          | Some rest =>
              Some ([cue_track_line i]
                      ++ (if i =? 0 then [cue_pregap_line] else [])
                      ++ [index_line] ++ rest)
          end
      end
  end.

(** Everything written to [fcue], lines 226-240. *)
Definition cue_lines (ntracks : nat) (index_times : list Z) : option (list string) :=
  match cue_loop ntracks 0 index_times with
  | Some lines => Some (cue_header :: lines)
  | None => None
  end.

Fixpoint concat_lines (ls : list string) : string :=
  match ls with
  | [] => EmptyString
  | l :: ls' => l +:+ concat_lines ls'
  end.

Definition msg_done (ntracks : Z) : string :=
  "Done! Created " +:+ bin_path +:+ " and " +:+ cue_path +:+ " with "
  +:+ fmt_d ntracks +:+ " track(s)." +:+ nl.

(** [fclose(fbin)]: the image stream reaches the file system. *)
Definition close_bin (st : run_state) : World :=
  store bin_path (o_content (fbin st)) (world st).

(** The state in which [main] enters the track loop: [disc.bin] has just
    been created and [index_times] allocated. *)
Definition main_init (env : Env) (ntracks : Z) (w : World) : run_state :=
  mkRun (store bin_path [] w) (mkOFILE [] (disk_room env))
        (map (heap_junk env) (seq 0 (Z.to_nat ntracks))) 0.

(** [argc] for the input paths [wavs = argv[1..argc-1]]. *)
Definition argc_of (wavs : list string) : Z := 1 + Z.of_nat (length wavs).

(** The track loop as [main] runs it, lines 123-213. *)
Definition run_tracks (env : Env) (wavs : list string) (w : World) : step_result :=
  let ntracks := to_int (argc_of wavs - 1) in
  track_loop env 0 wavs (main_init env ntracks w).

(** How an invocation ends. *)
Inductive outcome :=
| Exit (status : Z) (w : World)   (* [main] returns [status] *)
| Undefined                       (* a write past the end of [ts] *)
| OutOfBudget.                    (* an exhausted iteration budget *)

(** [main], with [prog = argv[0]] and [wavs = argv[1..argc-1]]. *)
Definition main (env : Env) (prog : string) (wavs : list string) (w : World)
  : outcome :=
  let argc := argc_of wavs in
  if argc <? 2 then
    Exit 1 (eprint ["No track*.wav files found (pass them as arguments)." +:+ nl;
                    "Usage: " +:+ prog +:+ " track1.wav [track2.wav ...]" +:+ nl] w)
  else
    let ntracks := to_int (argc - 1) in
    if negb (can_create env bin_path) then
      Exit 1 (eprint [perror env "open disc.bin" bin_path] w)
    else if negb (malloc_ok env) then
      Exit 1 (close_bin (mkRun (eprint ["Out of memory" +:+ nl] (store bin_path [] w))
                               (mkOFILE [] (disk_room env)) [] 0))
    else
      match run_tracks env wavs w with
      | StepBudget => OutOfBudget
      | StepExit st => Exit 1 (close_bin st)
      | StepNext st =>
          if negb (can_create env cue_path) then
            Exit 1 (close_bin (mkRun (eprint [perror env "open disc.cue" cue_path] (world st))
                                     (fbin st) (index_times st) (total_sectors_before st)))
          else
            match cue_lines (Z.to_nat ntracks) (index_times st) with
            | None => Undefined
            | Some lines =>
                let w := store cue_path (bytes_of (concat_lines lines)) (world st) in
                let w := store bin_path (o_content (fbin st)) w in
                Exit 0 (print [msg_done ntracks] w)
            end
      end.

(** * Definitions for the statements *)

(** ** Reading the emitted text back *)

(** Value of a string of decimal digits. *)
Definition parse_dec (s : string) : option Z :=
  match NilEmpty.uint_of_string s with
  | Some d => Some (Z.of_N (N.of_uint d))
  | None => None
  end.

(** The text before the first colon, and the text after it if there is
    one. *)
Fixpoint until_colon (s : string) : string * option string :=
  match s with
  | EmptyString => (EmptyString, None)
  | String c s' =>
      if Ascii.eqb c ":" then (EmptyString, Some s')
      else let '(a, r) := until_colon s' in (String c a, r)
  end.

(** Sector index denoted by a timecode [MM:SS:FF]. *)
Definition decode_mmssff (s : string) : option Z :=
  match until_colon s with
  | (mm, Some r) =>
      match until_colon r with
      | (ss, Some ff) =>
          match parse_dec mm, parse_dec ss, parse_dec ff with
          | Some m, Some s, Some f => Some (m * 4500 + s * 75 + f)
          | _, _, _ => None
          end
      | _ => None
      end
  | _ => None
  end.

Fixpoint all_digits (s : string) : bool :=
  match s with
  | EmptyString => true
  | String c s' =>
      (Nat.leb 48 (nat_of_ascii c) && Nat.leb (nat_of_ascii c) 57) && all_digits s'
  end.

(** ** The layout the specification asks for *)

(** Zero padding after a payload of [len] bytes, in the words of the
    specification. *)
Definition spec_pad (len : Z) : Z := (2352 - len mod 2352) mod 2352.

(** Sectors taken by a payload of [len] bytes once padded. *)
Definition spec_sectors (len : Z) : Z := (len + spec_pad len) / 2352.

(** Sum of a list of integers. *)
Definition sumZ (l : list Z) : Z := foldr Z.add 0 l.

(** ** Invariants *)

(** The cursor and the size of an open input fit the type [long]. *)
Definition file_inv (f : FILE) : Prop :=
  0 <= f_pos f <= LONG_MAX /\ Z.of_nat (length (f_content f)) <= LONG_MAX.

(** The 8 bytes before offset [ofs] of [content] are the header of a data
    chunk of declared size [size]. *)
Definition data_header_at (content : list byte) (ofs size : Z) : Prop :=
  8 <= ofs
  /\ memcmp_eq (drop (Z.to_nat (ofs - 8)) content) (bytes_of "data") 4 = true
  /\ rd_le_u32 (drop (Z.to_nat (ofs - 4)) content) = size.

(** What the chunk loop keeps true of the out-parameters. *)
Definition scan_inv (content : list byte) (st : wav_state) : Prop :=
  0 <= data_size st < 2 ^ 32
  /\ 0 <= data_ofs st <= LONG_MAX
  /\ (got_data st = true -> data_header_at content (data_ofs st) (data_size st)).

(** ** Audio sources and the image they should give *)

(** An input as the parser resolves it: the content of the container, the
    offset of the payload in it and the length of the payload. *)
Record source := mkSource {
  s_content : list byte;
  s_ofs : Z;
  s_size : Z
}.

(** The source [main] works with for the path [wav]: what [fopen] and
    [parse_wav] give on lines 140 and 153. *)
Definition resolve (fs : gmap string (list byte)) (wav : string) : option source :=
  match fopen_rb fs wav with
  | Some fin =>
      match parse_wav fin wav with
      | ParseOk _ ofs size => Some (mkSource (f_content fin) ofs size)
      | _ => None
      end
  | None => None
  end.

(** The payload bytes of a source. *)
Definition payload (src : source) : list byte :=
  take (Z.to_nat (s_size src)) (drop (Z.to_nat (s_ofs src)) (s_content src)).

(** A source whose payload lies inside its container, behind the header of
    a data chunk that declares its length. *)
Definition source_ok (src : source) : Prop :=
  0 <= s_size src < 2 ^ 32
  /\ Z.of_nat (length (payload src)) = s_size src
  /\ data_header_at (s_content src) (s_ofs src) (s_size src).

Definition resolved (fs : gmap string (list byte)) (wav : string) (src : source) : Prop :=
  resolve fs wav = Some src /\ source_ok src.

(** The sectors of one track: the payload, then zeros up to the next sector
    boundary. *)
Definition track_bytes (src : source) : list byte :=
  payload src ++ replicate (Z.to_nat (spec_pad (s_size src))) x00.

(** The image of a sequence of sources. *)
Definition image_of (srcs : list source) : list byte :=
  concat (map track_bytes srcs).

(** Padded sector count of each source. *)
Definition sector_counts (srcs : list source) : list Z :=
  map (fun src => spec_sectors (s_size src)) srcs.

(** Starting sector of track [i]: the padded sector counts of the tracks
    before it, added up. *)
Definition start_sector (srcs : list source) (i : nat) : Z :=
  sumZ (take i (sector_counts srcs)).

(** The bytes [from, from + len) of a byte sequence. *)
Definition extract (from len : Z) (l : list byte) : list byte :=
  take (Z.to_nat len) (drop (Z.to_nat from) l).

(** ** Container layout *)

(** A chunk as it lies in a container: the 4-byte tag, the 4 bytes of the
    size field, the body and the alignment byte that follows a body of odd
    size.  The declared size is what the program decodes from the size
    field. *)
Record chunk := mkChunk {
  c_tag : list byte;
  c_sz : list byte;
  c_body : list byte;
  c_pad : list byte
}.

Definition c_size (c : chunk) : Z := rd_le_u32 (c_sz c).

(** All declared bytes of the chunk are present. *)
Definition chunk_complete (c : chunk) : Prop :=
  length (c_tag c) = 4%nat /\ length (c_sz c) = 4%nat
  /\ Z.of_nat (length (c_body c)) = c_size c
  /\ length (c_pad c) = (if Z.odd (c_size c) then 1%nat else 0%nat).

Definition encode_chunk (c : chunk) : list byte :=
  c_tag c ++ c_sz c ++ c_body c ++ c_pad c.

(** A container: the 12-byte header, complete chunks, and a tail too short
    to hold a chunk header. *)
Definition container (riff_size : list byte) (cs : list chunk) (tl : list byte)
  : list byte :=
  bytes_of "RIFF" ++ riff_size ++ bytes_of "WAVE"
    ++ concat (map encode_chunk cs) ++ tl.

(** How a stream may end behind its last complete chunk: with fewer bytes
    than a chunk header takes, or with a chunk other than a format chunk
    that the end of the stream cuts short. *)
Inductive stream_tail : list byte -> Prop :=
| tail_short (tl : list byte) :
    (length tl < 8)%nat -> stream_tail tl
| tail_cut (tag sz partial : list byte) :
    length tag = 4%nat -> length sz = 4%nat ->
    memcmp_eq tag (bytes_of "fmt ") 4 = false ->
    Z.of_nat (length partial) < rd_le_u32 sz + (if Z.odd (rd_le_u32 sz) then 1 else 0) ->
    stream_tail (tag ++ sz ++ partial).

(** ** The chunk loop read on the chunk list of a container *)

Definition is_tag (c : chunk) (tag : string) : bool :=
  memcmp_eq (c_tag c) (bytes_of tag) 4.

(** What a complete chunk whose header starts at offset [pos] does to the
    state of the parser: a format chunk of at least 16 bytes records the
    descriptor, a data chunk records where its body starts and how long it
    is declared to be, anything else leaves the state alone. *)
Definition chunk_effect (pos : Z) (c : chunk) (st : wav_state) : wav_state :=
  if is_tag c "fmt " then
    if c_size c >=? 16 then
      mkWav true (got_data st)
            (rd_le_u16 (c_body c)) (rd_le_u16 (drop 2 (c_body c)))
            (rd_le_u16 (drop 14 (c_body c))) (rd_le_u32 (drop 4 (c_body c)))
            (data_ofs st) (data_size st)
    else st
  else if is_tag c "data" then
    mkWav (got_fmt st) true (audioFormat st) (numChannels st)
          (bitsPerSample st) (sampleRate st) (pos + 8) (c_size c)
  else st.

(** The state in which the parser leaves the chunk loop on the chunks [cs]
    laid out from offset [pos] on. *)
Fixpoint scan_spec (pos : Z) (cs : list chunk) (st : wav_state) : wav_state :=
  match cs with
  | [] => st
  | c :: cs' =>
      let st' := chunk_effect pos c st in
      if got_fmt st' && got_data st' then st'
      else scan_spec (pos + Z.of_nat (length (encode_chunk c))) cs' st'
  end.

(** Position, among the lines written to the cue sheet, of the declaration
    of track [i] (counted from 0): the header comes first, the first track
    takes three lines and every other track two. *)
Definition cue_line_index (i : nat) : nat :=
  match i with
  | O => 1
  | S _ => 2 * i + 2
  end.

(** ** Further notions for the statements *)

(** The value of a byte as an unsigned char. *)
Definition uchar (b : byte) : Z := Z.of_N (Byte.to_N b).

(** A chunk that is neither a format chunk nor a data chunk. *)
Definition other_chunk (c : chunk) : Prop :=
  is_tag c "fmt " = false /\ is_tag c "data" = false.

(** The four fields of a format chunk body that the program compares. *)
Definition cdda_profile (body : list byte) : Prop :=
  rd_le_u16 body = 1 /\ rd_le_u16 (drop 2 body) = 2
  /\ rd_le_u32 (drop 4 body) = 44100 /\ rd_le_u16 (drop 14 body) = 16.

(** The lines [main] prints on stdout for the tracks it has appended. *)
Definition appended_msgs (wavs : list string) (srcs : list source) : list string :=
  zip_with (fun wav src => msg_appended wav (s_size src) (padded_size (s_size src))) wavs srcs.

(** The environment [env] with other content in fresh memory. *)
Definition with_heap (env : Env) (junk : nat -> Z) : Env :=
  mkEnv (can_create env) (malloc_ok env) (disk_room env) junk (strerror env).

(** * Test vectors *)

Definition byte_of (z : Z) : byte :=
  match Byte.of_N (Z.to_N (z mod 256)) with
  | Some b => b
  | None => x00
  end.

Definition le16 (z : Z) : list byte := [byte_of z; byte_of (z / 256)].
Definition le32 (z : Z) : list byte :=
  [byte_of z; byte_of (z / 256); byte_of (z / 65536); byte_of (z / 16777216)].

Definition mk_chunk (tag : string) (declared : Z) (body : list byte) : chunk :=
  mkChunk (bytes_of tag) (le32 declared) body (if Z.odd declared then [x00] else []).

(** Body of a format chunk of 16 bytes. *)
Definition fmt_body (tag channels rate bits : Z) : list byte :=
  le16 tag ++ le16 channels ++ le32 rate
    ++ le32 (rate * channels * (bits / 8)) ++ le16 (channels * (bits / 8)) ++ le16 bits.

Definition cdda_fmt : chunk := mk_chunk "fmt " 16 (fmt_body 1 2 44100 16).

Definition data_chunk (payload : list byte) : chunk :=
  mk_chunk "data" (Z.of_nat (length payload)) payload.

(** A well-formed CD-quality file around [payload]. *)
Definition wav_file (payload : list byte) : list byte :=
  container (le32 0) [cdda_fmt; data_chunk payload] [].

(** A payload of [n] bytes counting up from [start]. *)
Definition ramp (start : Z) (n : nat) : list byte :=
  map (fun k => byte_of (start + Z.of_nat k)) (seq 0 n).

Definition demo_env : Env :=
  mkEnv (fun _ => true) true 1000000 (fun _ => 12345) (fun _ => "No such file or directory").

Definition empty_world : World := mkWorld ∅ [] [].

(** Two payloads, of 4700 and of 2352 bytes. *)
Definition demo_a : list byte := ramp 0 47 ++ replicate 4653 "U"%byte.
Definition demo_b : list byte := ramp 7 12 ++ replicate 2340 "V"%byte.

(** Two inputs that carry them. *)
Definition demo_world : World :=
  store "b.wav" (wav_file demo_b) (store "a.wav" (wav_file demo_a) empty_world).
Definition demo_wavs : list string := ["a.wav"; "b.wav"].

(** State of the demonstration run after its track loop: the two payloads,
    the first followed by 4 zero bytes, starting at sectors 0 and 2. *)
Definition demo_final : run_state :=
  mkRun (print [msg_appended "b.wav" 2352 2352]
               (print [msg_appended "a.wav" 4700 4704] (store bin_path [] demo_world)))
        (mkOFILE (demo_a ++ replicate 4 x00 ++ demo_b) (1000000 - 7056))
        [0; 2] 3.

(** A format chunk and nothing else. *)
Definition only_fmt_file : list byte := container (le32 0) [cdda_fmt] [].

(** A data chunk and nothing else. *)
Definition only_data_file : list byte := container (le32 0) [data_chunk (ramp 0 4)] [].

(** A format chunk that declares 8 bytes, complete. *)
Definition short_fmt : chunk := mk_chunk "fmt " 8 (ramp 1 8).

(** The header of a format chunk that declares 8 bytes, followed by 3 bytes
    only. *)
Definition truncated_fmt_file : list byte :=
  container (le32 0) [] (bytes_of "fmt " ++ le32 8 ++ ramp 1 3).

(** The header of a format chunk that declares 16 bytes, followed by 10
    bytes only. *)
Definition cut_fmt_file : list byte :=
  container (le32 0) [] (bytes_of "fmt " ++ le32 16 ++ ramp 1 10).

(** A stereo 16-bit file sampled at 48 kHz. *)
Definition dat_file : list byte :=
  container (le32 0) [mk_chunk "fmt " 16 (fmt_body 1 2 48000 16); data_chunk (ramp 0 8)] [].

(** An input with an empty payload, and a run over a hundred tracks. *)
Definition silent_world : World := store "e.wav" (wav_file []) empty_world.
Definition hundred_wavs : list string := replicate 100 "e.wav".

(** A chunk of another kind, of odd size. *)
Definition odd_chunk : chunk := mk_chunk "LIST" 3 (ramp 0 3).

(** Three inputs: a payload of 6 bytes, an empty payload, and the first
    again. *)
Definition tiny_world : World := store "s.wav" (wav_file (ramp 1 6)) silent_world.
Definition tiny_wavs : list string := ["s.wav"; "e.wav"; "s.wav"].
Definition tiny_srcs : list source :=
  [mkSource (wav_file (ramp 1 6)) 44 6; mkSource (wav_file []) 44 0;
   mkSource (wav_file (ramp 1 6)) 44 6].

(** A data chunk that declares 10000 bytes in a file that holds 8200 of
    them. *)
Definition cut_payload_file : list byte :=
  container (le32 0) [cdda_fmt] (bytes_of "data" ++ le32 10000 ++ replicate (Z.to_nat 8200) "U"%byte).

(** The inputs of [tiny_world], a 48 kHz file and the file with the cut
    payload. *)
Definition mixed_world : World :=
  store "c.wav" cut_payload_file (store "d.wav" dat_file tiny_world).

(** * Properties *)

(** ** Machine integers *)

Section Integers.

Lemma to_ulong_small z : 0 <= z < 2 ^ 64 -> to_ulong z = z.
Proof. intros H. unfold to_ulong, ULONG_BITS. apply Z.mod_small. exact H. Qed.

Lemma to_ulong_range z : 0 <= to_ulong z < 2 ^ 64.
Proof. unfold to_ulong, ULONG_BITS. apply Z.mod_pos_bound. lia. Qed.

Lemma to_long_small z : 0 <= z <= LONG_MAX -> to_long z = z.
Proof.
  intros H. unfold to_long. unfold LONG_MAX in *.
  rewrite to_ulong_small by lia.
  destruct (Z.leb_spec z (2 ^ 63 - 1)); lia.
Qed.

Lemma to_int_small z : - 2 ^ 31 <= z <= INT_MAX -> to_int z = z.
Proof.
  intros H. unfold to_int, INT_MAX in *.
  rewrite Z.mod_small by lia. lia.
Qed.

Lemma ub_range b i : 0 <= ub b i < 256.
Proof.
  unfold ub. pose proof (Byte.to_N_bounded (nth i b x00)). lia.
Qed.

(** The bitwise or of two values below [2 ^ n] stays below [2 ^ n]. *)
Lemma lor_below n a b :
  0 <= n -> 0 <= a < 2 ^ n -> 0 <= b < 2 ^ n -> 0 <= Z.lor a b < 2 ^ n.
Proof.
  intros Hn Ha Hb. split.
  - apply Z.lor_nonneg. lia.
  - destruct (Z.eq_dec (Z.lor a b) 0) as [E|E]; [rewrite E; lia|].
    assert (0 < Z.lor a b) by (pose proof (proj2 (Z.lor_nonneg a b)); lia).
    apply Z.log2_lt_pow2; [lia|].
    rewrite Z.log2_lor by lia.
    assert (0 < n) as Hpos.
    { destruct (Z.eq_dec n 0) as [->|]; [|lia].
      change (2 ^ 0) with 1 in *. assert (a = 0) as -> by lia.
      assert (b = 0) as -> by lia. exfalso. apply E. reflexivity. }
    assert (forall c, 0 <= c < 2 ^ n -> Z.log2 c < n) as L.
    { intros c Hc. destruct (Z.eq_dec c 0) as [->|]; [exact Hpos|].
      apply Z.log2_lt_pow2; lia. }
    apply Z.max_lub_lt; apply L; assumption.
Qed.

Lemma shl_byte_below x k n :
  0 <= x < 256 -> 0 <= k -> k + 8 <= n -> 0 <= Z.shiftl x k < 2 ^ n.
Proof.
  intros Hx Hk Hn. rewrite Z.shiftl_mul_pow2 by lia.
  assert (0 < 2 ^ k) by (apply Z.pow_pos_nonneg; lia).
  assert (2 ^ n = 2 ^ (n - k - 8) * 2 ^ 8 * 2 ^ k) as ->.
  { rewrite <- !Z.pow_add_r by lia. f_equal. lia. }
  assert (0 < 2 ^ (n - k - 8)) by (apply Z.pow_pos_nonneg; lia).
  change (2 ^ 8) with 256. nia.
Qed.

Lemma rd_le_u16_range b : 0 <= rd_le_u16 b < 2 ^ 16.
Proof. unfold rd_le_u16, to_ushort, USHRT_BITS. apply Z.mod_pos_bound. lia. Qed.

Lemma rd_le_u32_range b : 0 <= rd_le_u32 b < 2 ^ 32.
Proof.
  unfold rd_le_u32, ul_shl.
  pose proof (ub_range b 0) as H0. pose proof (ub_range b 1) as H1.
  pose proof (ub_range b 2) as H2. pose proof (ub_range b 3) as H3.
  rewrite !(to_ulong_small (ub b _)) by lia.
  pose proof (shl_byte_below (ub b 1) 8 32 H1 ltac:(lia) ltac:(lia)) as S1.
  pose proof (shl_byte_below (ub b 2) 16 32 H2 ltac:(lia) ltac:(lia)) as S2.
  pose proof (shl_byte_below (ub b 3) 24 32 H3 ltac:(lia) ltac:(lia)) as S3.
  rewrite !(to_ulong_small (Z.shiftl _ _)) by lia.
  assert (0 <= Z.lor (Z.lor (Z.lor (ub b 0) (Z.shiftl (ub b 1) 8)) (Z.shiftl (ub b 2) 16))
                     (Z.shiftl (ub b 3) 24) < 2 ^ 32) as R.
  { repeat apply lor_below; lia. }
  rewrite to_ulong_small by lia. exact R.
Qed.

End Integers.

(** ** Decimal text *)

Section DecimalText.

Lemma string_length_app (a b : string) :
  String.length (a +:+ b) = (String.length a + String.length b)%nat.
Proof. induction a as [|c a IH]; simpl; [reflexivity | now rewrite IH]. Qed.

Lemma length_zeros n : String.length (zeros n) = n.
Proof. induction n; simpl; congruence. Qed.

Lemma all_digits_app a b :
  all_digits (a +:+ b) = all_digits a && all_digits b.
Proof.
  induction a as [|c a IH]; simpl; [reflexivity|].
  rewrite IH. now rewrite andb_assoc.
Qed.

Lemma all_digits_zeros n : all_digits (zeros n) = true.
Proof. induction n; simpl; [reflexivity | assumption]. Qed.

Lemma all_digits_uint d : all_digits (NilEmpty.string_of_uint d) = true.
Proof. induction d; simpl; auto. Qed.

Lemma all_digits_fmt_02lu n : all_digits (fmt_02lu n) = true.
Proof.
  unfold fmt_02lu, zero_pad, fmt_lu.
  now rewrite all_digits_app, all_digits_zeros, all_digits_uint.
Qed.

(** Leading zeros do not change the value read back. *)
Lemma parse_dec_zeros k d :
  parse_dec (zeros k +:+ NilEmpty.string_of_uint d) = Some (Z.of_N (N.of_uint d)).
Proof.
  unfold parse_dec.
  assert (exists d', NilEmpty.uint_of_string (zeros k +:+ NilEmpty.string_of_uint d) = Some d'
                     /\ N.of_uint d' = N.of_uint d) as (d' & -> & ->); [|reflexivity].
  induction k as [|k (d' & E & V)].
  - exists d. split; [apply NilEmpty.usu | reflexivity].
  - exists (D0 d'). split; [|exact V].
    change (zeros (S k) +:+ NilEmpty.string_of_uint d)
      with (String "0" (zeros k +:+ NilEmpty.string_of_uint d)).
    cbn [NilEmpty.uint_of_string]. rewrite E. reflexivity.
Qed.

Lemma parse_dec_fmt_02lu n : 0 <= n -> parse_dec (fmt_02lu n) = Some n.
Proof.
  intros H. unfold fmt_02lu, zero_pad, fmt_lu.
  now rewrite parse_dec_zeros, DecimalN.Unsigned.of_to, Z2N.id.
Qed.

Lemma length_zero_pad w s : (w <= String.length (zero_pad w s))%nat.
Proof. unfold zero_pad. rewrite string_length_app, length_zeros. lia. Qed.

Lemma until_colon_digits a r :
  all_digits a = true -> until_colon (a +:+ ":" +:+ r) = (a, Some r).
Proof.
  induction a as [|c a IH]; simpl; intros H; [reflexivity|].
  apply andb_prop in H as [Hc Ha].
  destruct (Ascii.eqb_spec c ":") as [->|_]; [discriminate Hc|].
  now rewrite IH.
Qed.

End DecimalText.

(** ** Timecodes *)

(** C5.  For every sector index [s] (an [unsigned long]), the three fields
    computed by [mmssff_from_sectors] are [minutes = s / 4500],
    [seconds = (s / 75) mod 60] and [frames = s mod 75]; frames lies in
    [0, 75), seconds in [0, 60); [minutes * 4500 + seconds * 75 + frames]
    is [s] again, and so is the value decoded from the text [MM:SS:FF] that
    the function formats, which is the text of every index line emitted
    for [s]. *)
Theorem mmssff_decodes_to_sector (s : Z) :
  0 <= s < 2 ^ 64 ->
  let '(minutes, seconds, frames) := mmssff_fields s in
  minutes = s / 4500 /\ seconds = (s / 75) mod 60 /\ frames = s mod 75
  /\ 0 <= frames < 75 /\ 0 <= seconds < 60 /\ 0 <= minutes
  /\ minutes * 4500 + seconds * 75 + frames = s
  /\ decode_mmssff (mmssff_from_sectors s) = Some s
  /\ (forall line, cue_index_line s = Some line ->
        line = "    INDEX 01 " +:+ mmssff_from_sectors s +:+ nl).
Proof.
  intros Hs. unfold mmssff_from_sectors, mmssff_fields.
  rewrite to_ulong_small by (simpl; lia). change (75 * 60) with 4500.
  assert (0 <= s mod 75 < 75) as Hf by (apply Z.mod_pos_bound; lia).
  assert (0 <= (s / 75) mod 60 < 60) as Hsec by (apply Z.mod_pos_bound; lia).
  assert (0 <= s / 4500) as Hm by (apply Z.div_pos; lia).
  assert (s / 4500 * 4500 + (s / 75) mod 60 * 75 + s mod 75 = s) as Hdec.
  { pose proof (Z.div_mod s 75 ltac:(lia)) as E1.
    pose proof (Z.div_mod (s / 75) 60 ltac:(lia)) as E2.
    rewrite Z.div_div in E2 by lia. change (75 * 60) with 4500 in E2. lia. }
  do 7 (split; [lia|]). split.
  - unfold decode_mmssff.
    rewrite until_colon_digits by apply all_digits_fmt_02lu.
    rewrite until_colon_digits by apply all_digits_fmt_02lu.
    rewrite !parse_dec_fmt_02lu by lia.
    now rewrite Hdec.
  - intros line. unfold cue_index_line, mmssff_from_sectors, mmssff_fields.
    rewrite to_ulong_small by (simpl; lia). change (75 * 60) with 4500.
    destruct (_ <? _)%nat; [|discriminate]. now intros [= <-].
Qed.

Lemma mmssff_decodes_to_sector_witness :
  0 <= 337999 < 2 ^ 64
  /\ mmssff_fields 337999 = (75, 6, 49)
  /\ mmssff_from_sectors 337999 = "75:06:49"
  /\ let '(minutes, seconds, frames) := mmssff_fields 337999 in
     minutes = 337999 / 4500 /\ seconds = (337999 / 75) mod 60 /\ frames = 337999 mod 75
     /\ 0 <= frames < 75 /\ 0 <= seconds < 60 /\ 0 <= minutes
     /\ minutes * 4500 + seconds * 75 + frames = 337999
     /\ decode_mmssff (mmssff_from_sectors 337999) = Some 337999
     /\ (forall line, cue_index_line 337999 = Some line ->
           line = "    INDEX 01 " +:+ mmssff_from_sectors 337999 +:+ nl).
Proof.
  split; [lia|]. split; [reflexivity|]. split; [reflexivity|].
  apply (mmssff_decodes_to_sector 337999). lia.
Defined.

(** ** stdio steps *)

Section StdioSteps.

Lemma length_take_full {A} (n : nat) (l : list A) :
  length (take n l) = length l -> take n l = l.
Proof.
  intros H. apply take_ge. rewrite length_take in H. lia.
Qed.

(** A write that is not short appends the whole buffer. *)
Lemma fwrite_full buf o n o' :
  fwrite buf o = (n, o') -> n = Z.of_nat (length buf) ->
  o_content o' = o_content o ++ buf
  /\ o_room o' = o_room o - Z.of_nat (length buf).
Proof.
  unfold fwrite. intros [= <- <-] H. simpl.
  apply Nat2Z.inj in H. rewrite (length_take_full _ _ H). auto.
Qed.

Lemma fread_spec n f buf f' :
  fread n f = (buf, f') ->
  buf = take (Z.to_nat n) (drop (Z.to_nat (f_pos f)) (f_content f))
  /\ f_content f' = f_content f
  /\ f_pos f' = f_pos f + Z.of_nat (length buf).
Proof. unfold fread. intros [= <- <-]. simpl. auto. Qed.

(** A read that is not short: the requested bytes lie inside the file. *)
Lemma fread_full n f buf f' :
  fread n f = (buf, f') -> 0 <= f_pos f -> 0 < n -> Z.of_nat (length buf) = n ->
  f_pos f + n <= Z.of_nat (length (f_content f)) /\ f_pos f' = f_pos f + n.
Proof.
  intros H Hp Hn Hl. apply fread_spec in H as (-> & _ & ->).
  rewrite length_take, length_drop in Hl |- *. lia.
Qed.

End StdioSteps.

(** ** The two copy loops of main *)

Section CopyLoops.

Lemma ul_sub_small a b : 0 <= b <= a -> a < 2 ^ 64 -> ul_sub a b = a - b.
Proof. intros. unfold ul_sub. apply to_ulong_small. lia. Qed.

Lemma trips_step n : 8192 < n -> trips n = S (trips (n - 8192)).
Proof.
  intros H. unfold trips. f_equal.
  replace n with ((n - 8192) + 1 * 8192) at 1 by lia.
  rewrite Z.div_add by lia.
  rewrite Z2Nat.inj_add; [|apply Z.div_pos; lia | lia].
  change (Z.to_nat 1) with 1%nat. lia.
Qed.

(** The padding loop appends exactly [pad_bytes] zero bytes. *)
Lemma pad_loop_done budget fb pad_bytes fb' :
  0 <= pad_bytes < 2 ^ 64 ->
  pad_loop budget fb pad_bytes = PadDone fb' ->
  o_content fb' = o_content fb ++ replicate (Z.to_nat pad_bytes) x00.
Proof.
  revert fb pad_bytes. induction budget as [|budget IH]; intros fb p Hp; cbn [pad_loop].
  - destruct (Z.gtb_spec p 0); [discriminate|].
    intros [= <-]. replace p with 0 by lia. simpl. now rewrite app_nil_r.
  - destruct (Z.gtb_spec p 0) as [Hpos|Hz].
    + cbv zeta. set (chunk2 := if p >? 8192 then 8192 else p).
      assert (0 < chunk2 <= p) as Hc by (subst chunk2; destruct (Z.gtb_spec p 8192); lia).
      destruct (fwrite _ fb) as [written fb1] eqn:W.
      destruct (Z.eqb_spec written chunk2) as [->|]; cbn [negb]; [|discriminate].
      intros L. apply IH in L; [|rewrite ul_sub_small by lia; lia].
      apply fwrite_full in W as [W _]; [|rewrite length_replicate; lia].
      rewrite L, W, <- app_assoc, <- replicate_add. f_equal. f_equal.
      rewrite ul_sub_small by lia. lia.
    + intros [= <-]. replace p with 0 by lia. simpl. now rewrite app_nil_r.
Qed.

Lemma pad_loop_budget budget fb pad_bytes :
  0 <= pad_bytes < 2 ^ 64 -> (Z.to_nat (pad_bytes / 8192) < budget)%nat ->
  pad_loop budget fb pad_bytes <> PadBudget.
Proof.
  revert fb pad_bytes. induction budget as [|budget IH]; intros fb p Hp Hb; [lia|].
  cbn [pad_loop]. destruct (Z.gtb_spec p 0) as [Hpos|Hz]; [|discriminate].
  cbv zeta. destruct (fwrite _ fb) as [written fb1].
  destruct (negb _); [discriminate|].
  destruct (Z.gtb_spec p 8192) as [Hbig|Hsmall].
  - rewrite ul_sub_small by lia. apply IH; [lia|].
    pose proof (trips_step p Hbig) as T. unfold trips in T. lia.
  - rewrite ul_sub_small by lia. replace (p - p) with 0 by lia.
    destruct budget; cbn [pad_loop]; discriminate.
Qed.

(** The payload loop appends the [remaining] bytes found at the read
    cursor, all of which lie inside the input. *)
Lemma copy_loop_done budget fin fb remaining fin' fb' :
  0 <= remaining < 2 ^ 64 -> 0 <= f_pos fin ->
  copy_loop budget fin fb remaining = CopyDone fin' fb' ->
  let payload := take (Z.to_nat remaining) (drop (Z.to_nat (f_pos fin)) (f_content fin)) in
  o_content fb' = o_content fb ++ payload
  /\ Z.of_nat (length payload) = remaining.
Proof.
  revert fin fb remaining. induction budget as [|budget IH]; intros fin fb r Hr Hp; cbn [copy_loop].
  - destruct (Z.gtb_spec r 0); [discriminate|].
    intros [= <- <-]. replace r with 0 by lia. simpl. now rewrite app_nil_r.
  - destruct (Z.gtb_spec r 0) as [Hpos|Hz].
    + cbv zeta. set (chunk := if r >? 8192 then 8192 else r).
      assert (0 < chunk <= r) as Hc by (subst chunk; destruct (Z.gtb_spec r 8192); lia).
      destruct (fread chunk fin) as [buf fin1] eqn:R.
      destruct (Z.eqb_spec (Z.of_nat (length buf)) chunk) as [Hlen|]; cbn [negb]; [|discriminate].
      destruct (fwrite buf fb) as [written fb1] eqn:W.
      destruct (Z.eqb_spec written chunk) as [->|]; cbn [negb]; [|discriminate].
      intros L.
      pose proof (fread_full _ _ _ _ R Hp ltac:(lia) Hlen) as [_ Hpos1].
      apply fread_spec in R as (Hbuf & Hcont & _).
      apply IH in L; [|rewrite ul_sub_small by lia; lia | lia].
      rewrite ul_sub_small in L by lia. rewrite Hcont, Hpos1 in L.
      apply fwrite_full in W as [W _]; [|lia].
      destruct L as [L1 L2].
      rewrite Z2Nat.inj_add, <- drop_drop in L1, L2 by lia.
      assert (take (Z.to_nat r) (drop (Z.to_nat (f_pos fin)) (f_content fin))
              = buf ++ take (Z.to_nat (r - chunk))
                            (drop (Z.to_nat chunk) (drop (Z.to_nat (f_pos fin)) (f_content fin)))) as E.
      { rewrite Hbuf, take_take_drop. f_equal. lia. }
      rewrite E. split.
      * rewrite L1, W, <- app_assoc. reflexivity.
      * rewrite length_app. lia.
    + intros [= <- <-]. replace r with 0 by lia. simpl. now rewrite app_nil_r.
Qed.

Lemma copy_loop_budget budget fin fb remaining :
  0 <= remaining < 2 ^ 64 -> (Z.to_nat (remaining / 8192) < budget)%nat ->
  copy_loop budget fin fb remaining <> CopyBudget.
Proof.
  revert fin fb remaining. induction budget as [|budget IH]; intros fin fb r Hr Hb; [lia|].
  cbn [copy_loop]. destruct (Z.gtb_spec r 0) as [Hpos|Hz]; [|discriminate].
  cbv zeta. destruct (fread _ fin) as [buf fin1].
  destruct (negb _); [discriminate|].
  destruct (fwrite buf fb) as [written fb1].
  destruct (negb _); [discriminate|].
  destruct (Z.gtb_spec r 8192) as [Hbig|Hsmall].
  - rewrite ul_sub_small by lia. apply IH; [lia|].
    pose proof (trips_step r Hbig) as T. unfold trips in T. lia.
  - rewrite ul_sub_small by lia. replace (r - r) with 0 by lia.
    destruct budget; cbn [copy_loop]; discriminate.
Qed.

End CopyLoops.

(** ** Sector padding *)

Section Padding.

Lemma spec_pad_range len : 0 <= spec_pad len < 2352.
Proof. unfold spec_pad. apply Z.mod_pos_bound. lia. Qed.

Lemma spec_pad_aligns len : (len + spec_pad len) mod 2352 = 0.
Proof.
  unfold spec_pad.
  pose proof (Z.div_mod len 2352 ltac:(lia)) as E.
  pose proof (Z.mod_pos_bound len 2352 ltac:(lia)) as B.
  destruct (Z.eq_dec (len mod 2352) 0) as [Z0|NZ].
  - rewrite Z0. change ((2352 - 0) mod 2352) with 0. rewrite Z.add_0_r. exact Z0.
  - rewrite (Z.mod_small (2352 - len mod 2352)) by lia.
    replace (len + (2352 - len mod 2352)) with ((len / 2352 + 1) * 2352) by lia.
    apply Z.mod_mul. lia.
Qed.

(** The expression of the program, with its conversions, is the padding
    of the specification. *)
Lemma sector_pad_spec len : sector_pad len = spec_pad len.
Proof.
  unfold sector_pad, spec_pad. change (to_ulong SECTOR) with 2352.
  pose proof (Z.mod_pos_bound len 2352 ltac:(lia)) as B.
  rewrite ul_sub_small by lia. reflexivity.
Qed.

Lemma padded_size_spec len :
  0 <= len < 2 ^ 32 -> padded_size len = len + spec_pad len.
Proof.
  intros H. unfold padded_size, ul_add. rewrite sector_pad_spec.
  pose proof (spec_pad_range len). apply to_ulong_small. lia.
Qed.

Lemma padded_sectors_spec len :
  0 <= len < 2 ^ 32 -> padded_size len / to_ulong SECTOR = spec_sectors len.
Proof.
  intros H. rewrite padded_size_spec by exact H. reflexivity.
Qed.

Lemma spec_sectors_times len : spec_sectors len * 2352 = len + spec_pad len.
Proof.
  unfold spec_sectors.
  pose proof (Z.div_mod (len + spec_pad len) 2352 ltac:(lia)) as E.
  rewrite spec_pad_aligns in E. lia.
Qed.

Lemma spec_sectors_range len : 0 <= len < 2 ^ 32 -> 0 <= spec_sectors len < 2 ^ 21.
Proof.
  intros H. pose proof (spec_sectors_times len). pose proof (spec_pad_range len). lia.
Qed.

Lemma write_padding_done fb pad_bytes fb' :
  0 <= pad_bytes < 2 ^ 64 ->
  write_padding fb pad_bytes = PadDone fb' ->
  o_content fb' = o_content fb ++ replicate (Z.to_nat pad_bytes) x00.
Proof.
  intros H. unfold write_padding. destruct (Z.eqb_spec pad_bytes 0) as [->|]; cbn [negb].
  - intros [= <-]. simpl. now rewrite app_nil_r.
  - now apply pad_loop_done.
Qed.

Lemma write_padding_budget fb pad_bytes :
  0 <= pad_bytes < 2 ^ 64 -> write_padding fb pad_bytes <> PadBudget.
Proof.
  intros H. unfold write_padding. destruct (negb _); [|discriminate].
  apply pad_loop_budget; [exact H | unfold trips; lia].
Qed.

End Padding.

(** ** parse_wav: cursor and out-parameters *)

Section ParseInvariants.

Ltac inv_solve :=
  unfold file_inv in *;
  repeat match goal with H : _ /\ _ |- _ => destruct H end;
  repeat split; solve [lia | congruence].

Lemma fread_inv n f buf f' :
  fread n f = (buf, f') -> file_inv f ->
  file_inv f' /\ f_content f' = f_content f /\ f_pos f <= f_pos f'.
Proof.
  intros R [Hp Hl]. apply fread_spec in R as (-> & E & P).
  unfold file_inv. rewrite E, P, length_take, length_drop.
  split; [lia|]. split; [reflexivity | lia].
Qed.

Lemma fseek_cur_inv off f f' :
  fseek_cur off f = Some f' -> file_inv f ->
  file_inv f' /\ f_content f' = f_content f /\ f_pos f' = f_pos f + off.
Proof.
  unfold fseek_cur, seekable, file_inv. intros H [Hp Hl].
  destruct (Z.leb_spec 0 (f_pos f + off)); [|discriminate].
  destruct (Z.leb_spec (f_pos f + off) LONG_MAX); [|discriminate].
  injection H as <-. simpl. split; [lia|]. split; [reflexivity | lia].
Qed.

Lemma skip_pad_byte_inv csize f f' :
  skip_pad_byte csize f = Some f' -> file_inv f ->
  file_inv f' /\ f_content f' = f_content f /\ f_pos f <= f_pos f'.
Proof.
  unfold skip_pad_byte. destruct (negb _).
  - intros H I. destruct (fseek_cur_inv _ _ _ H I) as (? & ? & ?). inv_solve.
  - intros [= <-] I. inv_solve.
Qed.

Lemma to_long_csize b : to_long (rd_le_u32 b) = rd_le_u32 b.
Proof.
  pose proof (rd_le_u32_range b). apply to_long_small. unfold LONG_MAX. lia.
Qed.

(** One chunk never moves the cursor backwards. *)
Lemma chunk_body_file chdr f st st' f' :
  chunk_body chdr f st = Some (st', f') -> file_inv f ->
  file_inv f' /\ f_content f' = f_content f /\ f_pos f <= f_pos f'.
Proof.
  unfold chunk_body. intros H I.
  pose proof (rd_le_u32_range (drop 4 chdr)) as Hc.
  set (csize := rd_le_u32 (drop 4 chdr)) in *.
  destruct (memcmp_eq chdr (bytes_of "fmt ") 4).
  - destruct (fread _ f) as [fmbuf f1] eqn:R.
    destruct (fread_inv _ _ _ _ R I) as (I1 & C1 & P1).
    destruct (negb _); [discriminate|].
    assert (to_long (if csize <? 40 then csize else 40) = (if csize <? 40 then csize else 40)) as Hn.
    { apply to_long_small. unfold LONG_MAX. destruct (csize <? 40); lia. }
    rewrite Hn in H. unfold csize in H at 3 4. rewrite to_long_csize in H. fold csize in H.
    destruct (Z.ltb_spec (if csize <? 40 then csize else 40) csize) as [Hlt|Hge].
    + destruct (fseek_cur _ f1) as [f2|] eqn:S1; [|discriminate].
      destruct (fseek_cur_inv _ _ _ S1 I1) as (I2 & C2 & P2).
      destruct (skip_pad_byte csize f2) as [f3|] eqn:S2; [|discriminate].
      destruct (skip_pad_byte_inv _ _ _ S2 I2) as (I3 & C3 & P3).
      injection H as _ <-. inv_solve.
    + destruct (skip_pad_byte csize f1) as [f3|] eqn:S2; [|discriminate].
      destruct (skip_pad_byte_inv _ _ _ S2 I1) as (I3 & C3 & P3).
      injection H as _ <-. inv_solve.
  - unfold csize in H. rewrite !to_long_csize in H. fold csize in H.
    destruct (memcmp_eq chdr (bytes_of "data") 4).
    + destruct (ftell f <? 0); [discriminate|].
      destruct (fseek_cur csize f) as [f2|] eqn:S1; [|discriminate].
      destruct (fseek_cur_inv _ _ _ S1 I) as (I2 & C2 & P2).
      destruct (skip_pad_byte csize f2) as [f3|] eqn:S2; [|discriminate].
      destruct (skip_pad_byte_inv _ _ _ S2 I2) as (I3 & C3 & P3).
      injection H as _ <-. inv_solve.
    + destruct (fseek_cur csize f) as [f2|] eqn:S1; [|discriminate].
      destruct (fseek_cur_inv _ _ _ S1 I) as (I2 & C2 & P2).
      destruct (skip_pad_byte csize f2) as [f3|] eqn:S2; [|discriminate].
      destruct (skip_pad_byte_inv _ _ _ S2 I2) as (I3 & C3 & P3).
      injection H as _ <-. inv_solve.
Qed.

Lemma memcmp_eq_take k a b n :
  (n <= k)%nat -> memcmp_eq (take k a) b n = memcmp_eq a b n.
Proof.
  revert k a b. induction n as [|n IH]; intros k a b Hk; [reflexivity|].
  destruct k as [|k]; [lia|]. destruct a as [|x a]; [reflexivity|].
  destruct b as [|y b]; [reflexivity|]. simpl. rewrite IH by lia. reflexivity.
Qed.

Lemma ub_take k b i : (i < k)%nat -> ub (take k b) i = ub b i.
Proof.
  intros H. unfold ub. now rewrite !nth_lookup, lookup_take_lt.
Qed.

Lemma rd_le_u32_take k b : (4 <= k)%nat -> rd_le_u32 (take k b) = rd_le_u32 b.
Proof. intros H. unfold rd_le_u32. now rewrite !ub_take by lia. Qed.

(** One chunk keeps the out-parameters within range and, once a data
    chunk has been met, pointing just behind its header. *)
Lemma chunk_body_state chdr f0 f st st' f' :
  fread 8 f0 = (chdr, f) -> Z.of_nat (length chdr) = 8 -> file_inv f0 ->
  chunk_body chdr f st = Some (st', f') ->
  scan_inv (f_content f0) st -> scan_inv (f_content f0) st'.
Proof.
  intros R L I H (Hs & Ho & Hh).
  destruct (fread_inv _ _ _ _ R I) as (I1 & C1 & P1).
  apply fread_spec in R as (Echdr & _ & Epos). rewrite L in Epos.
  unfold chunk_body in H.
  pose proof (rd_le_u32_range (drop 4 chdr)) as Hc.
  set (csize := rd_le_u32 (drop 4 chdr)) in *.
  destruct (memcmp_eq chdr (bytes_of "fmt ") 4).
  - destruct (fread _ f) as [fmbuf f1].
    destruct (negb _); [discriminate|].
    destruct (if to_long _ <? to_long _ then _ else _) as [f2|]; [|discriminate].
    destruct (skip_pad_byte csize f2) as [f3|]; [|discriminate].
    injection H as <- _. destruct (csize >=? 16); [|unfold scan_inv; auto].
    split; [exact Hs|]. split; [exact Ho|]. exact Hh.
  - destruct (memcmp_eq chdr (bytes_of "data") 4) eqn:Tag.
    + destruct (ftell f <? 0); [discriminate|].
      destruct (fseek_cur _ f) as [f2|]; [|discriminate].
      destruct (skip_pad_byte csize f2) as [f3|]; [|discriminate].
      injection H as <- _. unfold scan_inv, ftell. cbn [data_size data_ofs got_data].
      destruct I1 as [I1 _]. destruct I as [I _].
      rewrite to_ulong_small by (unfold LONG_MAX in *; lia).
      split; [exact Hc|]. split; [lia|]. intros _.
      unfold data_header_at. rewrite Epos.
      replace (f_pos f0 + 8 - 8) with (f_pos f0) by lia.
      replace (Z.to_nat (f_pos f0 + 8 - 4)) with (Z.to_nat (f_pos f0) + 4)%nat by lia.
      split; [lia|]. split.
      * rewrite Echdr in Tag. change (Z.to_nat 8) with 8%nat in Tag.
        now rewrite memcmp_eq_take in Tag by lia.
      * unfold csize. rewrite Echdr. change (Z.to_nat 8) with 8%nat.
        rewrite <- drop_drop.
        rewrite <- (rd_le_u32_take 4 (drop 4 _)) by lia.
        now rewrite (take_drop_commute _ 4 4).
    + destruct (fseek_cur _ f) as [f2|]; [|discriminate].
      destruct (skip_pad_byte csize f2) as [f3|]; [|discriminate].
      injection H as <- _. unfold scan_inv; auto.
Qed.

Lemma scan_chunks_inv budget f st st' f' :
  scan_chunks budget f st = ScanDone st' f' -> file_inv f ->
  scan_inv (f_content f) st ->
  file_inv f' /\ f_content f' = f_content f /\ scan_inv (f_content f) st'.
Proof.
  revert f st. induction budget as [|budget IH]; intros f st; [discriminate|].
  cbn [scan_chunks]. intros H I S.
  destruct (fread 8 f) as [chdr f1] eqn:R.
  destruct (fread_inv _ _ _ _ R I) as (I1 & C1 & P1).
  destruct (Z.eqb_spec (Z.of_nat (length chdr)) 8) as [L|_]; cbn [negb] in H.
  - destruct (chunk_body chdr f1 st) as [[st1 f2]|] eqn:B; [|discriminate].
    destruct (chunk_body_file _ _ _ _ _ B I1) as (I2 & C2 & P2).
    pose proof (chunk_body_state _ _ _ _ _ _ R L I B S) as S1.
    destruct (got_fmt st1 && got_data st1).
    + injection H as <- <-. split; [exact I2|]. split; [congruence | exact S1].
    + apply IH in H; [|exact I2 | rewrite C2, C1; exact S1].
      destruct H as (I3 & C3 & S3). rewrite C2, C1 in C3, S3. auto.
  - injection H as <- <-. auto.
Qed.

(** The budget [parse_wav] grants is never exhausted: a trip that does not
    leave the loop has consumed a chunk header of 8 bytes. *)
Lemma scan_chunks_budget budget f st :
  file_inv f ->
  (length (f_content f) - Z.to_nat (f_pos f) < budget)%nat ->
  scan_chunks budget f st <> ScanBudget.
Proof.
  revert f st. induction budget as [|budget IH]; intros f st I Hb; [lia|].
  cbn [scan_chunks].
  destruct (fread 8 f) as [chdr f1] eqn:R.
  destruct (fread_inv _ _ _ _ R I) as (I1 & C1 & P1).
  destruct (Z.eqb_spec (Z.of_nat (length chdr)) 8) as [L|_]; cbn [negb]; [|discriminate].
  destruct (chunk_body chdr f1 st) as [[st1 f2]|] eqn:B; [|discriminate].
  destruct (chunk_body_file _ _ _ _ _ B I1) as (I2 & C2 & P2).
  destruct (got_fmt st1 && got_data st1); [discriminate|].
  destruct I as [[I _] _].
  destruct (fread_full _ _ _ _ R I ltac:(lia) L) as [F1 F2].
  apply IH; [exact I2|]. rewrite C2, C1. lia.
Qed.

Lemma scan_inv_init content : scan_inv content wav_init.
Proof.
  unfold scan_inv, wav_init, LONG_MAX. cbn. repeat split; try lia; discriminate.
Qed.

Lemma parse_wav_total f name : file_inv f -> parse_wav f name <> ParseBudget.
Proof.
  intros I. unfold parse_wav.
  destruct (fread 12 f) as [hdr12 f1] eqn:R.
  destruct (fread_inv _ _ _ _ R I) as (I1 & C1 & P1).
  destruct (negb _); [discriminate|]. destruct (_ || _); [discriminate|].
  pose proof (scan_chunks_budget (S (length (f_content f1))) f1 wav_init I1 ltac:(lia)) as B.
  destruct (scan_chunks _ f1 wav_init); [|discriminate|contradiction].
  destruct (_ || _); [discriminate|]. destruct (negb _); discriminate.
Qed.

(** On [return 0] the out-parameters describe a data chunk of the input:
    [data_ofs] is the offset just behind its header and [data_size] its
    declared size. *)
Lemma parse_wav_ok f name f' ofs size :
  parse_wav f name = ParseOk f' ofs size -> file_inv f ->
  f_content f' = f_content f /\ 0 <= size < 2 ^ 32 /\ 0 <= ofs <= LONG_MAX
  /\ data_header_at (f_content f) ofs size.
Proof.
  intros H I. unfold parse_wav in H.
  destruct (fread 12 f) as [hdr12 f1] eqn:R.
  destruct (fread_inv _ _ _ _ R I) as (I1 & C1 & P1).
  destruct (negb _); [discriminate|]. destruct (_ || _); [discriminate|].
  destruct (scan_chunks _ f1 wav_init) as [st f2| |] eqn:S; try discriminate.
  destruct (scan_chunks_inv _ _ _ _ _ S I1 (scan_inv_init _)) as (I2 & C2 & (Hs & Ho & Hh)).
  destruct (got_fmt st); [|discriminate]. destruct (got_data st); [|discriminate].
  cbn [negb orb] in H. destruct (negb _); [discriminate|].
  injection H as <- <- <-. rewrite C1 in *. auto.
Qed.

End ParseInvariants.

(** ** The track loop *)

Section TrackLoop.

Variable env : Env.

Lemma fopen_rb_inv fs path f :
  fopen_rb fs path = Some f -> file_inv f /\ f_pos f = 0 /\ fs !! path = Some (f_content f).
Proof.
  unfold fopen_rb. destruct (fs !! path) as [c|]; [|discriminate].
  destruct (Z.leb_spec (Z.of_nat (length c)) LONG_MAX); [|discriminate].
  intros [= <-]. unfold file_inv, LONG_MAX in *. simpl. repeat split; try lia; reflexivity.
Qed.

Lemma fseek_set_spec off f f' :
  fseek_set off f = Some f' -> f_content f' = f_content f /\ f_pos f' = off /\ 0 <= off.
Proof.
  unfold fseek_set, seekable. destruct (Z.leb_spec 0 off); [|discriminate].
  destruct (off <=? LONG_MAX); [|discriminate]. intros [= <-]. auto.
Qed.

(** A completed trip of the track loop, read as a step on the image. *)
Lemma process_track_next i wav st st' :
  process_track env i wav st = StepNext st' ->
  exists src,
    resolved (files (world st)) wav src
    /\ o_content (fbin st') = o_content (fbin st) ++ track_bytes src
    /\ index_times st' = <[i := total_sectors_before st]> (index_times st)
    /\ total_sectors_before st'
       = ul_add (total_sectors_before st) (spec_sectors (s_size src))
    /\ files (world st') = files (world st).
Proof.
  unfold process_track, resolved, resolve.
  destruct (fopen_rb _ wav) as [fin|] eqn:O; [|discriminate].
  destruct (fopen_rb_inv _ _ _ O) as (I & P0 & _).
  destruct (parse_wav fin wav) as [fin1 ofs size| |] eqn:P; try discriminate.
  destruct (parse_wav_ok _ _ _ _ _ P I) as (C1 & Hs & Ho & Hh).
  rewrite to_long_small by exact Ho.
  destruct (fseek_set ofs fin1) as [fin2|] eqn:S; [|discriminate].
  apply fseek_set_spec in S as (C2 & P2 & _).
  destruct (copy_loop _ fin2 (fbin st) size) as [fin3 fb1|?|?|] eqn:L; try discriminate.
  apply copy_loop_done in L; [|lia | lia]. cbv zeta in L. destruct L as [L1 L2].
  rewrite C2, C1, P2 in L1, L2.
  pose proof (spec_pad_range size) as R.
  rewrite sector_pad_spec, to_ulong_small by lia.
  destruct (write_padding fb1 (spec_pad size)) as [fb2|?|] eqn:W; try discriminate.
  apply write_padding_done in W; [|lia].
  intros [= <-]. cbn [fbin index_times total_sectors_before world files print].
  exists (mkSource (f_content fin) ofs size).
  split; [split; [reflexivity|]|].
  - unfold source_ok, payload. cbn [s_size s_ofs s_content]. auto.
  - unfold track_bytes, payload. cbn [s_size s_ofs s_content].
    rewrite W, L1, <- app_assoc, padded_sectors_spec by lia. auto.
Qed.

Lemma sumZ_app l k : sumZ (l ++ k) = sumZ l + sumZ k.
Proof. unfold sumZ. induction l as [|x l IH]; simpl; lia. Qed.

Lemma sector_counts_cons src srcs :
  sumZ (sector_counts (src :: srcs))
  = spec_sectors (s_size src) + sumZ (sector_counts srcs).
Proof. reflexivity. Qed.

Lemma start_sector_0 srcs : start_sector srcs 0 = 0.
Proof. reflexivity. Qed.

Lemma start_sector_S src srcs j :
  start_sector (src :: srcs) (S j) = spec_sectors (s_size src) + start_sector srcs j.
Proof. reflexivity. Qed.

Lemma image_of_app l k : image_of (l ++ k) = image_of l ++ image_of k.
Proof. unfold image_of. now rewrite map_app, concat_app. Qed.

Lemma sector_counts_take i srcs :
  take i (sector_counts srcs) = sector_counts (take i srcs).
Proof. unfold sector_counts. apply firstn_map. Qed.

Lemma length_track_bytes src :
  source_ok src -> Z.of_nat (length (track_bytes src)) = spec_sectors (s_size src) * 2352.
Proof.
  intros (Hs & Hp & _). unfold track_bytes.
  pose proof (spec_pad_range (s_size src)).
  rewrite length_app, length_replicate, spec_sectors_times. lia.
Qed.

(** The image of a sequence of sources is as long as their sectors. *)
Lemma length_image_of srcs :
  Forall source_ok srcs ->
  Z.of_nat (length (image_of srcs)) = sumZ (sector_counts srcs) * 2352.
Proof.
  induction 1 as [|src srcs Hok _ IH]; [reflexivity|].
  change (image_of (src :: srcs)) with (track_bytes src ++ image_of srcs).
  rewrite length_app, Nat2Z.inj_add, IH, (length_track_bytes _ Hok).
  rewrite sector_counts_cons. lia.
Qed.

(** The whole track loop, read on the image, the counter and the array
    of starting sectors. *)
Lemma track_loop_next wavs : forall i st st',
  track_loop env i wavs st = StepNext st' ->
  0 <= total_sectors_before st ->
  total_sectors_before st + Z.of_nat (length wavs) * 2 ^ 21 < 2 ^ 64 ->
  (i + length wavs <= length (index_times st))%nat ->
  exists srcs,
    Forall2 (resolved (files (world st))) wavs srcs
    /\ o_content (fbin st') = o_content (fbin st) ++ image_of srcs
    /\ total_sectors_before st' = total_sectors_before st + sumZ (sector_counts srcs)
    /\ length (index_times st') = length (index_times st)
    /\ (forall j, (j < length wavs)%nat ->
          index_times st' !! (i + j)%nat
          = Some (total_sectors_before st + start_sector srcs j))
    /\ (forall k, (k < i)%nat -> index_times st' !! k = index_times st !! k)
    /\ files (world st') = files (world st).
Proof.
  induction wavs as [|wav wavs IH]; intros i st st' H Ht Hw Hi.
  - injection H as <-. exists []. split; [constructor|].
    change (image_of []) with (@nil byte). rewrite app_nil_r.
    change (sumZ (sector_counts [])) with 0.
    repeat split; auto; try lia. intros j Hj. cbn in Hj. lia.
  - cbn [track_loop] in H. cbn [length] in Hw, Hi.
    destruct (process_track env i wav st) as [st1| |] eqn:P; try discriminate.
    apply process_track_next in P as (src & Hres & Hfb & Hit & Htot & Hfs).
    pose proof Hres as [_ Hok]. pose proof Hok as (Hs & _).
    pose proof (spec_sectors_range _ Hs) as Hsec.
    assert (total_sectors_before st1
            = total_sectors_before st + spec_sectors (s_size src)) as Htot1.
    { rewrite Htot. unfold ul_add. apply to_ulong_small. lia. }
    apply IH in H; [|lia | lia | rewrite Hit, length_insert; lia].
    destruct H as (srcs & Hall & Hfb' & Htot' & Hlen & Hnew & Hold & Hfs').
    exists (src :: srcs). rewrite Hfs in Hall.
    split; [constructor; assumption|].
    split; [rewrite Hfb', Hfb, <- app_assoc; reflexivity|].
    split; [rewrite Htot', Htot1, sector_counts_cons; lia|].
    split; [rewrite Hlen, Hit, length_insert; reflexivity|].
    split; [|split; [|congruence]].
    + intros [|j] Hj.
      * rewrite Nat.add_0_r, Hold, Hit by lia.
        rewrite list_lookup_insert_eq by lia.
        rewrite start_sector_0. f_equal. lia.
      * replace (i + S j)%nat with (S i + j)%nat by lia.
        rewrite Hnew by (cbn in Hj; lia). f_equal.
        rewrite start_sector_S. lia.
    + intros k Hk. rewrite Hold, Hit by lia.
      apply list_lookup_insert_ne. lia.
Qed.

End TrackLoop.

(** ** The assembled image *)

Section Assembler.

Variable env : Env.

Lemma ntracks_of_argc wavs :
  argc_of wavs <= INT_MAX ->
  Z.to_nat (to_int (argc_of wavs - 1)) = length wavs.
Proof.
  unfold argc_of. intros H. rewrite to_int_small by (unfold INT_MAX in *; lia). lia.
Qed.

(** The track loop of a run that completes it, read against the sources
    of the input paths. *)
Lemma run_tracks_next wavs w st :
  argc_of wavs <= INT_MAX ->
  run_tracks env wavs w = StepNext st ->
  exists srcs,
    Forall2 (resolved (<[bin_path := []]> (files w))) wavs srcs
    /\ o_content (fbin st) = image_of srcs
    /\ total_sectors_before st = sumZ (sector_counts srcs)
    /\ length (index_times st) = length wavs
    /\ (forall i, (i < length wavs)%nat ->
          index_times st !! i = Some (start_sector srcs i)).
Proof.
  intros Hargc H. unfold run_tracks in H.
  apply track_loop_next in H.
  - destruct H as (srcs & Hall & Hfb & Htot & Hlen & Hnew & _ & _).
    exists srcs. cbn in Hall, Hfb, Htot, Hlen.
    rewrite length_map, length_seq, ntracks_of_argc in Hlen by exact Hargc.
    split; [exact Hall|]. split; [exact Hfb|]. split; [lia|]. split; [exact Hlen|].
    intros i Hi. specialize (Hnew i Hi). cbn in Hnew. exact Hnew.
  - cbn. lia.
  - cbn. unfold argc_of, INT_MAX in Hargc. lia.
  - cbn. rewrite length_map, length_seq, ntracks_of_argc by exact Hargc. lia.
Qed.

Lemma sumZ_nonneg l : Forall (fun x => 0 <= x) l -> 0 <= sumZ l.
Proof. unfold sumZ. induction 1; simpl; lia. Qed.

Lemma sector_counts_nonneg srcs :
  Forall source_ok srcs -> Forall (fun x => 0 <= x) (sector_counts srcs).
Proof.
  unfold sector_counts. induction 1 as [|src srcs (Hs & _) _ IH]; constructor; auto.
  pose proof (spec_sectors_range _ Hs). lia.
Qed.

Lemma start_sector_mono srcs i j :
  Forall source_ok srcs -> (i <= j)%nat -> start_sector srcs i <= start_sector srcs j.
Proof.
  intros Hok Hij. unfold start_sector.
  replace j with (i + (j - i))%nat by lia.
  rewrite <- take_take_drop, sumZ_app.
  pose proof (sumZ_nonneg (take (j - i) (drop i (sector_counts srcs)))) as P.
  specialize (P ltac:(apply Forall_take, Forall_drop, sector_counts_nonneg, Hok)). lia.
Qed.

Lemma resolved_all_ok fs wavs srcs :
  Forall2 (resolved fs) wavs srcs -> Forall source_ok srcs.
Proof. induction 1 as [|? ? ? ? [_ ?]]; constructor; auto. Qed.

End Assembler.

(** C1.  In a run whose track loop completes (with [argc] an [int]), the
    starting sector recorded for track [i] is the sum of the padded sector
    counts [(len + pad) / 2352] of the tracks before it; the first track
    starts at sector 0; the recorded starting sectors never decrease. *)
Theorem start_sectors_are_running_totals env wavs w st :
  argc_of wavs <= INT_MAX ->
  run_tracks env wavs w = StepNext st ->
  exists srcs,
    Forall2 (resolved (<[bin_path := []]> (files w))) wavs srcs
    /\ length (index_times st) = length wavs
    /\ (forall i, (i < length wavs)%nat ->
          index_times st !! i
          = Some (sumZ (map (fun src => (s_size src + spec_pad (s_size src)) / 2352)
                            (take i srcs))))
    /\ (wavs <> [] -> index_times st !! 0%nat = Some 0)
    /\ (forall i j a b, (i <= j)%nat ->
          index_times st !! i = Some a -> index_times st !! j = Some b -> a <= b).
Proof.
  intros Hargc H.
  destruct (run_tracks_next env wavs w st Hargc H) as (srcs & Hall & _ & _ & Hlen & Hidx).
  exists srcs. split; [exact Hall|]. split; [exact Hlen|].
  pose proof (resolved_all_ok _ _ _ Hall) as Hok.
  split; [|split].
  - intros i Hi. rewrite (Hidx i Hi). unfold start_sector.
    now rewrite sector_counts_take.
  - intros Hne. rewrite Hidx; [reflexivity|]. destruct wavs; [congruence | cbn; lia].
  - intros i j a b Hij Ha Hb.
    assert (j < length wavs)%nat as Hj by (rewrite <- Hlen; eapply lookup_lt_Some, Hb).
    rewrite Hidx in Ha, Hb by lia. injection Ha as <-. injection Hb as <-.
    now apply start_sector_mono.
Qed.

Lemma start_sectors_are_running_totals_witness :
  argc_of demo_wavs <= INT_MAX
  /\ run_tracks demo_env demo_wavs demo_world = StepNext demo_final
  /\ index_times demo_final = [0; 2]
  /\ exists srcs,
       Forall2 (resolved (<[bin_path := []]> (files demo_world))) demo_wavs srcs
       /\ length (index_times demo_final) = length demo_wavs
       /\ (forall i, (i < length demo_wavs)%nat ->
             index_times demo_final !! i
             = Some (sumZ (map (fun src => (s_size src + spec_pad (s_size src)) / 2352)
                               (take i srcs))))
       /\ (demo_wavs <> [] -> index_times demo_final !! 0%nat = Some 0)
       /\ (forall i j a b, (i <= j)%nat ->
             index_times demo_final !! i = Some a ->
             index_times demo_final !! j = Some b -> a <= b).
Proof.
  assert (run_tracks demo_env demo_wavs demo_world = StepNext demo_final) as R
      by (vm_compute; reflexivity).
  split; [vm_compute; discriminate|].
  split; [exact R|].
  split; [reflexivity|].
  apply (start_sectors_are_running_totals demo_env demo_wavs demo_world demo_final).
  - vm_compute; discriminate.
  - exact R.
Defined.

(** C3.  When the track loop of a run has completed, the image stream is
    exactly [total_sectors_before * 2352] bytes long, hence a whole number
    of sectors; and this stream is what a run that exits with status 0
    leaves in [disc.bin]. *)
Theorem image_length_is_sector_count env wavs w st :
  argc_of wavs <= INT_MAX ->
  run_tracks env wavs w = StepNext st ->
  Z.of_nat (length (o_content (fbin st))) = total_sectors_before st * SECTOR
  /\ Z.of_nat (length (o_content (fbin st))) mod SECTOR = 0
  /\ (forall prog w', main env prog wavs w = Exit 0 w' ->
        files w' !! bin_path = Some (o_content (fbin st))).
Proof.
  intros Hargc H.
  destruct (run_tracks_next env wavs w st Hargc H) as (srcs & Hall & Hfb & Htot & _ & _).
  pose proof (resolved_all_ok _ _ _ Hall) as Hok.
  assert (Z.of_nat (length (o_content (fbin st))) = total_sectors_before st * SECTOR) as E.
  { rewrite Hfb, Htot. now apply length_image_of. }
  split; [exact E|]. split; [rewrite E; apply Z.mod_mul; unfold SECTOR; lia|].
  intros prog w'. unfold main. rewrite H.
  destruct (argc_of wavs <? 2); [discriminate|].
  destruct (negb (can_create env bin_path)); [discriminate|].
  destruct (negb (malloc_ok env)); [discriminate|].
  destruct (negb (can_create env cue_path)); [discriminate|].
  destruct (cue_lines _ _); [|discriminate].
  intros [= <-]. cbn. apply lookup_insert_eq.
Qed.

Lemma image_length_is_sector_count_witness :
  argc_of demo_wavs <= INT_MAX
  /\ run_tracks demo_env demo_wavs demo_world = StepNext demo_final
  /\ total_sectors_before demo_final = 3
  /\ Z.of_nat (length (o_content (fbin demo_final))) = 7056
  /\ Z.of_nat (length (o_content (fbin demo_final))) = total_sectors_before demo_final * SECTOR
  /\ Z.of_nat (length (o_content (fbin demo_final))) mod SECTOR = 0
  /\ (forall prog w', main demo_env prog demo_wavs demo_world = Exit 0 w' ->
        files w' !! bin_path = Some (o_content (fbin demo_final))).
Proof.
  assert (run_tracks demo_env demo_wavs demo_world = StepNext demo_final) as R
      by (vm_compute; reflexivity).
  split; [vm_compute; discriminate|].
  split; [exact R|].
  split; [reflexivity|].
  split; [vm_compute; reflexivity|].
  apply (image_length_is_sector_count demo_env demo_wavs demo_world demo_final).
  - vm_compute; discriminate.
  - exact R.
Defined.

(** C2.  For every track [i] of a run whose track loop has completed, the
    bytes of the image from [start_sector * 2352] on, as many as the
    payload is long, are the payload bytes of the track's source: the bytes
    of the input that follow the header of a data chunk, as many as that
    header declares. *)
Theorem payload_round_trip env wavs w st i wav :
  argc_of wavs <= INT_MAX ->
  run_tracks env wavs w = StepNext st ->
  wavs !! i = Some wav ->
  exists src start,
    resolved (<[bin_path := []]> (files w)) wav src
    /\ index_times st !! i = Some start
    /\ extract (start * SECTOR) (s_size src) (o_content (fbin st)) = payload src
    /\ Z.of_nat (length (payload src)) = s_size src
    /\ payload src = extract (s_ofs src) (s_size src) (s_content src).
Proof.
  intros Hargc H Hi.
  destruct (run_tracks_next env wavs w st Hargc H) as (srcs & Hall & Hfb & _ & _ & Hidx).
  pose proof (resolved_all_ok _ _ _ Hall) as Hok.
  destruct (Forall2_lookup_l _ _ _ _ _ Hall Hi) as (src & Hsrc & Hres).
  exists src, (start_sector srcs i).
  pose proof Hres as [_ (Hs & Hp & _)].
  split; [exact Hres|]. split; [apply Hidx; eapply lookup_lt_Some, Hi|].
  split; [|split; [exact Hp | reflexivity]].
  assert (Z.to_nat (start_sector srcs i * SECTOR) = length (image_of (take i srcs))) as Hstart.
  { pose proof (length_image_of (take i srcs) (Forall_take _ _ _ Hok)) as L.
    unfold start_sector. rewrite sector_counts_take. unfold SECTOR. lia. }
  assert (image_of srcs
          = image_of (take i srcs) ++ track_bytes src ++ image_of (drop (S i) srcs)) as Himg.
  { rewrite <- (take_drop_middle _ _ _ Hsrc) at 1. now rewrite image_of_app. }
  unfold extract. rewrite Hfb, Himg, Hstart, drop_app_length.
  unfold track_bytes. rewrite <- app_assoc.
  apply take_app_length'. lia.
Qed.

Lemma payload_round_trip_witness :
  argc_of demo_wavs <= INT_MAX
  /\ run_tracks demo_env demo_wavs demo_world = StepNext demo_final
  /\ demo_wavs !! 1%nat = Some "b.wav"
  /\ exists src start,
       resolved (<[bin_path := []]> (files demo_world)) "b.wav" src
       /\ index_times demo_final !! 1%nat = Some start
       /\ extract (start * SECTOR) (s_size src) (o_content (fbin demo_final)) = payload src
       /\ Z.of_nat (length (payload src)) = s_size src
       /\ payload src = extract (s_ofs src) (s_size src) (s_content src).
Proof.
  assert (run_tracks demo_env demo_wavs demo_world = StepNext demo_final) as R
      by (vm_compute; reflexivity).
  split; [vm_compute; discriminate|].
  split; [exact R|].
  split; [reflexivity|].
  apply (payload_round_trip demo_env demo_wavs demo_world demo_final 1 "b.wav").
  - vm_compute; discriminate.
  - exact R.
  - reflexivity.
Defined.

(** ** parse_wav on a container of complete chunks *)

Section Container.

Lemma memcmp_eq_app a rest b n :
  length a = n -> memcmp_eq (a ++ rest) b n = memcmp_eq a b n.
Proof.
  revert a b. induction n as [|n IH]; intros a b Hl; [reflexivity|].
  destruct a as [|x a]; [discriminate|]. destruct b as [|y b]; [reflexivity|].
  cbn. rewrite IH by (cbn in Hl; lia). reflexivity.
Qed.

Lemma ub_drop k b i : ub (drop k b) i = ub b (k + i).
Proof. unfold ub. now rewrite !nth_lookup, lookup_drop. Qed.

Lemma rd_le_u16_take_drop k n b :
  (k + 2 <= n)%nat -> rd_le_u16 (drop k (take n b)) = rd_le_u16 (drop k b).
Proof.
  intros H. unfold rd_le_u16. now rewrite !ub_drop, !ub_take by lia.
Qed.

Lemma rd_le_u32_take_drop k n b :
  (k + 4 <= n)%nat -> rd_le_u32 (drop k (take n b)) = rd_le_u32 (drop k b).
Proof.
  intros H. unfold rd_le_u32. now rewrite !ub_drop, !ub_take by lia.
Qed.

Lemma land_1_odd z : (Z.land z 1 =? 0) = negb (Z.odd z).
Proof.
  change 1 with (Z.ones 1). rewrite Z.land_ones by lia. change (2 ^ 1) with 2.
  rewrite Zmod_odd. destruct (Z.odd z); reflexivity.
Qed.

Lemma length_encode_chunk c :
  chunk_complete c ->
  Z.of_nat (length (encode_chunk c)) = 8 + c_size c + (if Z.odd (c_size c) then 1 else 0).
Proof.
  intros (Ht & Hz & Hb & Hp). unfold encode_chunk.
  rewrite !length_app, Ht, Hz, Hp. destruct (Z.odd _); lia.
Qed.

(** Reading [n] bytes where [l ++ rest] lies at the cursor, with [l] of
    length [n], gives [l]. *)
Lemma fread_at content pos l rest n :
  0 <= pos -> drop (Z.to_nat pos) content = l ++ rest -> Z.of_nat (length l) = n ->
  fread n (mkFILE content pos) = (l, mkFILE content (pos + n)).
Proof.
  intros Hp Hd Hn. unfold fread. cbn [f_pos f_content].
  rewrite Hd, take_app_length' by lia. now rewrite Hn.
Qed.

Lemma drop_more {A} (content l rest : list A) n k :
  drop n content = l ++ rest -> length l = k -> drop (n + k) content = rest.
Proof.
  intros Hd Hk. rewrite <- drop_drop, Hd. now apply drop_app_length'.
Qed.

Lemma drop_room {A} (content l rest : list A) n :
  drop n content = l ++ rest -> l <> [] -> (n + length l <= length content)%nat.
Proof.
  intros Hd Hne. assert (length (drop n content) = length (l ++ rest)) as E by now rewrite Hd.
  rewrite length_drop, length_app in E. destruct l; [congruence|]. cbn in *. lia.
Qed.

Lemma fseek_cur_at content pos off :
  0 <= pos + off <= LONG_MAX ->
  fseek_cur off (mkFILE content pos) = Some (mkFILE content (pos + off)).
Proof.
  intros H. unfold fseek_cur, seekable. cbn [f_pos f_content].
  destruct (Z.leb_spec 0 (pos + off)); [|lia].
  destruct (Z.leb_spec (pos + off) LONG_MAX); [reflexivity | lia].
Qed.

Lemma skip_pad_byte_at content pos csize :
  0 <= pos -> pos + (if Z.odd csize then 1 else 0) <= LONG_MAX ->
  skip_pad_byte csize (mkFILE content pos)
  = Some (mkFILE content (pos + (if Z.odd csize then 1 else 0))).
Proof.
  intros H0 H1. unfold skip_pad_byte. rewrite land_1_odd, negb_involutive.
  destruct (Z.odd csize).
  - apply fseek_cur_at. lia.
  - now rewrite Z.add_0_r.
Qed.

(** A complete chunk at the cursor is consumed whole, with the effect
    [chunk_effect]. *)
Lemma chunk_body_complete content pos c rest st :
  chunk_complete c -> 0 <= pos ->
  drop (Z.to_nat pos) content = encode_chunk c ++ rest ->
  Z.of_nat (length content) <= LONG_MAX ->
  chunk_body (c_tag c ++ c_sz c) (mkFILE content (pos + 8)) st
  = Some (chunk_effect pos c st,
          mkFILE content (pos + Z.of_nat (length (encode_chunk c)))).
Proof.
  intros Hc Hpos Hd Hmax.
  pose proof (length_encode_chunk c Hc) as Hlen.
  set (odd := if Z.odd (c_size c) then 1 else 0) in *.
  assert (0 <= odd <= 1) as Hodd by (subst odd; destruct (Z.odd _); lia).
  destruct Hc as (Ht & Hz & Hb & Hp).
  pose proof (rd_le_u32_range (c_sz c)) as Hr. fold (c_size c) in Hr.
  assert (pos + Z.of_nat (length (encode_chunk c)) <= LONG_MAX) as Hend.
  { pose proof (drop_room _ _ _ _ Hd) as R.
    assert (encode_chunk c <> []) as Hne.
    { intros E. rewrite E in Hlen. cbn in Hlen. lia. }
    specialize (R Hne). lia. }
  assert (drop (Z.to_nat (pos + 8)) content = c_body c ++ c_pad c ++ rest) as Hbody.
  { rewrite Z2Nat.inj_add by lia. change (Z.to_nat 8) with (4 + 4)%nat.
    rewrite Nat.add_assoc. unfold encode_chunk in Hd. rewrite <- !app_assoc in Hd.
    eapply drop_more; [|exact Hz]. eapply drop_more; [exact Hd | exact Ht]. }
  unfold chunk_body, chunk_effect, is_tag.
  rewrite (drop_app_length' (c_tag c) (c_sz c) 4) by (symmetry; exact Ht).
  fold (c_size c). rewrite !memcmp_eq_app by exact Ht.
  rewrite !to_long_small by (unfold LONG_MAX; destruct (c_size c <? 40); lia).
  destruct (memcmp_eq (c_tag c) (bytes_of "fmt ") 4).
  - set (need := if c_size c <? 40 then c_size c else 40).
    assert (0 <= need <= c_size c) as Hneed
        by (subst need; destruct (Z.ltb_spec (c_size c) 40); lia).
    rewrite (fread_at content (pos + 8) (take (Z.to_nat need) (c_body c))
                      (drop (Z.to_nat need) (c_body c) ++ c_pad c ++ rest) need).
    2: lia.
    2: { rewrite Hbody. rewrite <- (take_drop (Z.to_nat need) (c_body c)) at 1.
         now rewrite <- app_assoc. }
    2: { rewrite length_take. lia. }
    rewrite length_take, Nat2Z.inj_min, Z2Nat.id, Hb, Z.min_l, Z.eqb_refl by lia.
    cbn [negb].
    assert ((if need <? c_size c
             then fseek_cur (c_size c - need) (mkFILE content (pos + 8 + need))
             else Some (mkFILE content (pos + 8 + need)))
            = Some (mkFILE content (pos + 8 + c_size c))) as ->.
    { destruct (Z.ltb_spec need (c_size c)).
      - rewrite fseek_cur_at by lia. do 2 f_equal. lia.
      - do 2 f_equal. lia. }
    rewrite skip_pad_byte_at by (fold odd; lia).
    rewrite Hlen. do 2 f_equal; [|f_equal; lia].
    destruct (Z.geb_spec (c_size c) 16) as [Hbig|]; [|reflexivity].
    assert (16 <= Z.to_nat need)%nat as Hn16
        by (subst need; destruct (Z.ltb_spec (c_size c) 40); lia).
    rewrite !rd_le_u16_take_drop, rd_le_u32_take_drop by lia. reflexivity.
  - destruct (memcmp_eq (c_tag c) (bytes_of "data") 4).
    + unfold ftell. cbn [f_pos].
      destruct (Z.ltb_spec (pos + 8) 0); [lia|].
      rewrite fseek_cur_at by lia.
      rewrite skip_pad_byte_at by (fold odd; lia).
      rewrite to_ulong_small by (unfold LONG_MAX in *; lia).
      rewrite Hlen. cbn [got_fmt got_data audioFormat numChannels bitsPerSample
                         sampleRate data_ofs data_size].
      do 3 f_equal. lia.
    + rewrite fseek_cur_at by lia.
      rewrite skip_pad_byte_at by (fold odd; lia).
      rewrite Hlen. do 3 f_equal. lia.
Qed.

(** On complete chunks followed by a tail too short for a chunk header, the
    chunk loop stops in the state [scan_spec]. *)
Lemma scan_chunks_container tl cs : forall content pos st budget,
  Forall chunk_complete cs -> 0 <= pos ->
  drop (Z.to_nat pos) content = concat (map encode_chunk cs) ++ tl ->
  (length tl < 8)%nat ->
  Z.of_nat (length content) <= LONG_MAX ->
  (length cs < budget)%nat ->
  exists f',
    scan_chunks budget (mkFILE content pos) st = ScanDone (scan_spec pos cs st) f'
    /\ f_content f' = content.
Proof.
  induction cs as [|c cs IH]; intros content pos st budget Hall Hpos Hd Htl Hmax Hb;
    (destruct budget as [|budget]; [cbn in Hb; lia|]); cbn [scan_chunks scan_spec].
  - cbn [map concat app] in Hd.
    unfold fread. cbn [f_pos f_content]. rewrite Hd.
    rewrite take_ge by lia.
    destruct (Z.eqb_spec (Z.of_nat (length tl)) 8); [lia|]. cbn [negb].
    eexists. split; reflexivity.
  - inversion Hall as [|? ? Hc Hcs]; subst.
    cbn [map concat] in Hd. rewrite <- app_assoc in Hd.
    pose proof Hc as (Ht & Hz & _).
    rewrite (fread_at content pos (c_tag c ++ c_sz c)
                      (c_body c ++ c_pad c ++ concat (map encode_chunk cs) ++ tl) 8).
    2: exact Hpos.
    2: { rewrite Hd. unfold encode_chunk. now rewrite <- !app_assoc. }
    2: { rewrite length_app, Ht, Hz. reflexivity. }
    rewrite length_app, Ht, Hz. cbn [negb Z.eqb Z.of_nat Nat.add Pos.of_succ_nat Pos.succ Pos.eqb].
    rewrite (chunk_body_complete content pos c _ st Hc Hpos Hd Hmax).
    destruct (got_fmt _ && got_data _).
    + eexists. split; reflexivity.
    + apply IH; try assumption; try lia.
      * rewrite Z2Nat.inj_add, Nat2Z.id by lia.
        eapply drop_more; [exact Hd | reflexivity].
      * cbn in Hb. lia.
Qed.

Lemma length_concat_encode cs :
  Forall chunk_complete cs -> (length cs <= length (concat (map encode_chunk cs)))%nat.
Proof.
  induction 1 as [|c cs Hc _ IH]; [cbn; lia|].
  cbn [map concat length]. rewrite length_app.
  pose proof (length_encode_chunk c Hc) as L.
  pose proof (rd_le_u32_range (c_sz c)) as R. fold (c_size c) in R.
  destruct (Z.odd (c_size c)); lia.
Qed.

(** [parse_wav] on a container of complete chunks, in closed form. *)
Lemma parse_wav_container riff_size cs tl name :
  length riff_size = 4%nat -> Forall chunk_complete cs -> (length tl < 8)%nat ->
  Z.of_nat (length (container riff_size cs tl)) <= LONG_MAX ->
  let st := scan_spec 12 cs wav_init in
  exists f',
    parse_wav (mkFILE (container riff_size cs tl) 0) name
    = (if negb (got_fmt st) || negb (got_data st) then ParseFail [msg_missing_chunk name]
       else if negb (format_ok st) then ParseFail [msg_bad_format name]
       else ParseOk f' (data_ofs st) (data_size st))
    /\ f_content f' = container riff_size cs tl.
Proof.
  intros Hr Hall Htl Hmax st.
  destruct riff_size as [|r0 [|r1 [|r2 [|r3 [|]]]]]; try discriminate.
  set (content := container [r0; r1; r2; r3] cs tl) in *.
  assert (drop 12 content = concat (map encode_chunk cs) ++ tl) as Hd by reflexivity.
  unfold parse_wav.
  rewrite (fread_at content 0 (take 12 content) (drop 12 content) 12);
    [|lia | now rewrite take_drop | reflexivity].
  change (Z.of_nat (length (take 12 content))) with 12.
  change (memcmp_eq (drop 0 (take 12 content)) (bytes_of "RIFF") 4) with true.
  change (memcmp_eq (drop 8 (take 12 content)) (bytes_of "WAVE") 4) with true.
  cbn [negb orb Z.eqb Pos.eqb f_content]. change (0 + 12) with 12.
  destruct (scan_chunks_container tl cs content 12 wav_init (S (length content)))
    as (f' & -> & Hf'); try assumption; try lia.
  - pose proof (length_concat_encode cs Hall) as L.
    assert (length (drop 12 content) <= length content)%nat by (rewrite length_drop; lia).
    rewrite Hd, length_app in H. lia.
  - fold st. exists f'. split; [|exact Hf'].
    destruct (negb (got_fmt st) || negb (got_data st)); [reflexivity|].
    destruct (negb (format_ok st)); reflexivity.
Qed.

End Container.

(** ** Validation of the format descriptor *)

(** C6.  Once the chunk loop has ended with both a format and a data chunk
    seen, [parse_wav] returns 0 if and only if the recorded descriptor is
    format tag 1, 2 channels, 44100 Hz and 16 bits per sample; on any
    mismatch it returns -1 after printing one diagnostic, which starts with
    the name of the input. *)
Theorem format_profile_validation f name hdr12 f1 st f2 :
  fread 12 f = (hdr12, f1) ->
  Z.of_nat (length hdr12) = 12 ->
  memcmp_eq hdr12 (bytes_of "RIFF") 4 = true ->
  memcmp_eq (drop 8 hdr12) (bytes_of "WAVE") 4 = true ->
  scan_chunks (S (length (f_content f1))) f1 wav_init = ScanDone st f2 ->
  got_fmt st = true -> got_data st = true ->
  let profile := audioFormat st = 1 /\ numChannels st = 2
                 /\ sampleRate st = 44100 /\ bitsPerSample st = 16 in
  (parse_wav f name = ParseOk f2 (data_ofs st) (data_size st) <-> profile)
  /\ ((exists f' ofs size, parse_wav f name = ParseOk f' ofs size) <-> profile)
  /\ (~ profile -> parse_wav f name = ParseFail [msg_bad_format name])
  /\ msg_bad_format name = name +:+ " must be 44.1kHz, 16-bit, stereo PCM" +:+ nl.
Proof.
  intros R L Riff Wave S Gf Gd profile.
  assert (parse_wav f name
          = if negb (format_ok st) then ParseFail [msg_bad_format name]
            else ParseOk f2 (data_ofs st) (data_size st)) as E.
  { unfold parse_wav. rewrite R, L. change (drop 0 hdr12) with hdr12.
    rewrite Riff, Wave, S, Gf, Gd. reflexivity. }
  assert (format_ok st = true <-> profile) as P.
  { unfold format_ok, profile. rewrite !andb_true_iff, !Z.eqb_eq. tauto. }
  rewrite E. destruct (format_ok st); cbn [negb].
  - assert profile as Hp by now apply P.
    split; [tauto|]. split; [split; eauto|]. split; [tauto | reflexivity].
  - assert (~ profile) as Hn by (intros Hp; apply P in Hp; discriminate).
    split; [split; [discriminate | tauto]|].
    split; [split; [intros (? & ? & ? & [=]) | tauto]|].
    split; reflexivity.
Qed.

Lemma format_profile_validation_witness :
  exists hdr12 f1 st f2,
    fread 12 (mkFILE dat_file 0) = (hdr12, f1)
    /\ scan_chunks (S (length (f_content f1))) f1 wav_init = ScanDone st f2
    /\ sampleRate st = 48000
    /\ parse_wav (mkFILE dat_file 0) "dat.wav" = ParseFail [msg_bad_format "dat.wav"]
    /\ let profile := audioFormat st = 1 /\ numChannels st = 2
                      /\ sampleRate st = 44100 /\ bitsPerSample st = 16 in
       (parse_wav (mkFILE dat_file 0) "dat.wav" = ParseOk f2 (data_ofs st) (data_size st)
        <-> profile)
       /\ ((exists f' ofs size, parse_wav (mkFILE dat_file 0) "dat.wav" = ParseOk f' ofs size)
           <-> profile)
       /\ (~ profile -> parse_wav (mkFILE dat_file 0) "dat.wav"
                        = ParseFail [msg_bad_format "dat.wav"])
       /\ msg_bad_format "dat.wav"
          = "dat.wav" +:+ " must be 44.1kHz, 16-bit, stereo PCM" +:+ nl.
Proof.
  do 4 eexists.
  split; [vm_compute; reflexivity|].
  split; [vm_compute; reflexivity|].
  split; [reflexivity|].
  split; [vm_compute; reflexivity|].
  eapply (format_profile_validation (mkFILE dat_file 0) "dat.wav").
  - vm_compute; reflexivity.
  - vm_compute; reflexivity.
  - vm_compute; reflexivity.
  - vm_compute; reflexivity.
  - vm_compute; reflexivity.
  - vm_compute; reflexivity.
  - vm_compute; reflexivity.
Defined.

(** ** Missing chunks *)

(** When the chunk loop is left without both chunks seen, the read cursor
    stands at or behind the end of the stream: the loop was left because a
    chunk header could not be read whole. *)
Lemma scan_chunks_end_of_stream budget : forall f st st' f',
  scan_chunks budget f st = ScanDone st' f' ->
  got_fmt st' && got_data st' = false ->
  file_inv f ->
  Z.of_nat (length (f_content f')) <= f_pos f'.
Proof.
  induction budget as [|budget IH]; intros f st st' f'; [discriminate|].
  cbn [scan_chunks]. intros H Hnb I.
  destruct (fread 8 f) as [chdr f1] eqn:R.
  destruct (fread_inv _ _ _ _ R I) as (I1 & C1 & P1).
  destruct (Z.eqb_spec (Z.of_nat (length chdr)) 8) as [L|L]; cbn [negb] in H.
  - destruct (chunk_body chdr f1 st) as [[st1 f2]|] eqn:B; [|discriminate].
    destruct (chunk_body_file _ _ _ _ _ B I1) as (I2 & C2 & P2).
    destruct (got_fmt st1 && got_data st1) eqn:Both.
    + injection H as <- <-. congruence.
    + eapply IH; eauto.
  - injection H as <- <-.
    apply fread_spec in R as (-> & -> & ->).
    rewrite length_take, length_drop in L |- *.
    destruct I as [[I _] _]. change (Z.to_nat 8) with 8%nat in *. lia.
Qed.

(** C7, as the program has it.  When the end of the stream is reached at a
    chunk header before both a format chunk (of at least 16 bytes) and a
    data chunk have been seen, [parse_wav] returns -1 after printing the one
    diagnostic "<name>: missing fmt or data chunk"; the diagnostic is the
    same whichever chunk is absent. *)
Theorem missing_chunk_at_end_of_stream f name hdr12 f1 st f2 :
  file_inv f ->
  fread 12 f = (hdr12, f1) ->
  Z.of_nat (length hdr12) = 12 ->
  memcmp_eq hdr12 (bytes_of "RIFF") 4 = true ->
  memcmp_eq (drop 8 hdr12) (bytes_of "WAVE") 4 = true ->
  scan_chunks (S (length (f_content f1))) f1 wav_init = ScanDone st f2 ->
  got_fmt st && got_data st = false ->
  Z.of_nat (length (f_content f2)) <= f_pos f2
  /\ parse_wav f name = ParseFail [msg_missing_chunk name]
  /\ msg_missing_chunk name = name +:+ ": missing fmt or data chunk" +:+ nl.
Proof.
  intros I R L Riff Wave S Hnb.
  destruct (fread_inv _ _ _ _ R I) as (I1 & _ & _).
  split; [eapply scan_chunks_end_of_stream; eauto|].
  split; [|reflexivity].
  unfold parse_wav. rewrite R, L. change (drop 0 hdr12) with hdr12.
  rewrite Riff, Wave, S. cbn [negb orb Z.eqb Pos.eqb].
  destruct (got_fmt st); destruct (got_data st); try discriminate; reflexivity.
Qed.

Lemma missing_chunk_at_end_of_stream_witness :
  exists hdr12 f1 st f2,
    file_inv (mkFILE only_fmt_file 0)
    /\ fread 12 (mkFILE only_fmt_file 0) = (hdr12, f1)
    /\ scan_chunks (S (length (f_content f1))) f1 wav_init = ScanDone st f2
    /\ got_fmt st = true /\ got_data st = false
    /\ Z.of_nat (length (f_content f2)) <= f_pos f2
    /\ parse_wav (mkFILE only_fmt_file 0) "t.wav" = ParseFail [msg_missing_chunk "t.wav"]
    /\ msg_missing_chunk "t.wav" = "t.wav" +:+ ": missing fmt or data chunk" +:+ nl.
Proof.
  do 4 eexists.
  split; [vm_compute; repeat split; discriminate|].
  split; [vm_compute; reflexivity|].
  split; [vm_compute; reflexivity|].
  split; [reflexivity|]. split; [reflexivity|].
  eapply (missing_chunk_at_end_of_stream (mkFILE only_fmt_file 0) "t.wav").
  - vm_compute; repeat split; discriminate.
  - vm_compute; reflexivity.
  - vm_compute; reflexivity.
  - vm_compute; reflexivity.
  - vm_compute; reflexivity.
  - vm_compute; reflexivity.
  - vm_compute; reflexivity.
Defined.

(** C7 as stated fails: an input that lacks the data chunk and an input
    that lacks the format chunk draw the very same result from
    [parse_wav], so the error does not tell which chunk is absent.  And
    when the stream ends inside the body of a format chunk, before either
    chunk has been seen, [parse_wav] returns -1 without the missing-chunk
    diagnostic. *)
Lemma missing_chunk_same_diagnostic :
  match scan_chunks (S (length only_fmt_file))
                    (snd (fread 12 (mkFILE only_fmt_file 0))) wav_init with
  | ScanDone st _ => got_fmt st = true /\ got_data st = false
  | _ => False
  end
  /\ match scan_chunks (S (length only_data_file))
                       (snd (fread 12 (mkFILE only_data_file 0))) wav_init with
     | ScanDone st _ => got_fmt st = false /\ got_data st = true
     | _ => False
     end
  /\ parse_wav (mkFILE only_fmt_file 0) "t.wav" = ParseFail [msg_missing_chunk "t.wav"]
  /\ parse_wav (mkFILE only_data_file 0) "t.wav" = ParseFail [msg_missing_chunk "t.wav"]
  /\ ~ (exists fmt_absent : parse_result -> bool,
          fmt_absent (parse_wav (mkFILE only_fmt_file 0) "t.wav") = false
          /\ fmt_absent (parse_wav (mkFILE only_data_file 0) "t.wav") = true)
  /\ scan_chunks (S (length cut_fmt_file))
                 (snd (fread 12 (mkFILE cut_fmt_file 0))) wav_init = ScanError
  /\ parse_wav (mkFILE cut_fmt_file 0) "t.wav" = ParseFail []
  /\ parse_wav (mkFILE cut_fmt_file 0) "t.wav" <> ParseFail [msg_missing_chunk "t.wav"].
Proof.
  assert (parse_wav (mkFILE cut_fmt_file 0) "t.wav" = ParseFail [])
    as C by (vm_compute; reflexivity).
  assert (parse_wav (mkFILE only_fmt_file 0) "t.wav" = ParseFail [msg_missing_chunk "t.wav"])
    as A by (vm_compute; reflexivity).
  assert (parse_wav (mkFILE only_data_file 0) "t.wav" = ParseFail [msg_missing_chunk "t.wav"])
    as B by (vm_compute; reflexivity).
  split; [vm_compute; split; reflexivity|].
  split; [vm_compute; split; reflexivity|].
  split; [exact A|]. split; [exact B|].
  split; [intros (fmt_absent & Ha & Hb); rewrite A in Ha; rewrite B in Hb; congruence|].
  split; [vm_compute; reflexivity|]. split; [exact C|]. rewrite C. discriminate.
Qed.

(** ** Format chunks shorter than a descriptor *)

Section UndersizedFormat.

Lemma chunk_effect_undersized pos c st :
  (is_tag c "fmt " = true -> c_size c < 16) ->
  got_fmt (chunk_effect pos c st) = got_fmt st
  /\ (is_tag c "fmt " = true -> chunk_effect pos c st = st).
Proof.
  intros H. unfold chunk_effect. destruct (is_tag c "fmt ").
  - specialize (H eq_refl). destruct (Z.geb_spec (c_size c) 16); [lia|]. auto.
  - split; [|discriminate]. destruct (is_tag c "data"); reflexivity.
Qed.

Lemma scan_spec_undersized cs : forall pos st,
  Forall (fun c => is_tag c "fmt " = true -> c_size c < 16) cs ->
  got_fmt st = false -> got_fmt (scan_spec pos cs st) = false.
Proof.
  induction cs as [|c cs IH]; intros pos st Hall Hst; [exact Hst|].
  inversion Hall as [|? ? Hc Hcs]; subst. cbn [scan_spec].
  destruct (chunk_effect_undersized pos c st Hc) as [E _].
  rewrite E, Hst. cbn [andb]. apply IH; [exact Hcs | congruence].
Qed.

(** A chunk other than a format chunk that the end of the stream cuts short
    is skipped by a seek past the end; it does not touch [got_fmt]. *)
Lemma chunk_body_cut content pos tag sz partial st :
  length tag = 4%nat -> length sz = 4%nat ->
  memcmp_eq tag (bytes_of "fmt ") 4 = false ->
  Z.of_nat (length partial) < rd_le_u32 sz + (if Z.odd (rd_le_u32 sz) then 1 else 0) ->
  0 <= pos ->
  drop (Z.to_nat pos) content = tag ++ sz ++ partial ->
  Z.of_nat (length content) + 2 ^ 32 <= LONG_MAX ->
  exists st1 p1,
    chunk_body (tag ++ sz) (mkFILE content (pos + 8)) st = Some (st1, mkFILE content p1)
    /\ got_fmt st1 = got_fmt st
    /\ Z.of_nat (length content) < p1.
Proof.
  intros Ht Hz Hnf Hcut Hpos Hd Hmax.
  pose proof (rd_le_u32_range sz) as Hr.
  set (odd := if Z.odd (rd_le_u32 sz) then 1 else 0) in *.
  assert (0 <= odd <= 1) as Hodd by (subst odd; destruct (Z.odd _); lia).
  assert (Z.of_nat (length content) = pos + 8 + Z.of_nat (length partial)) as Hlen.
  { assert (length (drop (Z.to_nat pos) content) = length (tag ++ sz ++ partial)) as E
        by now rewrite Hd.
    rewrite length_drop, !length_app, Ht, Hz in E. lia. }
  unfold chunk_body.
  rewrite (drop_app_length' tag sz 4) by (symmetry; exact Ht).
  rewrite !memcmp_eq_app by exact Ht. rewrite Hnf.
  rewrite !to_long_small by (unfold LONG_MAX; lia).
  destruct (memcmp_eq tag (bytes_of "data") 4).
  - unfold ftell. cbn [f_pos]. destruct (Z.ltb_spec (pos + 8) 0); [lia|].
    rewrite fseek_cur_at by lia.
    rewrite skip_pad_byte_at by (fold odd; lia). fold odd.
    eexists _, _. split; [reflexivity|]. cbn [got_fmt]. split; [reflexivity | lia].
  - rewrite fseek_cur_at by lia.
    rewrite skip_pad_byte_at by (fold odd; lia). fold odd.
    eexists _, _. split; [reflexivity|]. split; [reflexivity | lia].
Qed.

(** Where no format chunk of 16 bytes or more is met, the chunk loop runs to
    the end of the stream and leaves [got_fmt] unset. *)
Lemma scan_chunks_no_fmt tl cs : forall content pos st budget,
  Forall chunk_complete cs ->
  Forall (fun c => is_tag c "fmt " = true -> c_size c < 16) cs ->
  stream_tail tl ->
  0 <= pos ->
  drop (Z.to_nat pos) content = concat (map encode_chunk cs) ++ tl ->
  Z.of_nat (length content) + 2 ^ 32 <= LONG_MAX ->
  (length cs + 1 < budget)%nat ->
  got_fmt st = false ->
  exists st' f',
    scan_chunks budget (mkFILE content pos) st = ScanDone st' f' /\ got_fmt st' = false.
Proof.
  induction cs as [|c cs IH]; intros content pos st budget Hall Hsmall Htl Hpos Hd Hmax Hb Hst.
  - destruct budget as [|[|budget]]; [cbn in Hb; lia | cbn in Hb; lia|].
    cbn [map concat app] in Hd. destruct Htl as [tl Hshort|tag sz partial Ht Hz Hnf Hcut].
    + cbn [scan_chunks]. unfold fread. cbn [f_pos f_content]. rewrite Hd.
      rewrite take_ge by lia.
      destruct (Z.eqb_spec (Z.of_nat (length tl)) 8); [lia|]. cbn [negb]. eauto.
    + cbn [scan_chunks].
      rewrite (fread_at content pos (tag ++ sz) partial 8);
        [|exact Hpos | now rewrite Hd, <- app_assoc | rewrite length_app, Ht, Hz; reflexivity].
      rewrite length_app, Ht, Hz.
      cbn [negb Z.eqb Z.of_nat Nat.add Pos.of_succ_nat Pos.succ Pos.eqb].
      destruct (chunk_body_cut content pos tag sz partial st Ht Hz Hnf Hcut Hpos Hd Hmax)
        as (st1 & p1 & -> & G & Hp1).
      rewrite G, Hst. cbn [andb].
      unfold fread. cbn [f_pos f_content].
      rewrite drop_ge by lia. cbn [take length Z.of_nat Z.eqb negb].
      exists st1. eexists. split; [reflexivity | congruence].
  - destruct budget as [|budget]; [cbn in Hb; lia|]. cbn [scan_chunks].
    inversion Hall as [|? ? Hc Hcs]; subst. inversion Hsmall as [|? ? Hu Hus]; subst.
    cbn [map concat] in Hd. rewrite <- app_assoc in Hd.
    pose proof Hc as (Ht & Hz & _).
    rewrite (fread_at content pos (c_tag c ++ c_sz c)
                      (c_body c ++ c_pad c ++ concat (map encode_chunk cs) ++ tl) 8).
    2: exact Hpos.
    2: { rewrite Hd. unfold encode_chunk. now rewrite <- !app_assoc. }
    2: { rewrite length_app, Ht, Hz. reflexivity. }
    rewrite length_app, Ht, Hz.
    cbn [negb Z.eqb Z.of_nat Nat.add Pos.of_succ_nat Pos.succ Pos.eqb].
    rewrite (chunk_body_complete content pos c _ st Hc Hpos Hd) by (unfold LONG_MAX in *; lia).
    destruct (chunk_effect_undersized pos c st Hu) as [G _].
    rewrite G, Hst. cbn [andb].
    apply IH; try assumption; try lia.
    + rewrite Z2Nat.inj_add, Nat2Z.id by lia.
      eapply drop_more; [exact Hd | reflexivity].
    + cbn in Hb. lia.
    + congruence.
Qed.

Lemma length_stream cs tl :
  Forall chunk_complete cs ->
  (length cs <= length (concat (map encode_chunk cs) ++ tl))%nat.
Proof.
  intros H. pose proof (length_concat_encode cs H). rewrite length_app. lia.
Qed.

End UndersizedFormat.

(** C10, as the program has it.  Take a stream of complete chunks that ends
    at a chunk boundary, with fewer than 8 bytes left over, or inside a
    chunk other than a format chunk, and in which every format chunk
    declares fewer than 16 bytes.  Each format chunk is then read whole and
    skipped, alignment byte included, without any change to the state of
    the parser, and [parse_wav] returns -1 with the missing-chunk
    diagnostic. *)
Theorem undersized_fmt_is_missing_chunk riff_size cs tl name :
  length riff_size = 4%nat ->
  Forall chunk_complete cs ->
  stream_tail tl ->
  Z.of_nat (length (container riff_size cs tl)) + 2 ^ 32 <= LONG_MAX ->
  Forall (fun c => is_tag c "fmt " = true -> c_size c < 16) cs ->
  (forall c content pos rest st,
      c ∈ cs -> is_tag c "fmt " = true -> 0 <= pos ->
      drop (Z.to_nat pos) content = encode_chunk c ++ rest ->
      Z.of_nat (length content) <= LONG_MAX ->
      chunk_body (c_tag c ++ c_sz c) (mkFILE content (pos + 8)) st
      = Some (st, mkFILE content
                         (pos + 8 + c_size c + (if Z.odd (c_size c) then 1 else 0))))
  /\ parse_wav (mkFILE (container riff_size cs tl) 0) name
     = ParseFail [msg_missing_chunk name].
Proof.
  intros Hr Hall Htl Hmax Hsmall. split.
  - intros c content pos rest st Hin Htag Hpos Hd Hlen.
    rewrite Forall_forall in Hall, Hsmall.
    rewrite (chunk_body_complete content pos c rest st (Hall c Hin) Hpos Hd Hlen).
    destruct (chunk_effect_undersized pos c st (Hsmall c Hin)) as [_ E].
    rewrite (E Htag), (length_encode_chunk c (Hall c Hin)).
    do 3 f_equal. lia.
  - destruct riff_size as [|r0 [|r1 [|r2 [|r3 [|]]]]]; try discriminate.
    set (content := container [r0; r1; r2; r3] cs tl) in *.
    assert (drop 12 content = concat (map encode_chunk cs) ++ tl) as Hd by reflexivity.
    unfold parse_wav.
    rewrite (fread_at content 0 (take 12 content) (drop 12 content) 12);
      [|lia | now rewrite take_drop | reflexivity].
    change (Z.of_nat (length (take 12 content))) with 12.
    change (memcmp_eq (drop 0 (take 12 content)) (bytes_of "RIFF") 4) with true.
    change (memcmp_eq (drop 8 (take 12 content)) (bytes_of "WAVE") 4) with true.
    cbn [negb orb Z.eqb Pos.eqb f_content]. change (0 + 12) with 12.
    destruct (scan_chunks_no_fmt tl cs content 12 wav_init (S (length content)))
      as (st' & f' & -> & G); try assumption; try lia; try reflexivity.
    + pose proof (length_stream cs tl Hall) as L. rewrite <- Hd, length_drop in L.
      assert (12 <= length content)%nat by (unfold content, container; cbn; lia).
      lia.
    + rewrite G. reflexivity.
Qed.

Lemma undersized_fmt_is_missing_chunk_witness :
  length (le32 0) = 4%nat
  /\ Forall chunk_complete [short_fmt]
  /\ stream_tail (bytes_of "data" ++ le32 100 ++ ramp 0 50)
  /\ Z.of_nat (length (container (le32 0) [short_fmt]
                                 (bytes_of "data" ++ le32 100 ++ ramp 0 50))) + 2 ^ 32
     <= LONG_MAX
  /\ Forall (fun c => is_tag c "fmt " = true -> c_size c < 16) [short_fmt]
  /\ (forall c content pos rest st,
         c ∈ [short_fmt] -> is_tag c "fmt " = true -> 0 <= pos ->
         drop (Z.to_nat pos) content = encode_chunk c ++ rest ->
         Z.of_nat (length content) <= LONG_MAX ->
         chunk_body (c_tag c ++ c_sz c) (mkFILE content (pos + 8)) st
         = Some (st, mkFILE content
                            (pos + 8 + c_size c + (if Z.odd (c_size c) then 1 else 0))))
  /\ parse_wav (mkFILE (container (le32 0) [short_fmt]
                                  (bytes_of "data" ++ le32 100 ++ ramp 0 50)) 0) "s.wav"
     = ParseFail [msg_missing_chunk "s.wav"].
Proof.
  assert (Forall chunk_complete [short_fmt]) as Hc by (repeat constructor).
  assert (Forall (fun c => is_tag c "fmt " = true -> c_size c < 16) [short_fmt]) as Hs
      by (repeat constructor; vm_compute; congruence).
  assert (stream_tail (bytes_of "data" ++ le32 100 ++ ramp 0 50)) as Ht
      by (apply tail_cut; vm_compute; reflexivity).
  split; [reflexivity|]. split; [exact Hc|]. split; [exact Ht|].
  split; [vm_compute; discriminate|]. split; [exact Hs|].
  apply (undersized_fmt_is_missing_chunk (le32 0) [short_fmt]
           (bytes_of "data" ++ le32 100 ++ ramp 0 50) "s.wav").
  - reflexivity.
  - exact Hc.
  - exact Ht.
  - vm_compute; discriminate.
  - exact Hs.
Defined.

(** C10 as stated fails when the stream ends inside the undersized format
    chunk: the only chunk of [truncated_fmt_file] is a format chunk that
    declares 8 bytes, of which 3 are present.  The read of the chunk body is
    short, [parse_wav] returns -1 from inside the loop without printing
    anything, and the missing-chunk diagnostic is not produced. *)
Lemma undersized_fmt_truncated_counterexample :
  fst (fread 8 (snd (fread 12 (mkFILE truncated_fmt_file 0)))) = bytes_of "fmt " ++ le32 8
  /\ rd_le_u32 (le32 8) = 8
  /\ Z.of_nat (length truncated_fmt_file) = 12 + 8 + 3
  /\ chunk_body (bytes_of "fmt " ++ le32 8) (mkFILE truncated_fmt_file 20) wav_init = None
  /\ parse_wav (mkFILE truncated_fmt_file 0) "a.wav" = ParseFail []
  /\ parse_wav (mkFILE truncated_fmt_file 0) "a.wav" <> ParseFail [msg_missing_chunk "a.wav"].
Proof.
  assert (parse_wav (mkFILE truncated_fmt_file 0) "a.wav" = ParseFail []) as E
      by (vm_compute; reflexivity).
  split; [vm_compute; reflexivity|]. split; [vm_compute; reflexivity|].
  split; [vm_compute; reflexivity|]. split; [vm_compute; reflexivity|].
  split; [exact E|]. rewrite E. discriminate.
Qed.

(** ** The cue sheet *)

Section CueSheet.

Lemma cue_loop_lookup its : forall n i0 k lines,
  cue_loop n i0 its = Some lines ->
  0 < i0 -> (k < n)%nat -> i0 + Z.of_nat n <= INT_MAX ->
  lines !! (2 * k)%nat = Some (cue_track_line (i0 + Z.of_nat k)).
Proof.
  induction n as [|n IH]; intros i0 k lines H Hi Hk Hmax; [lia|].
  cbn [cue_loop] in H.
  destruct (cue_index_line _) as [index_line|]; [|discriminate].
  rewrite to_int_small in H by (unfold INT_MAX in *; lia).
  destruct (cue_loop n (i0 + 1) its) as [rest|] eqn:R; [|discriminate].
  destruct (Z.eqb_spec i0 0) as [|_]; [lia|]. injection H as <-.
  destruct k as [|k].
  - cbn. now rewrite Z.add_0_r.
  - replace (2 * S k)%nat with (S (S (2 * k))) by lia. cbn [app lookup list_lookup].
    rewrite (IH _ _ _ R) by lia. do 2 f_equal. lia.
Qed.

Lemma cue_lines_lookup its ntracks i lines :
  cue_lines ntracks its = Some lines ->
  (i < ntracks)%nat -> Z.of_nat ntracks < INT_MAX ->
  lines !! cue_line_index i = Some (cue_track_line (Z.of_nat i)).
Proof.
  intros H Hi Hmax. destruct ntracks as [|n]; [lia|].
  unfold cue_lines in H. cbn [cue_loop] in H.
  destruct (cue_index_line _) as [index_line|]; [|discriminate].
  rewrite to_int_small in H by (unfold INT_MAX; lia).
  destruct (cue_loop n (0 + 1) its) as [rest|] eqn:R; [|discriminate].
  change (0 =? 0) with true in H. cbv iota in H. injection H as <-.
  destruct i as [|i]; [reflexivity|].
  replace (cue_line_index (S i)) with (S (S (S (S (2 * i))))) by (cbn; lia).
  cbn [app lookup list_lookup].
  rewrite (cue_loop_lookup _ _ _ _ _ R) by lia. do 2 f_equal. lia.
Qed.

(** Ordinals up to 99 take exactly two characters. *)
Lemma length_fmt_02d_small n : 0 <= n <= 99 -> String.length (fmt_02d n) = 2%nat.
Proof.
  intros H.
  assert (forallb (fun k => Nat.eqb (String.length (fmt_02d (Z.of_nat k))) 2) (seq 0 100) = true)
    as A by (vm_compute; reflexivity).
  rewrite forallb_forall in A.
  specialize (A (Z.to_nat n)). rewrite Z2Nat.id in A by lia.
  apply Nat.eqb_eq, A, in_seq. lia.
Qed.

Lemma fmt_02d_nonneg n : 0 <= n -> fmt_02d n = fmt_02lu n.
Proof. intros H. unfold fmt_02d. destruct (Z.ltb_spec n 0); [lia | reflexivity]. Qed.

End CueSheet.

(** C8, as the program has it.  For every track of an emitted cue sheet,
    the declaration line is ["  TRACK <ordinal> AUDIO"], where the ordinal
    is the 1-based track number in decimal, padded with a zero on the left
    to at least two digits; it has exactly two digits for the tracks 1 to
    99. *)
Theorem track_line_ordinal ntracks its lines i :
  cue_lines ntracks its = Some lines ->
  (i < ntracks)%nat -> Z.of_nat ntracks < INT_MAX ->
  let ord := fmt_02d (Z.of_nat i + 1) in
  lines !! cue_line_index i = Some ("  TRACK " +:+ ord +:+ " AUDIO" +:+ nl)
  /\ all_digits ord = true
  /\ parse_dec ord = Some (Z.of_nat i + 1)
  /\ (2 <= String.length ord)%nat
  /\ (Z.of_nat i + 1 <= 99 -> String.length ord = 2%nat).
Proof.
  intros H Hi Hmax ord.
  split.
  - rewrite (cue_lines_lookup its ntracks i lines H Hi Hmax). unfold cue_track_line.
    rewrite to_int_small by (unfold INT_MAX in *; lia). reflexivity.
  - subst ord. rewrite fmt_02d_nonneg by lia.
    split; [apply all_digits_fmt_02lu|].
    split; [apply parse_dec_fmt_02lu; lia|].
    split; [apply length_zero_pad|].
    intros Hle. rewrite <- fmt_02d_nonneg by lia. apply length_fmt_02d_small. lia.
Qed.

Lemma track_line_ordinal_witness :
  exists lines,
    cue_lines 12 (replicate 12 0) = Some lines
    /\ (6 < 12)%nat /\ Z.of_nat 12 < INT_MAX
    /\ lines !! cue_line_index 6 = Some ("  TRACK 07 AUDIO" +:+ nl)
    /\ let ord := fmt_02d (Z.of_nat 6 + 1) in
       lines !! cue_line_index 6 = Some ("  TRACK " +:+ ord +:+ " AUDIO" +:+ nl)
       /\ all_digits ord = true
       /\ parse_dec ord = Some (Z.of_nat 6 + 1)
       /\ (2 <= String.length ord)%nat
       /\ (Z.of_nat 6 + 1 <= 99 -> String.length ord = 2%nat).
Proof.
  eexists.
  split; [vm_compute; reflexivity|].
  split; [lia|]. split; [vm_compute; reflexivity|]. split; [vm_compute; reflexivity|].
  apply (track_line_ordinal 12 (replicate 12 0) _ 6).
  - vm_compute; reflexivity.
  - lia.
  - vm_compute; reflexivity.
Defined.

(** C8 as stated fails from the hundredth track on: a run over a hundred
    inputs exits with status 0 and writes a cue sheet whose line for track
    100 carries a three-digit ordinal. *)
Lemma track_100_has_three_digits :
  match main demo_env "mkcdda" hundred_wavs silent_world,
        cue_lines 100 (replicate 100 0) with
  | Exit status w', Some lines =>
      status = 0
      /\ files w' !! cue_path = Some (bytes_of (concat_lines lines))
      /\ lines !! cue_line_index 99 = Some ("  TRACK 100 AUDIO" +:+ nl)
  | _, _ => False
  end
  /\ fmt_02d (to_int (99 + 1)) = "100"
  /\ String.length (fmt_02d (to_int (99 + 1))) = 3%nat.
Proof.
  split; [vm_compute; repeat split; reflexivity|].
  split; reflexivity.
Qed.

(** ** Invocation without inputs *)

(** C9.  Invoked without input paths, [main] returns status 1 after writing
    the two usage lines to stderr; it writes nothing to stdout and leaves
    the file system as it found it, so that neither [disc.bin] nor
    [disc.cue] is created. *)
Theorem no_inputs_is_usage_error env prog w :
  exists w',
    main env prog [] w = Exit 1 w'
    /\ stderr w'
       = stderr w ++ ["No track*.wav files found (pass them as arguments)." +:+ nl;
                      "Usage: " +:+ prog +:+ " track1.wav [track2.wav ...]" +:+ nl]
    /\ stdout w' = stdout w
    /\ files w' = files w
    /\ (files w !! bin_path = None -> files w' !! bin_path = None)
    /\ (files w !! cue_path = None -> files w' !! cue_path = None).
Proof.
  eexists. split; [reflexivity|]. cbn. repeat split; auto.
Qed.

(** ** The program always returns *)

Section Totality.

Variable env : Env.

Lemma process_track_budget i wav st : process_track env i wav st <> StepBudget.
Proof.
  unfold process_track.
  destruct (fopen_rb _ wav) as [fin|] eqn:O; [|discriminate].
  destruct (fopen_rb_inv _ _ _ O) as (I & _ & _).
  pose proof (parse_wav_total fin wav I) as T.
  destruct (parse_wav fin wav) as [fin1 ofs size| |] eqn:P; [|discriminate|contradiction].
  destruct (parse_wav_ok _ _ _ _ _ P I) as (_ & Hs & _ & _).
  destruct (fseek_set _ fin1) as [fin2|]; [|discriminate].
  pose proof (copy_loop_budget (trips size) fin2 (fbin st) size ltac:(lia)
                               ltac:(unfold trips; lia)) as C.
  destruct (copy_loop _ fin2 (fbin st) size) as [fin3 fb1|?|?|]; try discriminate;
    [|contradiction].
  pose proof (write_padding_budget fb1 (to_ulong (sector_pad size))
                                   (to_ulong_range _)) as W.
  destruct (write_padding fb1 _); [discriminate | discriminate | contradiction].
Qed.

Lemma track_loop_budget wavs : forall i st, track_loop env i wavs st <> StepBudget.
Proof.
  induction wavs as [|wav wavs IH]; intros i st; cbn [track_loop]; [discriminate|].
  pose proof (process_track_budget i wav st) as P.
  destruct (process_track env i wav st); [apply IH | discriminate | contradiction].
Qed.

(** No loop of the program runs out of its budget. *)
Lemma main_total prog wavs w : main env prog wavs w <> OutOfBudget.
Proof.
  unfold main. destruct (argc_of wavs <? 2); [discriminate|].
  destruct (negb (can_create env bin_path)); [discriminate|].
  destruct (negb (malloc_ok env)); [discriminate|].
  pose proof (track_loop_budget wavs 0 (main_init env (to_int (argc_of wavs - 1)) w)) as T.
  unfold run_tracks.
  destruct (track_loop env 0 wavs _); [|discriminate|contradiction].
  destruct (negb (can_create env cue_path)); [discriminate|].
  destruct (cue_lines _ _); discriminate.
Qed.

(** Below 100 minutes the timecode takes 8 characters and fits [ts]. *)
Lemma cue_index_line_fits sectors :
  0 <= sectors < 450000 ->
  cue_index_line sectors = Some ("    INDEX 01 " +:+ mmssff_from_sectors sectors +:+ nl).
Proof.
  intros H. unfold cue_index_line.
  assert (String.length (mmssff_from_sectors sectors) = 8%nat) as ->; [|reflexivity].
  unfold mmssff_from_sectors, mmssff_fields.
  change (to_ulong (75 * 60)) with 4500.
  assert (0 <= sectors / 4500 <= 99) as Hm.
  { split; [apply Z.div_pos; lia|]. apply Z.lt_succ_r, Z.div_lt_upper_bound; lia. }
  pose proof (Z.mod_pos_bound (sectors / 75) 60 ltac:(lia)) as Hs.
  pose proof (Z.mod_pos_bound sectors 75 ltac:(lia)) as Hf.
  rewrite !string_length_app, <- !fmt_02d_nonneg by lia.
  rewrite !length_fmt_02d_small by lia. reflexivity.
Qed.

Lemma cue_loop_defined its : forall n i0,
  0 <= i0 -> i0 + Z.of_nat n <= INT_MAX ->
  (forall k, 0 <= nth k its 0 < 450000) ->
  exists lines, cue_loop n i0 its = Some lines.
Proof.
  induction n as [|n IH]; intros i0 Hi Hmax Hits; [cbn; eauto|].
  cbn [cue_loop]. rewrite cue_index_line_fits by apply Hits.
  rewrite to_int_small by (unfold INT_MAX in *; lia).
  destruct (IH (i0 + 1)) as (rest & ->); [lia | lia | exact Hits | eauto].
Qed.

(** X20.  The timecode is formatted into [ts], which has room for 15
    characters.  A run whose image stays below 100 minutes (450000
    sectors) never writes past its end, whether it succeeds or fails: the
    outcome is an exit status. *)
Lemma main_defined prog wavs w :
  argc_of wavs <= INT_MAX ->
  (forall st, run_tracks env wavs w = StepNext st -> total_sectors_before st < 450000) ->
  exists status w', main env prog wavs w = Exit status w'.
Proof.
  intros Hargc Hsmall. unfold main.
  destruct (argc_of wavs <? 2); [eauto|].
  destruct (negb (can_create env bin_path)); [eauto|].
  destruct (negb (malloc_ok env)); [eauto|].
  pose proof (track_loop_budget wavs 0 (main_init env (to_int (argc_of wavs - 1)) w)) as T.
  fold (run_tracks env wavs w) in T.
  destruct (run_tracks env wavs w) as [st| |] eqn:R; [|eauto|contradiction].
  destruct (negb (can_create env cue_path)); [eauto|].
  destruct (run_tracks_next env wavs w st Hargc R) as (srcs & Hall & _ & Htot & Hlen & Hidx).
  pose proof (resolved_all_ok _ _ _ Hall) as Hok.
  pose proof (Forall2_length _ _ _ Hall) as Hlen2.
  assert (forall k, 0 <= nth k (index_times st) 0 < 450000) as Hits.
  { intros k. rewrite nth_lookup.
    destruct (index_times st !! k) as [x|] eqn:E; cbn; [|lia].
    assert (k < length wavs)%nat as Hk by (rewrite <- Hlen; eapply lookup_lt_Some, E).
    rewrite (Hidx k Hk) in E. injection E as <-.
    pose proof (start_sector_mono srcs 0 k Hok ltac:(lia)) as M0.
    pose proof (start_sector_mono srcs k (length srcs) Hok ltac:(lia)) as M1.
    rewrite start_sector_0 in M0.
    assert (start_sector srcs (length srcs) = sumZ (sector_counts srcs)) as E1.
    { unfold start_sector. rewrite take_ge; [reflexivity|].
      unfold sector_counts. rewrite length_map. lia. }
    specialize (Hsmall st eq_refl). lia. }
  unfold cue_lines.
  destruct (cue_loop_defined (index_times st) (Z.to_nat (to_int (argc_of wavs - 1))) 0)
    as (lines & ->); [lia | | exact Hits | eauto].
  rewrite ntracks_of_argc by exact Hargc. unfold argc_of in Hargc. lia.
Qed.

(** Exit status 0 is returned exactly when the track loop completes and the
    cue sheet is written; the run then leaves the image and the cue sheet
    of the recorded starting sectors. *)
Lemma main_exit_0 prog wavs w w' :
  main env prog wavs w = Exit 0 w' ->
  exists st lines,
    run_tracks env wavs w = StepNext st
    /\ wavs <> []
    /\ cue_lines (Z.to_nat (to_int (argc_of wavs - 1))) (index_times st) = Some lines
    /\ files w' = <[bin_path := o_content (fbin st)]>
                    (<[cue_path := bytes_of (concat_lines lines)]> (files (world st))).
Proof.
  unfold main. destruct (Z.ltb_spec (argc_of wavs) 2) as [|Hargc]; [discriminate|].
  destruct (negb (can_create env bin_path)); [discriminate|].
  destruct (negb (malloc_ok env)); [discriminate|].
  destruct (run_tracks env wavs w) as [st| |]; try discriminate.
  destruct (negb (can_create env cue_path)); [discriminate|].
  destruct (cue_lines _ _) as [lines|] eqn:C; [|discriminate].
  intros [= <-]. exists st, lines. split; [reflexivity|].
  split; [|split; [exact C | reflexivity]].
  intros ->. unfold argc_of in Hargc. cbn in Hargc. lia.
Qed.

End Totality.

Lemma main_defined_witness :
  exists status w', main demo_env "mkcdda" tiny_wavs tiny_world = Exit status w'.
Proof.
  apply (main_defined demo_env "mkcdda" tiny_wavs tiny_world).
  - vm_compute; discriminate.
  - intros st H. vm_compute in H. injection H as <-. vm_compute. reflexivity.
Defined.

(** X19.  No loop of the program runs forever.  A trip of the chunk loop
    of [parse_wav] that does not leave the loop has consumed the 8 bytes of
    a chunk header, and the two copy loops of [main] move up to 8192 bytes
    per trip, so none of them runs out of the trips granted to it (one per
    byte of the input for the chunk loop, [n / 8192 + 1] for a copy of [n]
    bytes).  A run of [main] therefore ends in one of two ways: it returns
    0 or 1, or, with every track appended and [disc.cue] open, a timecode
    of more than 15 characters is written past the end of [ts]. *)
Theorem every_loop_terminates env prog wavs w :
  (exists status w',
     main env prog wavs w = Exit status w' /\ (status = 0 \/ status = 1))
  \/ (main env prog wavs w = Undefined
      /\ can_create env cue_path = true
      /\ exists st,
           run_tracks env wavs w = StepNext st
           /\ cue_lines (Z.to_nat (to_int (argc_of wavs - 1))) (index_times st) = None).
Proof.
  unfold main. destruct (argc_of wavs <? 2); [left; eauto|].
  destruct (negb (can_create env bin_path)); [left; eauto|].
  destruct (negb (malloc_ok env)); [left; eauto|].
  pose proof (track_loop_budget env wavs 0 (main_init env (to_int (argc_of wavs - 1)) w)) as T.
  fold (run_tracks env wavs w) in T.
  destruct (run_tracks env wavs w) as [st|st|]; [|left; eauto|contradiction].
  destruct (can_create env cue_path); cbn [negb]; [|left; eauto].
  destruct (cue_lines _ _) as [lines|] eqn:C; [left; eauto|].
  right. split; [reflexivity|]. split; [reflexivity|]. exists st. auto.
Qed.

(** ** The usual layout: a format chunk, then the data chunk *)

Section Canonical.

Lemma chunk_effect_fmt pos c st :
  is_tag c "fmt " = true -> 16 <= c_size c ->
  chunk_effect pos c st
  = mkWav true (got_data st)
          (rd_le_u16 (c_body c)) (rd_le_u16 (drop 2 (c_body c)))
          (rd_le_u16 (drop 14 (c_body c))) (rd_le_u32 (drop 4 (c_body c)))
          (data_ofs st) (data_size st).
Proof.
  intros Ht Hs. unfold chunk_effect. rewrite Ht.
  destruct (Z.geb_spec (c_size c) 16); [reflexivity | lia].
Qed.

Lemma chunk_effect_data pos c st :
  is_tag c "fmt " = false -> is_tag c "data" = true ->
  chunk_effect pos c st
  = mkWav (got_fmt st) true (audioFormat st) (numChannels st)
          (bitsPerSample st) (sampleRate st) (pos + 8) (c_size c).
Proof. intros Hf Hd. unfold chunk_effect. now rewrite Hf, Hd. Qed.

(** On a container that starts with a format chunk of at least 16 bytes
    followed by a data chunk, [parse_wav] returns 0 exactly when the four
    fields of the format chunk fit the profile, and the out-parameters then
    delimit the body of the data chunk. *)
Lemma parse_wav_canonical riff_size fmt_c data_c more tl name :
  length riff_size = 4%nat ->
  Forall chunk_complete (fmt_c :: data_c :: more) ->
  (length tl < 8)%nat ->
  Z.of_nat (length (container riff_size (fmt_c :: data_c :: more) tl)) <= LONG_MAX ->
  is_tag fmt_c "fmt " = true -> 16 <= c_size fmt_c ->
  is_tag data_c "fmt " = false -> is_tag data_c "data" = true ->
  let content := container riff_size (fmt_c :: data_c :: more) tl in
  let ofs := 12 + Z.of_nat (length (encode_chunk fmt_c)) + 8 in
  let profile := rd_le_u16 (c_body fmt_c) = 1 /\ rd_le_u16 (drop 2 (c_body fmt_c)) = 2
                 /\ rd_le_u32 (drop 4 (c_body fmt_c)) = 44100
                 /\ rd_le_u16 (drop 14 (c_body fmt_c)) = 16 in
  ((exists f', parse_wav (mkFILE content 0) name = ParseOk f' ofs (c_size data_c)) <-> profile)
  /\ (~ profile -> parse_wav (mkFILE content 0) name = ParseFail [msg_bad_format name])
  /\ extract ofs (c_size data_c) content = c_body data_c.
Proof.
  intros Hr Hall Htl Hmax Hfmt Hsize Hnf Hdata content ofs profile.
  destruct (parse_wav_container riff_size _ tl name Hr Hall Htl Hmax) as (f' & E & _).
  fold content in E.
  assert (scan_spec 12 (fmt_c :: data_c :: more) wav_init
          = mkWav true true (rd_le_u16 (c_body fmt_c)) (rd_le_u16 (drop 2 (c_body fmt_c)))
                  (rd_le_u16 (drop 14 (c_body fmt_c))) (rd_le_u32 (drop 4 (c_body fmt_c)))
                  ofs (c_size data_c)) as S.
  { cbn [scan_spec]. cbv zeta.
    rewrite (chunk_effect_fmt 12 fmt_c wav_init Hfmt Hsize).
    cbn [got_fmt got_data wav_init andb].
    rewrite (chunk_effect_data _ data_c _ Hnf Hdata). reflexivity. }
  rewrite S in E. unfold format_ok in E.
  cbn [got_fmt got_data negb orb audioFormat numChannels bitsPerSample sampleRate
       data_ofs data_size] in E.
  assert ((rd_le_u16 (c_body fmt_c) =? 1) && (rd_le_u16 (drop 2 (c_body fmt_c)) =? 2)
          && (rd_le_u32 (drop 4 (c_body fmt_c)) =? 44100)
          && (rd_le_u16 (drop 14 (c_body fmt_c)) =? 16) = true <-> profile) as P.
  { unfold profile. rewrite !andb_true_iff, !Z.eqb_eq. tauto. }
  rewrite E. clear E. split; [|split].
  - destruct (_ && _); cbn [negb].
    + split; [intros _; now apply P | eauto].
    + split; [intros (? & [=]) | intros Hp; apply P in Hp; discriminate].
  - intros Hn. destruct (_ && _); cbn [negb]; [|reflexivity].
    exfalso. apply Hn, P. reflexivity.
  - inversion Hall as [|? ? Hc1 Hall']; subst. inversion Hall' as [|? ? Hc2 _]; subst.
    destruct Hc2 as (Ht & Hz & Hb & _).
    unfold extract, content, container, ofs.
    destruct riff_size as [|r0 [|r1 [|r2 [|r3 [|]]]]]; try discriminate.
    replace (Z.to_nat (12 + Z.of_nat (length (encode_chunk fmt_c)) + 8))
      with (12 + (length (encode_chunk fmt_c) + (4 + 4)))%nat by lia.
    rewrite <- !drop_drop. change (drop 12 _) with
      (concat (map encode_chunk (fmt_c :: data_c :: more)) ++ tl).
    cbn [map concat]. rewrite <- !app_assoc, drop_app_length.
    unfold encode_chunk at 1. rewrite <- !app_assoc.
    rewrite (drop_app_length' (c_tag data_c)) by (symmetry; exact Ht).
    rewrite (drop_app_length' (c_sz data_c)) by (symmetry; exact Hz).
    apply take_app_length'. lia.
Qed.

End Canonical.

(** * Further properties *)

(** ** The two readers *)

Section Decoders.

Lemma uchar_range b : 0 <= uchar b < 256.
Proof.
  unfold uchar. pose proof (Byte.to_N_bounded b). lia.
Qed.

Lemma land_shiftl_0 a b k : 0 <= a < 2 ^ k -> 0 <= k -> Z.land a (Z.shiftl b k) = 0.
Proof.
  intros Ha Hk. apply Z.bits_inj'. intros n Hn.
  rewrite Z.land_spec, Z.bits_0.
  destruct (Z.lt_ge_cases n k).
  - rewrite Z.shiftl_spec_low by lia. apply andb_false_r.
  - rewrite <- (Z.mod_small a (2 ^ k)) by lia.
    rewrite Z.mod_pow2_bits_high by lia. reflexivity.
Qed.

Lemma lor_shiftl_add a b k :
  0 <= a < 2 ^ k -> 0 <= k -> Z.lor a (Z.shiftl b k) = a + b * 2 ^ k.
Proof.
  intros Ha Hk. rewrite <- Z.add_nocarry_lor by now apply land_shiftl_0.
  now rewrite Z.shiftl_mul_pow2.
Qed.

End Decoders.

(** X1.  [rd_le_u16] and [rd_le_u32] read the first two and the first four
    bytes of the buffer as an unsigned number, least significant byte
    first; the bytes behind them do not count, and the value of
    [rd_le_u32] stays below [2 ^ 32] although its type has 64 bits. *)
Theorem readers_are_little_endian (b0 b1 b2 b3 : byte) (rest : list byte) :
  rd_le_u16 (b0 :: b1 :: rest) = uchar b0 + 2 ^ 8 * uchar b1
  /\ rd_le_u32 (b0 :: b1 :: b2 :: b3 :: rest)
     = uchar b0 + 2 ^ 8 * uchar b1 + 2 ^ 16 * uchar b2 + 2 ^ 24 * uchar b3
  /\ 0 <= rd_le_u32 (b0 :: b1 :: b2 :: b3 :: rest) < 2 ^ 32.
Proof.
  pose proof (uchar_range b0) as H0. pose proof (uchar_range b1) as H1.
  pose proof (uchar_range b2) as H2. pose proof (uchar_range b3) as H3.
  assert (rd_le_u32 (b0 :: b1 :: b2 :: b3 :: rest)
          = uchar b0 + 2 ^ 8 * uchar b1 + 2 ^ 16 * uchar b2 + 2 ^ 24 * uchar b3) as E.
  { unfold rd_le_u32, ul_shl, ub. cbn [nth]. fold (uchar b0) (uchar b1) (uchar b2) (uchar b3).
    rewrite (to_ulong_small (uchar b0)), (to_ulong_small (uchar b1)),
      (to_ulong_small (uchar b2)), (to_ulong_small (uchar b3)) by lia.
    rewrite !Z.shiftl_mul_pow2 by lia.
    rewrite (to_ulong_small (uchar b1 * _)), (to_ulong_small (uchar b2 * _)),
      (to_ulong_small (uchar b3 * _)) by lia.
    rewrite <- !Z.shiftl_mul_pow2 by lia.
    rewrite (lor_shiftl_add (uchar b0)) by lia.
    rewrite (lor_shiftl_add _ (uchar b2) 16) by lia.
    rewrite (lor_shiftl_add _ (uchar b3) 24) by lia.
    rewrite to_ulong_small by lia. lia. }
  split; [|split; [exact E | lia]].
  unfold rd_le_u16, to_ushort, ub. cbn [nth]. fold (uchar b0) (uchar b1).
  rewrite lor_shiftl_add by lia. change (2 ^ USHRT_BITS) with 65536.
  rewrite Z.mod_small by lia. lia.
Qed.

(** ** The header check of parse_wav *)

Section Diagnostics.

Lemma append_inv_head (s a b : string) : s +:+ a = s +:+ b -> a = b.
Proof. induction s as [|c s IH]; cbn; intros H; [exact H | injection H; auto]. Qed.

Lemma memcmp_eq_true a b n :
  memcmp_eq a b n = true
  <-> (n <= length a)%nat /\ (n <= length b)%nat /\ take n a = take n b.
Proof.
  revert a b. induction n as [|n IH]; intros a b; cbn [memcmp_eq].
  - split; [intros _; repeat split; cbn; lia | reflexivity].
  - destruct a as [|x a]; [split; [discriminate | cbn; lia]|].
    destruct b as [|y b]; [split; [discriminate | cbn; lia]|].
    rewrite andb_true_iff, IH. cbn [length take].
    split.
    + intros (E & ? & ? & T). apply Byte.byte_dec_bl in E. subst y.
      repeat split; try lia. now rewrite T.
    + intros (? & ? & [= -> T]). repeat split; try lia; [|exact T].
      apply Byte.byte_dec_lb. reflexivity.
Qed.

Lemma parse_wav_header content name :
  parse_wav (mkFILE content 0) name
  = if negb (Z.of_nat (length (take 12 content)) =? 12) then ParseFail [msg_no_header name]
    else if negb (memcmp_eq (take 12 content) (bytes_of "RIFF") 4)
            || negb (memcmp_eq (drop 8 (take 12 content)) (bytes_of "WAVE") 4)
    then ParseFail [msg_not_riff name]
    else
      match scan_chunks (S (length content))
                        (mkFILE content (Z.of_nat (length (take 12 content)))) wav_init with
      | ScanBudget => ParseBudget
      | ScanError => ParseFail []
      | ScanDone st f =>
          if negb (got_fmt st) || negb (got_data st)
          then ParseFail [msg_missing_chunk name]
          else if negb (format_ok st) then ParseFail [msg_bad_format name]
          else ParseOk f (data_ofs st) (data_size st)
      end.
Proof. reflexivity. Qed.

Lemma msg_no_header_differs name :
  msg_no_header name <> msg_not_riff name
  /\ msg_no_header name <> msg_missing_chunk name
  /\ msg_no_header name <> msg_bad_format name
  /\ msg_not_riff name <> msg_missing_chunk name
  /\ msg_not_riff name <> msg_bad_format name
  /\ msg_missing_chunk name <> msg_bad_format name.
Proof.
  unfold msg_no_header, msg_not_riff, msg_missing_chunk, msg_bad_format.
  repeat split; intros H; apply append_inv_head in H; discriminate.
Qed.

End Diagnostics.

(** X2.  The two header diagnostics of [parse_wav] name their cause: a
    freshly opened input is answered with "cannot read RIFF header" exactly
    when it holds fewer than 12 bytes (an empty file included), and with
    "not a RIFF/WAVE file" exactly when it holds 12 bytes or more that do
    not start with "RIFF" or do not carry "WAVE" at offset 8.  The four
    bytes in between, the RIFF size, are not looked at. *)
Theorem header_diagnostics content name :
  (parse_wav (mkFILE content 0) name = ParseFail [msg_no_header name]
   <-> (length content < 12)%nat)
  /\ (parse_wav (mkFILE content 0) name = ParseFail [msg_not_riff name]
      <-> (12 <= length content)%nat
          /\ (take 4 content <> bytes_of "RIFF" \/ take 4 (drop 8 content) <> bytes_of "WAVE")).
Proof.
  destruct (msg_no_header_differs name) as (D1 & D2 & D3 & D4 & D5 & _).
  rewrite parse_wav_header, length_take.
  assert (memcmp_eq (take 12 content) (bytes_of "RIFF") 4 = true
          <-> (4 <= length content)%nat /\ take 4 content = bytes_of "RIFF") as M1.
  { rewrite memcmp_eq_true, length_take, take_take. cbn [length bytes_of list_byte_of_string].
    change (take 4 (bytes_of "RIFF")) with (bytes_of "RIFF").
    replace (4 `min` 12)%nat with 4%nat by lia. split; [intros (? & ? & ?) | intros (? & ?)].
    - split; [lia | assumption].
    - repeat split; [lia | cbn; lia | assumption]. }
  assert (memcmp_eq (drop 8 (take 12 content)) (bytes_of "WAVE") 4 = true
          <-> (12 <= length content)%nat /\ take 4 (drop 8 content) = bytes_of "WAVE") as M2.
  { rewrite memcmp_eq_true, length_drop, length_take.
    change (take 4 (bytes_of "WAVE")) with (bytes_of "WAVE").
    change 12%nat with (8 + 4)%nat at 2. rewrite <- (take_drop_commute content 4 8), take_take.
    replace (4 `min` 4)%nat with 4%nat by lia.
    split; [intros (? & ? & ?) | intros (? & ?)].
    - split; [lia | assumption].
    - repeat split; [lia | cbn; lia | assumption]. }
  destruct (Z.eqb_spec (Z.of_nat (12 `min` length content)) 12) as [E|N]; cbn [negb].
  - assert (12 <= length content)%nat as L by lia.
    generalize (scan_chunks (S (length content))
                  (mkFILE content (Z.of_nat (12 `min` length content))) wav_init).
    intros sc.
    destruct (memcmp_eq (take 12 content) _ 4);
      destruct (memcmp_eq (drop 8 (take 12 content)) _ 4); cbn [negb orb].
    + destruct (proj1 M1 eq_refl) as [_ T1]. destruct (proj1 M2 eq_refl) as [_ T2].
      assert (forall d, d <> msg_missing_chunk name -> d <> msg_bad_format name ->
                match sc with
                | ScanDone st f =>
                    if negb (got_fmt st) || negb (got_data st)
                    then ParseFail [msg_missing_chunk name]
                    else if negb (format_ok st) then ParseFail [msg_bad_format name]
                         else ParseOk f (data_ofs st) (data_size st)
                | ScanError => ParseFail []
                | ScanBudget => ParseBudget
                end <> ParseFail [d]) as Other.
      { intros d Hd1 Hd2. destruct sc as [st f| |]; try discriminate.
        destruct (_ || _); [congruence|]. destruct (negb _); [congruence | discriminate]. }
      split; (split; [intros H; exfalso; revert H; now apply Other|]); [lia|].
      intros (_ & [H|H]); contradiction.
    + split; [split; [congruence | lia]|].
      split; [intros _; split; [exact L|] | reflexivity].
      right. intros H. assert (false = true) by (apply M2; auto). discriminate.
    + split; [split; [congruence | lia]|].
      split; [intros _; split; [exact L|] | reflexivity].
      left. intros H. assert (false = true) by (apply M1; split; [lia | auto]). discriminate.
    + split; [split; [congruence | lia]|].
      split; [intros _; split; [exact L|] | reflexivity].
      left. intros H. assert (false = true) by (apply M1; split; [lia | auto]). discriminate.
  - split; [split; [lia | reflexivity]|].
    split; [congruence | lia].
Qed.

(** ** Chunk layouts *)

Section Layouts.

Lemma chunk_effect_other pos c st : other_chunk c -> chunk_effect pos c st = st.
Proof. intros [Hf Hd]. unfold chunk_effect. now rewrite Hf, Hd. Qed.

Lemma length_encode_all_cons c cs :
  Z.of_nat (length (concat (map encode_chunk (c :: cs))))
  = Z.of_nat (length (encode_chunk c)) + Z.of_nat (length (concat (map encode_chunk cs))).
Proof. cbn [map concat]. rewrite length_app. lia. Qed.

(** Chunks that are neither format nor data chunks are stepped over, one
    trip of the loop each. *)
Lemma scan_chunks_skip cs : forall content pos st budget rest,
  Forall chunk_complete cs -> Forall other_chunk cs -> 0 <= pos ->
  drop (Z.to_nat pos) content = concat (map encode_chunk cs) ++ rest ->
  Z.of_nat (length content) <= LONG_MAX ->
  got_fmt st && got_data st = false ->
  scan_chunks (length cs + budget) (mkFILE content pos) st
  = scan_chunks budget
      (mkFILE content (pos + Z.of_nat (length (concat (map encode_chunk cs))))) st.
Proof.
  induction cs as [|c cs IH]; intros content pos st budget rest Hall Hoth Hpos Hd Hmax Hst.
  - cbn. now rewrite Z.add_0_r.
  - inversion Hall as [|? ? Hc Hcs]; subst. inversion Hoth as [|? ? Ho Hos]; subst.
    cbn [map concat] in Hd. rewrite <- app_assoc in Hd.
    pose proof Hc as (Ht & Hz & _).
    cbn [length Nat.add scan_chunks].
    rewrite (fread_at content pos (c_tag c ++ c_sz c)
                      (c_body c ++ c_pad c ++ concat (map encode_chunk cs) ++ rest) 8).
    2: exact Hpos.
    2: { rewrite Hd. unfold encode_chunk. now rewrite <- !app_assoc. }
    2: { rewrite length_app, Ht, Hz. reflexivity. }
    rewrite length_app, Ht, Hz.
    cbn [negb Z.eqb Z.of_nat Nat.add Pos.of_succ_nat Pos.succ Pos.eqb].
    rewrite (chunk_body_complete content pos c _ st Hc Hpos Hd Hmax).
    rewrite (chunk_effect_other _ _ _ Ho), Hst.
    rewrite (IH content _ st budget rest); try assumption; try lia.
    + rewrite length_encode_all_cons. do 2 f_equal. lia.
    + rewrite Z2Nat.inj_add, Nat2Z.id by lia.
      eapply drop_more; [exact Hd | reflexivity].
Qed.

(** The header of a data chunk at the cursor: the loop records where the
    body starts and how long it is declared to be, and seeks behind it,
    whatever the stream holds from there on. *)
Lemma chunk_body_data_header content pos sz st :
  length sz = 4%nat -> 0 <= pos -> pos + 8 + 2 ^ 32 < LONG_MAX ->
  exists f',
    chunk_body (bytes_of "data" ++ sz) (mkFILE content (pos + 8)) st
    = Some (mkWav (got_fmt st) true (audioFormat st) (numChannels st)
                  (bitsPerSample st) (sampleRate st) (pos + 8) (rd_le_u32 sz), f')
    /\ f_content f' = content.
Proof.
  intros Hz Hpos Hmax. unfold chunk_body.
  change (drop 4 (bytes_of "data" ++ sz)) with sz.
  change (memcmp_eq (bytes_of "data" ++ sz) (bytes_of "fmt ") 4) with false.
  change (memcmp_eq (bytes_of "data" ++ sz) (bytes_of "data") 4) with true.
  cbv iota. unfold ftell. cbn [f_pos].
  pose proof (rd_le_u32_range sz) as Hr.
  destruct (Z.ltb_spec (pos + 8) 0); [lia|].
  rewrite to_long_csize, fseek_cur_at by lia.
  rewrite skip_pad_byte_at by (destruct (Z.odd (rd_le_u32 sz)); lia).
  rewrite to_ulong_small by (unfold LONG_MAX in *; lia).
  eexists. split; reflexivity.
Qed.

Lemma fread_header content pos tag sz rest :
  0 <= pos -> drop (Z.to_nat pos) content = tag ++ sz ++ rest ->
  length tag = 4%nat -> length sz = 4%nat ->
  fread 8 (mkFILE content pos) = (tag ++ sz, mkFILE content (pos + 8)).
Proof.
  intros Hpos Hd Ht Hz. apply (fread_at content pos (tag ++ sz) rest 8).
  - exact Hpos.
  - now rewrite <- app_assoc.
  - rewrite length_app, Ht, Hz. reflexivity.
Qed.

(** The verdict of lines 96-105 on a state in which both chunks are seen. *)
Lemma verdict_both_seen name f af nc bps sr ofs size :
  (if negb (got_fmt (mkWav true true af nc bps sr ofs size))
      || negb (got_data (mkWav true true af nc bps sr ofs size))
   then ParseFail [msg_missing_chunk name]
   else if negb (format_ok (mkWav true true af nc bps sr ofs size))
        then ParseFail [msg_bad_format name]
        else ParseOk f ofs size)
  = if (af =? 1) && (nc =? 2) && (sr =? 44100) && (bps =? 16)
    then ParseOk f ofs size else ParseFail [msg_bad_format name].
Proof.
  unfold format_ok. cbn [got_fmt got_data negb orb audioFormat numChannels sampleRate
                         bitsPerSample data_ofs data_size].
  destruct (_ && _); reflexivity.
Qed.

Lemma cdda_profile_test body :
  (rd_le_u16 body =? 1) && (rd_le_u16 (drop 2 body) =? 2)
  && (rd_le_u32 (drop 4 body) =? 44100) && (rd_le_u16 (drop 14 body) =? 16) = true
  <-> cdda_profile body.
Proof. unfold cdda_profile. rewrite !andb_true_iff, !Z.eqb_eq. tauto. Qed.

End Layouts.

Section LayoutProofs.

Lemma length_encode_all_app l k :
  Z.of_nat (length (concat (map encode_chunk (l ++ k))))
  = Z.of_nat (length (concat (map encode_chunk l)))
    + Z.of_nat (length (concat (map encode_chunk k))).
Proof. rewrite map_app, concat_app, length_app. lia. Qed.

Lemma container_header riff_size cs tl name :
  length riff_size = 4%nat ->
  parse_wav (mkFILE (container riff_size cs tl) 0) name
  = match scan_chunks (S (length (container riff_size cs tl)))
                      (mkFILE (container riff_size cs tl) 12) wav_init with
    | ScanBudget => ParseBudget
    | ScanError => ParseFail []
    | ScanDone st f =>
        if negb (got_fmt st) || negb (got_data st)
        then ParseFail [msg_missing_chunk name]
        else if negb (format_ok st) then ParseFail [msg_bad_format name]
        else ParseOk f (data_ofs st) (data_size st)
    end
    /\ drop 12 (container riff_size cs tl) = concat (map encode_chunk cs) ++ tl.
Proof.
  intros Hr. destruct riff_size as [|r0 [|r1 [|r2 [|r3 [|]]]]]; try discriminate.
  split; reflexivity.
Qed.

End LayoutProofs.

(** X3.  A container in which a format chunk of at least 16 bytes comes
    before the header of a data chunk, with any number of complete chunks
    of other kinds before and between them: [parse_wav] steps over the
    other chunks (and over the alignment byte behind a chunk of odd size),
    returns 0 exactly when the four fields of the format chunk fit the
    profile, and hands out the offset just behind the data header and the
    declared size.  What follows the data header is never read: it may be
    shorter than declared, or be followed by anything. *)
Theorem format_then_data riff_size pre fmt_c mid sz rest name :
  length riff_size = 4%nat -> length sz = 4%nat ->
  Forall chunk_complete (pre ++ fmt_c :: mid) ->
  Forall other_chunk (pre ++ mid) ->
  is_tag fmt_c "fmt " = true -> 16 <= c_size fmt_c ->
  let content :=
    container riff_size (pre ++ fmt_c :: mid) (bytes_of "data" ++ sz ++ rest) in
  Z.of_nat (length content) + 2 ^ 32 < LONG_MAX ->
  let ofs := 12 + Z.of_nat (length (concat (map encode_chunk (pre ++ fmt_c :: mid)))) + 8 in
  ((exists f', parse_wav (mkFILE content 0) name = ParseOk f' ofs (rd_le_u32 sz))
   <-> cdda_profile (c_body fmt_c))
  /\ (~ cdda_profile (c_body fmt_c) ->
      parse_wav (mkFILE content 0) name = ParseFail [msg_bad_format name])
  /\ drop (Z.to_nat ofs) content = rest.
Proof.
  intros Hr Hz Hall Hoth Hfmt Hsize content Hmax ofs.
  destruct (container_header riff_size (pre ++ fmt_c :: mid)
              (bytes_of "data" ++ sz ++ rest) name Hr) as [E Hd].
  fold content in E, Hd.
  apply Forall_app in Hall as [Hpre Hall]. inversion Hall as [|? ? Hc Hmid]; subst.
  apply Forall_app in Hoth as [Hopre Homid].
  rewrite map_app, concat_app in Hd. cbn [map concat] in Hd. rewrite <- !app_assoc in Hd.
  set (p1 := 12 + Z.of_nat (length (concat (map encode_chunk pre)))).
  set (p2 := p1 + Z.of_nat (length (encode_chunk fmt_c))).
  set (p3 := p2 + Z.of_nat (length (concat (map encode_chunk mid)))).
  assert (ofs = p3 + 8) as Hofs.
  { unfold ofs, p3, p2, p1. rewrite length_encode_all_app, length_encode_all_cons. lia. }
  assert (drop (Z.to_nat p1) content
          = encode_chunk fmt_c ++ concat (map encode_chunk mid)
              ++ bytes_of "data" ++ sz ++ rest) as Hd1.
  { unfold p1. rewrite Z2Nat.inj_add, Nat2Z.id by lia. change (Z.to_nat 12) with 12%nat.
    eapply drop_more; [exact Hd | reflexivity]. }
  assert (drop (Z.to_nat p2) content
          = concat (map encode_chunk mid) ++ bytes_of "data" ++ sz ++ rest) as Hd2.
  { unfold p2. rewrite Z2Nat.inj_add, Nat2Z.id by (unfold p1; lia).
    eapply drop_more; [exact Hd1 | reflexivity]. }
  assert (drop (Z.to_nat p3) content = bytes_of "data" ++ sz ++ rest) as Hd3.
  { unfold p3. rewrite Z2Nat.inj_add, Nat2Z.id by (unfold p2, p1; lia).
    eapply drop_more; [exact Hd2 | reflexivity]. }
  assert (drop (Z.to_nat ofs) content = rest) as Hrest.
  { rewrite Hofs, Z2Nat.inj_add by (unfold p3, p2, p1; lia).
    change (Z.to_nat 8) with (4 + 4)%nat. rewrite Nat.add_assoc.
    eapply drop_more; [|exact Hz]. eapply drop_more; [exact Hd3 | reflexivity]. }
  assert (p3 + 8 <= Z.of_nat (length content)) as Hin.
  { assert (length (drop (Z.to_nat p3) content) = length (bytes_of "data" ++ sz ++ rest)) as L
        by now rewrite Hd3.
    rewrite length_drop, !length_app, Hz in L. change (length (bytes_of "data")) with 4%nat in L.
    unfold p3, p2, p1 in *. lia. }
  pose proof (length_concat_encode pre Hpre) as Lpre.
  pose proof (length_concat_encode mid Hmid) as Lmid.
  assert (exists b, S (length content) = (length pre + S (length mid + S b))%nat) as (b & Hb).
  { exists (S (length content) - (length pre + S (length mid + 1)))%nat.
    unfold p3, p2, p1 in Hin. lia. }
  assert (exists f',
            scan_chunks (S (length content)) (mkFILE content 12) wav_init
            = ScanDone (mkWav true true (rd_le_u16 (c_body fmt_c))
                              (rd_le_u16 (drop 2 (c_body fmt_c)))
                              (rd_le_u16 (drop 14 (c_body fmt_c)))
                              (rd_le_u32 (drop 4 (c_body fmt_c))) ofs (rd_le_u32 sz)) f') as (f' & S).
  { rewrite Hb.
    rewrite (scan_chunks_skip pre content 12 wav_init _ _ Hpre Hopre ltac:(lia) Hd
               ltac:(lia) eq_refl).
    fold p1. cbn [scan_chunks].
    pose proof Hc as (Ht & Hsz & _).
    rewrite (fread_header content p1 (c_tag fmt_c) (c_sz fmt_c)
               (c_body fmt_c ++ c_pad fmt_c ++ concat (map encode_chunk mid)
                  ++ bytes_of "data" ++ sz ++ rest));
      [|unfold p1; lia | rewrite Hd1; unfold encode_chunk; now rewrite <- !app_assoc
       | exact Ht | exact Hsz].
    rewrite length_app, Ht, Hsz.
    cbn [negb Z.eqb Z.of_nat Nat.add Pos.of_succ_nat Pos.succ Pos.eqb].
    rewrite (chunk_body_complete content p1 fmt_c _ wav_init Hc ltac:(unfold p1; lia) Hd1
               ltac:(lia)).
    rewrite (chunk_effect_fmt p1 fmt_c wav_init Hfmt Hsize).
    cbn [got_fmt got_data wav_init andb data_ofs data_size]. fold p2.
    set (st1 := mkWav true false (rd_le_u16 (c_body fmt_c))
                      (rd_le_u16 (drop 2 (c_body fmt_c)))
                      (rd_le_u16 (drop 14 (c_body fmt_c)))
                      (rd_le_u32 (drop 4 (c_body fmt_c))) 0 0).
    rewrite (scan_chunks_skip mid content p2 st1 _ _ Hmid Homid ltac:(unfold p2, p1; lia) Hd2
               ltac:(lia) eq_refl).
    fold p3. cbn [scan_chunks].
    rewrite (fread_header content p3 (bytes_of "data") sz rest);
      [|unfold p3, p2, p1; lia | exact Hd3 | reflexivity | exact Hz].
    rewrite length_app, Hz.
    cbn [negb Z.eqb Z.of_nat Nat.add Pos.of_succ_nat Pos.succ Pos.eqb length bytes_of
         list_byte_of_string].
    destruct (chunk_body_data_header content p3 sz st1 Hz)
      as (f' & -> & _); [unfold p3, p2, p1; lia | lia |].
    subst st1.
    cbn [got_fmt got_data andb audioFormat numChannels bitsPerSample sampleRate].
    rewrite Hofs. eauto. }
  rewrite E, S, verdict_both_seen. clear E S.
  pose proof (cdda_profile_test (c_body fmt_c)) as P.
  split; [|split; [|exact Hrest]].
  - destruct (_ && _).
    + split; [intros _; now apply P | eauto].
    + split; [intros (? & [=]) | intros Hp; apply P in Hp; discriminate].
  - intros Hn. destruct (_ && _); [|reflexivity]. exfalso. apply Hn, P. reflexivity.
Qed.

(** X4.  The two chunks may come in the other order: with a complete data
    chunk before a format chunk of at least 16 bytes (and any complete
    chunks of other kinds before and between them), [parse_wav] returns 0
    exactly when the format chunk fits the profile, and the out-parameters
    delimit the body of the data chunk.  What follows the format chunk is
    never read. *)
Theorem data_then_format riff_size pre data_c mid fmt_c rest name :
  length riff_size = 4%nat ->
  Forall chunk_complete (pre ++ data_c :: mid ++ [fmt_c]) ->
  Forall other_chunk (pre ++ mid) ->
  is_tag data_c "fmt " = false -> is_tag data_c "data" = true ->
  is_tag fmt_c "fmt " = true -> 16 <= c_size fmt_c ->
  let content := container riff_size (pre ++ data_c :: mid ++ [fmt_c]) rest in
  Z.of_nat (length content) <= LONG_MAX ->
  let ofs := 12 + Z.of_nat (length (concat (map encode_chunk pre))) + 8 in
  ((exists f', parse_wav (mkFILE content 0) name = ParseOk f' ofs (c_size data_c))
   <-> cdda_profile (c_body fmt_c))
  /\ (~ cdda_profile (c_body fmt_c) ->
      parse_wav (mkFILE content 0) name = ParseFail [msg_bad_format name])
  /\ extract ofs (c_size data_c) content = c_body data_c.
Proof.
  intros Hr Hall Hoth Hnf Hdata Hfmt Hsize content Hmax ofs.
  destruct (container_header riff_size (pre ++ data_c :: mid ++ [fmt_c]) rest name Hr)
    as [E Hd].
  fold content in E, Hd.
  apply Forall_app in Hall as [Hpre Hall]. inversion Hall as [|? ? Hcd Hall']; subst.
  apply Forall_app in Hall' as [Hmid Hcf]. inversion Hcf as [|? ? Hc _]; subst.
  apply Forall_app in Hoth as [Hopre Homid].
  rewrite map_app, concat_app in Hd. cbn [map concat] in Hd.
  rewrite map_app, concat_app in Hd. cbn [map concat] in Hd.
  rewrite app_nil_r, <- !app_assoc in Hd.
  set (p1 := 12 + Z.of_nat (length (concat (map encode_chunk pre)))).
  set (p2 := p1 + Z.of_nat (length (encode_chunk data_c))).
  set (p3 := p2 + Z.of_nat (length (concat (map encode_chunk mid)))).
  assert (ofs = p1 + 8) as Hofs by reflexivity.
  assert (drop (Z.to_nat p1) content
          = encode_chunk data_c ++ concat (map encode_chunk mid)
              ++ encode_chunk fmt_c ++ rest) as Hd1.
  { unfold p1. rewrite Z2Nat.inj_add, Nat2Z.id by lia. change (Z.to_nat 12) with 12%nat.
    eapply drop_more; [exact Hd | reflexivity]. }
  assert (drop (Z.to_nat p2) content
          = concat (map encode_chunk mid) ++ encode_chunk fmt_c ++ rest) as Hd2.
  { unfold p2. rewrite Z2Nat.inj_add, Nat2Z.id by (unfold p1; lia).
    eapply drop_more; [exact Hd1 | reflexivity]. }
  assert (drop (Z.to_nat p3) content = encode_chunk fmt_c ++ rest) as Hd3.
  { unfold p3. rewrite Z2Nat.inj_add, Nat2Z.id by (unfold p2, p1; lia).
    eapply drop_more; [exact Hd2 | reflexivity]. }
  pose proof Hcd as (Htd & Hzd & Hbd & _).
  pose proof Hc as (Ht & Hsz & _).
  assert (extract ofs (c_size data_c) content = c_body data_c) as Hbody.
  { unfold extract. rewrite Hofs, Z2Nat.inj_add by (unfold p1; lia).
    change (Z.to_nat 8) with (4 + 4)%nat. rewrite Nat.add_assoc.
    unfold encode_chunk in Hd1 at 1. rewrite <- !app_assoc in Hd1.
    erewrite drop_more; [|eapply drop_more; [exact Hd1 | exact Htd] | exact Hzd].
    apply take_app_length'. lia. }
  assert (p3 + 8 <= Z.of_nat (length content)) as Hin.
  { assert (length (drop (Z.to_nat p3) content) = length (encode_chunk fmt_c ++ rest)) as L
        by now rewrite Hd3.
    rewrite length_drop, length_app in L.
    pose proof (length_encode_chunk fmt_c Hc) as Lf.
    destruct (Z.odd (c_size fmt_c)); unfold p3, p2, p1 in *; lia. }
  pose proof (length_concat_encode pre Hpre) as Lpre.
  pose proof (length_concat_encode mid Hmid) as Lmid.
  pose proof (length_encode_chunk data_c Hcd) as Ldata.
  pose proof (rd_le_u32_range (c_sz data_c)) as Rdata. fold (c_size data_c) in Rdata.
  assert (exists b, S (length content) = (length pre + S (length mid + S b))%nat) as (b & Hb).
  { exists (S (length content) - (length pre + S (length mid + 1)))%nat.
    destruct (Z.odd (c_size data_c)); unfold p3, p2, p1 in Hin; lia. }
  assert (exists f',
            scan_chunks (S (length content)) (mkFILE content 12) wav_init
            = ScanDone (mkWav true true (rd_le_u16 (c_body fmt_c))
                              (rd_le_u16 (drop 2 (c_body fmt_c)))
                              (rd_le_u16 (drop 14 (c_body fmt_c)))
                              (rd_le_u32 (drop 4 (c_body fmt_c))) ofs (c_size data_c)) f')
    as (f' & S).
  { rewrite Hb.
    rewrite (scan_chunks_skip pre content 12 wav_init _ _ Hpre Hopre ltac:(lia) Hd
               ltac:(lia) eq_refl).
    fold p1. cbn [scan_chunks].
    rewrite (fread_header content p1 (c_tag data_c) (c_sz data_c)
               (c_body data_c ++ c_pad data_c ++ concat (map encode_chunk mid)
                  ++ encode_chunk fmt_c ++ rest));
      [|unfold p1; lia | rewrite Hd1; unfold encode_chunk; now rewrite <- !app_assoc
       | exact Htd | exact Hzd].
    rewrite length_app, Htd, Hzd.
    cbn [negb Z.eqb Z.of_nat Nat.add Pos.of_succ_nat Pos.succ Pos.eqb].
    rewrite (chunk_body_complete content p1 data_c _ wav_init Hcd ltac:(unfold p1; lia) Hd1
               ltac:(lia)).
    rewrite (chunk_effect_data p1 data_c wav_init Hnf Hdata).
    cbn [got_fmt got_data wav_init andb audioFormat numChannels bitsPerSample sampleRate].
    fold p2.
    set (st1 := mkWav false true 0 0 0 0 (p1 + 8) (c_size data_c)).
    rewrite (scan_chunks_skip mid content p2 st1 _ _ Hmid Homid ltac:(unfold p2, p1; lia) Hd2
               ltac:(lia) eq_refl).
    fold p3. cbn [scan_chunks].
    rewrite (fread_header content p3 (c_tag fmt_c) (c_sz fmt_c)
               (c_body fmt_c ++ c_pad fmt_c ++ rest));
      [|unfold p3, p2, p1; lia | rewrite Hd3; unfold encode_chunk; now rewrite <- !app_assoc
       | exact Ht | exact Hsz].
    rewrite length_app, Ht, Hsz.
    cbn [negb Z.eqb Z.of_nat Nat.add Pos.of_succ_nat Pos.succ Pos.eqb].
    rewrite (chunk_body_complete content p3 fmt_c _ st1 Hc ltac:(unfold p3, p2, p1; lia) Hd3
               ltac:(lia)).
    rewrite (chunk_effect_fmt p3 fmt_c st1 Hfmt Hsize). subst st1.
    cbn [got_fmt got_data andb data_ofs data_size].
    rewrite Hofs. eauto. }
  rewrite E, S, verdict_both_seen. clear E S.
  pose proof (cdda_profile_test (c_body fmt_c)) as P.
  split; [|split; [|exact Hbody]].
  - destruct (_ && _).
    + split; [intros _; now apply P | eauto].
    + split; [intros (? & [=]) | intros Hp; apply P in Hp; discriminate].
  - intros Hn. destruct (_ && _); [|reflexivity]. exfalso. apply Hn, P. reflexivity.
Qed.

Lemma format_then_data_witness :
  (exists f',
     parse_wav (mkFILE (container (le32 0) ([odd_chunk] ++ cdda_fmt :: [])
                                  (bytes_of "data" ++ le32 100 ++ ramp 0 5)) 0) "t.wav"
     = ParseOk f' 56 100)
  /\ drop 56 (container (le32 0) ([odd_chunk] ++ cdda_fmt :: [])
                        (bytes_of "data" ++ le32 100 ++ ramp 0 5)) = ramp 0 5.
Proof.
  pose proof (format_then_data (le32 0) [odd_chunk] cdda_fmt [] (le32 100) (ramp 0 5) "t.wav")
    as T.
  cbv zeta in T.
  destruct T as ([_ T1] & _ & T2).
  - reflexivity.
  - reflexivity.
  - repeat constructor.
  - repeat constructor.
  - reflexivity.
  - vm_compute; discriminate.
  - vm_compute; reflexivity.
  - split; [apply T1; vm_compute; repeat split; reflexivity | exact T2].
Defined.

Lemma data_then_format_witness :
  (exists f',
     parse_wav (mkFILE (container (le32 0)
                          ([] ++ data_chunk (ramp 0 6) :: [odd_chunk] ++ [cdda_fmt])
                          (ramp 0 3)) 0) "t.wav"
     = ParseOk f' 20 6)
  /\ extract 20 6 (container (le32 0)
                     ([] ++ data_chunk (ramp 0 6) :: [odd_chunk] ++ [cdda_fmt]) (ramp 0 3))
     = ramp 0 6.
Proof.
  pose proof (data_then_format (le32 0) [] (data_chunk (ramp 0 6)) [odd_chunk] cdda_fmt
                (ramp 0 3) "t.wav") as T.
  cbv zeta in T.
  destruct T as ([_ T1] & _ & T2).
  - reflexivity.
  - repeat constructor.
  - repeat constructor.
  - reflexivity.
  - reflexivity.
  - reflexivity.
  - vm_compute; discriminate.
  - vm_compute; discriminate.
  - split; [apply T1; vm_compute; repeat split; reflexivity | exact T2].
Defined.

(** ** Runs that complete *)

Section Completion.

Variable env : Env.

Lemma fwrite_fits buf o :
  Z.of_nat (length buf) <= o_room o ->
  fwrite buf o
  = (Z.of_nat (length buf), mkOFILE (o_content o ++ buf) (o_room o - Z.of_nat (length buf))).
Proof. intros H. unfold fwrite. rewrite take_ge by lia. reflexivity. Qed.

Lemma copy_loop_zero budget fin fb : copy_loop budget fin fb 0 = CopyDone fin fb.
Proof. destruct budget; reflexivity. Qed.

Lemma pad_loop_zero budget fb : pad_loop budget fb 0 = PadDone fb.
Proof. destruct budget; reflexivity. Qed.

(** With the bytes at hand in the input and room on the device, the
    payload loop copies them all. *)
Lemma copy_loop_complete budget : forall content pos fb remaining,
  0 <= remaining < 2 ^ 64 -> 0 <= pos ->
  remaining <= Z.of_nat (length (drop (Z.to_nat pos) content)) ->
  remaining <= o_room fb ->
  (Z.to_nat (remaining / 8192) < budget)%nat ->
  exists fin',
    copy_loop budget (mkFILE content pos) fb remaining
    = CopyDone fin' (mkOFILE (o_content fb ++ take (Z.to_nat remaining)
                                                  (drop (Z.to_nat pos) content))
                             (o_room fb - remaining)).
Proof.
  induction budget as [|budget IH]; intros content pos fb r Hr Hpos Hav Hroom Hb; [lia|].
  cbn [copy_loop]. destruct (Z.gtb_spec r 0) as [Hgt|Hz].
  - cbv zeta. set (chunk := if r >? 8192 then 8192 else r).
    assert (0 < chunk <= r) as Hc by (subst chunk; destruct (Z.gtb_spec r 8192); lia).
    assert (chunk = r \/ chunk = 8192 /\ 8192 < r) as Hch
        by (subst chunk; destruct (Z.gtb_spec r 8192); lia).
    clearbody chunk.
    rewrite (fread_at content pos (take (Z.to_nat chunk) (drop (Z.to_nat pos) content))
                      (drop (Z.to_nat chunk) (drop (Z.to_nat pos) content)) chunk);
      [|exact Hpos | now rewrite take_drop | rewrite length_take; lia].
    rewrite length_take, Nat2Z.inj_min, Z2Nat.id, Z.min_l, Z.eqb_refl by lia. cbn [negb].
    rewrite fwrite_fits by (rewrite length_take; lia).
    rewrite length_take, Nat2Z.inj_min, Z2Nat.id, Z.min_l, Z.eqb_refl by lia. cbn [negb].
    rewrite ul_sub_small by lia.
    assert (take (Z.to_nat r) (drop (Z.to_nat pos) content)
            = take (Z.to_nat chunk) (drop (Z.to_nat pos) content)
                ++ take (Z.to_nat (r - chunk)) (drop (Z.to_nat (pos + chunk)) content)) as E.
    { rewrite Z2Nat.inj_add, <- drop_drop, take_take_drop by lia. f_equal. lia. }
    destruct Hch as [Heq|[Hch Hbig]].
    + subst chunk. rewrite Z.sub_diag, copy_loop_zero. eexists. reflexivity.
    + destruct (IH content (pos + chunk)
                   (mkOFILE (o_content fb ++ take (Z.to_nat chunk) (drop (Z.to_nat pos) content))
                            (o_room fb - chunk)) (r - chunk)) as (fin' & ->).
      * lia.
      * lia.
      * rewrite Z2Nat.inj_add, <- drop_drop, length_drop by lia. lia.
      * cbn [o_room]. lia.
      * pose proof (trips_step r Hbig) as T. unfold trips in T. rewrite Hch. lia.
      * cbn [o_content o_room]. eexists. do 2 f_equal; [|lia].
        now rewrite E, app_assoc.
  - replace r with 0 by lia. cbn [Z.to_nat take]. rewrite app_nil_r, Z.sub_0_r.
    destruct fb. eexists. reflexivity.
Qed.

(** With room on the device, the padding loop appends all the zeros. *)
Lemma pad_loop_complete budget : forall fb p,
  0 <= p < 2 ^ 64 -> p <= o_room fb -> (Z.to_nat (p / 8192) < budget)%nat ->
  pad_loop budget fb p
  = PadDone (mkOFILE (o_content fb ++ replicate (Z.to_nat p) x00) (o_room fb - p)).
Proof.
  induction budget as [|budget IH]; intros fb p Hp Hroom Hb; [lia|].
  cbn [pad_loop]. destruct (Z.gtb_spec p 0) as [Hgt|Hz].
  - cbv zeta. set (chunk2 := if p >? 8192 then 8192 else p).
    assert (0 < chunk2 <= p) as Hc by (subst chunk2; destruct (Z.gtb_spec p 8192); lia).
    assert (chunk2 = p \/ chunk2 = 8192 /\ 8192 < p) as Hch
        by (subst chunk2; destruct (Z.gtb_spec p 8192); lia).
    clearbody chunk2.
    rewrite fwrite_fits by (rewrite length_replicate; lia).
    rewrite length_replicate, Z2Nat.id, Z.eqb_refl by lia. cbn [negb].
    rewrite ul_sub_small by lia.
    destruct Hch as [Heq|[Hch Hbig]].
    + subst chunk2. rewrite Z.sub_diag, pad_loop_zero. reflexivity.
    + rewrite IH.
      * cbn [o_content o_room]. do 2 f_equal; [|lia].
        rewrite <- app_assoc, <- replicate_add. do 2 f_equal. lia.
      * lia.
      * cbn [o_room]. lia.
      * pose proof (trips_step p Hbig) as T. unfold trips in T. rewrite Hch. lia.
  - replace p with 0 by lia. cbn [Z.to_nat replicate]. rewrite app_nil_r, Z.sub_0_r.
    destruct fb. reflexivity.
Qed.

Lemma write_padding_complete fb p :
  0 <= p < 2 ^ 64 -> p <= o_room fb ->
  write_padding fb p
  = PadDone (mkOFILE (o_content fb ++ replicate (Z.to_nat p) x00) (o_room fb - p)).
Proof.
  intros Hp Hroom. unfold write_padding. destruct (Z.eqb_spec p 0) as [->|Hne]; cbn [negb].
  - destruct fb as [c r]. cbn. now rewrite app_nil_r, Z.sub_0_r.
  - apply pad_loop_complete; [exact Hp | exact Hroom | unfold trips; lia].
Qed.

Lemma resolve_inv fs wav src :
  resolve fs wav = Some src ->
  exists fin f',
    fopen_rb fs wav = Some fin /\ f_content fin = s_content src /\ f_pos fin = 0
    /\ file_inv fin
    /\ parse_wav fin wav = ParseOk f' (s_ofs src) (s_size src)
    /\ f_content f' = s_content src
    /\ 0 <= s_size src < 2 ^ 32 /\ 0 <= s_ofs src <= LONG_MAX.
Proof.
  unfold resolve. destruct (fopen_rb fs wav) as [fin|] eqn:O; [|discriminate].
  destruct (fopen_rb_inv _ _ _ O) as (I & P0 & _).
  destruct (parse_wav fin wav) as [f' ofs size| |] eqn:P; try discriminate.
  destruct (parse_wav_ok _ _ _ _ _ P I) as (C1 & Hs & Ho & _).
  intros [= <-]. cbn [s_content s_ofs s_size]. exists fin, f'. auto 10.
Qed.

(** A trip of the track loop on an input that resolves, with its payload
    all there and room for its sectors on the device. *)
Lemma process_track_complete i wav st src :
  resolved (files (world st)) wav src ->
  Z.of_nat (length (track_bytes src)) <= o_room (fbin st) ->
  process_track env i wav st
  = StepNext (mkRun (print [msg_appended wav (s_size src) (padded_size (s_size src))] (world st))
                    (mkOFILE (o_content (fbin st) ++ track_bytes src)
                             (o_room (fbin st) - Z.of_nat (length (track_bytes src))))
                    (<[i := total_sectors_before st]> (index_times st))
                    (ul_add (total_sectors_before st) (spec_sectors (s_size src)))).
Proof.
  intros [Hres Hok] Hroom.
  pose proof (length_track_bytes src Hok) as Hlen. rewrite spec_sectors_times in Hlen.
  destruct Hok as (_ & Hpay & _).
  destruct (resolve_inv _ _ _ Hres) as (fin & f' & O & C & P0 & I & P & C' & Hs & Ho).
  pose proof (spec_pad_range (s_size src)) as R.
  unfold process_track. rewrite O, P, to_long_small by exact Ho.
  unfold fseek_set, seekable.
  destruct (Z.leb_spec 0 (s_ofs src)); [|lia].
  destruct (Z.leb_spec (s_ofs src) LONG_MAX); [|lia]. cbn [andb].
  rewrite C'.
  destruct (copy_loop_complete (trips (s_size src)) (s_content src) (s_ofs src) (fbin st)
              (s_size src)) as (fin' & ->).
  - lia.
  - lia.
  - unfold payload in Hpay. rewrite length_take in Hpay. lia.
  - lia.
  - unfold trips. lia.
  - rewrite sector_pad_spec, to_ulong_small by lia.
    rewrite write_padding_complete by (cbn [o_room]; lia).
    rewrite padded_sectors_spec by lia. cbn [o_content o_room].
    rewrite Hlen. unfold track_bytes, payload. rewrite <- app_assoc.
    do 3 f_equal. lia.
Qed.

Lemma print_print m1 m2 w : print m2 (print m1 w) = print (m1 ++ m2) w.
Proof. unfold print. cbn. now rewrite app_assoc. Qed.

Lemma print_nil w : print [] w = w.
Proof. destruct w. unfold print. cbn. now rewrite app_nil_r. Qed.

(** The track loop over inputs that all resolve, with room for the whole
    image. *)
Lemma track_loop_complete wavs : forall srcs i st,
  Forall2 (resolved (files (world st))) wavs srcs ->
  Z.of_nat (length (image_of srcs)) <= o_room (fbin st) ->
  exists its t,
    track_loop env i wavs st
    = StepNext (mkRun (print (appended_msgs wavs srcs) (world st))
                      (mkOFILE (o_content (fbin st) ++ image_of srcs)
                               (o_room (fbin st) - Z.of_nat (length (image_of srcs))))
                      its t).
Proof.
  induction wavs as [|wav wavs IH]; intros srcs i st Hall Hroom.
  - inversion Hall; subst. cbn [track_loop appended_msgs zip_with].
    exists (index_times st), (total_sectors_before st).
    change (image_of []) with (@nil byte). cbn [length Z.of_nat].
    rewrite print_nil, app_nil_r, Z.sub_0_r. destruct st as [w [c r] its t]. reflexivity.
  - inversion Hall as [|? src ? srcs' Hres Hrest]; subst.
    change (image_of (src :: srcs')) with (track_bytes src ++ image_of srcs') in *.
    rewrite length_app in Hroom.
    cbn [track_loop]. rewrite (process_track_complete i wav st src Hres) by lia.
    edestruct (IH srcs' (S i)) as (its & t & ->).
    + cbn [world print files]. exact Hrest.
    + cbn [fbin o_room]. lia.
    + cbn [world fbin o_content o_room]. exists its, t.
      rewrite print_print, <- app_assoc, length_app. cbn [appended_msgs zip_with app].
      do 3 f_equal. lia.
Qed.

Lemma track_loop_app l1 l2 : forall i st,
  track_loop env i (l1 ++ l2) st
  = match track_loop env i l1 st with
    | StepNext st1 => track_loop env (i + length l1) l2 st1
    | other => other
    end.
Proof.
  induction l1 as [|wav l1 IH]; intros i st; cbn [app track_loop length].
  - now rewrite Nat.add_0_r.
  - destruct (process_track env i wav st); [|reflexivity|reflexivity].
    rewrite IH. now rewrite Nat.add_succ_r.
Qed.

Lemma resolved_functional fs wavs srcs srcs' :
  Forall2 (resolved fs) wavs srcs -> Forall2 (resolved fs) wavs srcs' -> srcs = srcs'.
Proof.
  intros H. revert srcs'. induction H as [|wav src wavs srcs [R _] _ IH]; intros srcs' H'.
  - now inversion H'.
  - inversion H' as [|? src' ? srcs'' [R' _] Hrest]; subst.
    rewrite R in R'. injection R' as <-. f_equal. now apply IH.
Qed.

End Completion.

(** ** The padding of a track *)

(** C4.  For a payload of [len] bytes (a chunk size, so below [2 ^ 32]) the
    number of padding bytes computed on line 193 is
    [(2352 - len mod 2352) mod 2352]; it lies in [0, 2352) and
    [len + pad] is a multiple of 2352, which is also the value of [padded]
    on line 209.  The padding block never exhausts its trips; on a device
    with room for them it appends exactly [pad] zero bytes to the image and
    completes, and it cannot complete in any other way.  So does every trip
    of the track loop on an input that resolves to a payload of [len]
    bytes: it appends the payload followed by exactly [pad] zero bytes. *)
Theorem padding_law (len : Z) :
  0 <= len < 2 ^ 32 ->
  let pad := to_ulong (sector_pad len) in
  pad = (2352 - len mod 2352) mod 2352
  /\ 0 <= pad < 2352
  /\ (len + pad) mod 2352 = 0
  /\ padded_size len = len + pad
  /\ (forall fb, write_padding fb pad <> PadBudget)
  /\ (forall fb fb', write_padding fb pad = PadDone fb' ->
        o_content fb' = o_content fb ++ replicate (Z.to_nat pad) x00)
  /\ (forall fb, pad <= o_room fb ->
        write_padding fb pad
        = PadDone (mkOFILE (o_content fb ++ replicate (Z.to_nat pad) x00) (o_room fb - pad)))
  /\ (forall env i wav st src,
        resolved (files (world st)) wav src -> s_size src = len ->
        len + pad <= o_room (fbin st) ->
        exists st',
          process_track env i wav st = StepNext st'
          /\ o_content (fbin st')
             = o_content (fbin st) ++ payload src ++ replicate (Z.to_nat pad) x00
          /\ Z.of_nat (length (payload src ++ replicate (Z.to_nat pad) x00)) = len + pad).
Proof.
  intros H. cbv zeta.
  pose proof (spec_pad_range len) as R.
  rewrite sector_pad_spec, to_ulong_small by lia.
  split; [reflexivity|]. split; [exact R|]. split; [apply spec_pad_aligns|].
  split; [now apply padded_size_spec|]. split; [|split; [|split]].
  - intros fb. apply write_padding_budget. lia.
  - intros fb fb'. apply write_padding_done. lia.
  - intros fb Hroom. apply write_padding_complete; lia.
  - intros env i wav st src Hres Hlen Hroom. subst len.
    pose proof Hres as [_ Hok].
    pose proof (length_track_bytes src Hok) as L. rewrite spec_sectors_times in L.
    eexists. split; [apply (process_track_complete env i wav st src Hres); lia|].
    cbn [fbin o_content]. split; [reflexivity | exact L].
Qed.

Lemma padding_law_witness :
  0 <= 4700 < 2 ^ 32
  /\ to_ulong (sector_pad 4700) = 4
  /\ write_padding (mkOFILE (ramp 0 3) 10) 4
     = PadDone (mkOFILE (ramp 0 3 ++ replicate 4 x00) 6)
  /\ (exists st',
        process_track demo_env 0 "a.wav" (mkRun demo_world (mkOFILE [] 1000000) [0; 0] 0)
        = StepNext st'
        /\ o_content (fbin st') = [] ++ demo_a ++ replicate 4 x00
        /\ Z.of_nat (length (demo_a ++ replicate 4 x00)) = 4704)
  /\ let pad := to_ulong (sector_pad 4700) in
     pad = (2352 - 4700 mod 2352) mod 2352
     /\ 0 <= pad < 2352
     /\ (4700 + pad) mod 2352 = 0
     /\ padded_size 4700 = 4700 + pad
     /\ (forall fb, write_padding fb pad <> PadBudget)
     /\ (forall fb fb', write_padding fb pad = PadDone fb' ->
           o_content fb' = o_content fb ++ replicate (Z.to_nat pad) x00)
     /\ (forall fb, pad <= o_room fb ->
           write_padding fb pad
           = PadDone (mkOFILE (o_content fb ++ replicate (Z.to_nat pad) x00) (o_room fb - pad)))
     /\ (forall env i wav st src,
           resolved (files (world st)) wav src -> s_size src = 4700 ->
           4700 + pad <= o_room (fbin st) ->
           exists st',
             process_track env i wav st = StepNext st'
             /\ o_content (fbin st')
                = o_content (fbin st) ++ payload src ++ replicate (Z.to_nat pad) x00
             /\ Z.of_nat (length (payload src ++ replicate (Z.to_nat pad) x00)) = 4700 + pad).
Proof.
  pose proof (padding_law 4700 ltac:(lia)) as P. cbv zeta in P.
  split; [lia|]. split; [reflexivity|]. split; [|split; [|exact P]].
  - destruct P as (_ & _ & _ & _ & _ & _ & W & _).
    apply (W (mkOFILE (ramp 0 3) 10)). vm_compute; discriminate.
  - destruct P as (_ & _ & _ & _ & _ & _ & _ & T).
    apply (T demo_env 0%nat "a.wav" (mkRun demo_world (mkOFILE [] 1000000) [0; 0] 0)
             (mkSource (wav_file demo_a) 44 4700)).
    + split; [vm_compute; reflexivity|].
      repeat split; vm_compute; try reflexivity; discriminate.
    + reflexivity.
    + vm_compute; discriminate.
Defined.

Section Runs.

Variable env : Env.

Lemma argc_of_cons wav wavs : (argc_of (wav :: wavs) <? 2) = false.
Proof. unfold argc_of. cbn [length]. destruct (Z.ltb_spec (1 + Z.of_nat (S (length wavs))) 2); lia. Qed.

(** The track loop of a run over inputs that all resolve, with room for the
    image. *)
Lemma run_tracks_complete wavs srcs w :
  argc_of wavs <= INT_MAX ->
  Forall2 (resolved (<[bin_path := []]> (files w))) wavs srcs ->
  Z.of_nat (length (image_of srcs)) <= disk_room env ->
  run_tracks env wavs w
  = StepNext (mkRun (print (appended_msgs wavs srcs) (store bin_path [] w))
                    (mkOFILE (image_of srcs)
                             (disk_room env - Z.of_nat (length (image_of srcs))))
                    (map (start_sector srcs) (seq 0 (length wavs)))
                    (sumZ (sector_counts srcs))).
Proof.
  intros Hargc Hall Hroom.
  destruct (track_loop_complete env wavs srcs 0 (main_init env (to_int (argc_of wavs - 1)) w))
    as (its & t & R); [exact Hall | exact Hroom |].
  fold (run_tracks env wavs w) in R. cbn [main_init world fbin o_content o_room app] in R.
  destruct (run_tracks_next env wavs w _ Hargc R) as (srcs' & Hall' & _ & Htot & Hlen & Hidx).
  rewrite <- (resolved_functional _ _ _ _ Hall Hall') in Htot, Hidx.
  cbn [index_times total_sectors_before] in Htot, Hlen, Hidx.
  rewrite R. do 2 f_equal; [|exact Htot].
  apply list_eq. intros k. rewrite list_lookup_fmap.
  destruct (decide (k < length wavs)%nat) as [Hk|Hk].
  - rewrite (Hidx k Hk), lookup_seq_lt by exact Hk. reflexivity.
  - rewrite lookup_seq_ge by lia. apply lookup_ge_None. lia.
Qed.


End Runs.



(** ** Runs that stop at an input *)

Section Failures.

Variable env : Env.

(** The track loop up to the first input that does not resolve to a
    complete source: the inputs before it have been appended. *)
Lemma run_tracks_prefix good bad rest srcs w :
  Forall2 (resolved (<[bin_path := []]> (files w))) good srcs ->
  Z.of_nat (length (image_of srcs)) <= disk_room env ->
  exists its t,
    run_tracks env (good ++ bad :: rest) w
    = match process_track env (length good) bad
              (mkRun (print (appended_msgs good srcs) (store bin_path [] w))
                     (mkOFILE (image_of srcs)
                              (disk_room env - Z.of_nat (length (image_of srcs))))
                     its t) with
      | StepNext st => track_loop env (S (length good)) rest st
      | other => other
      end.
Proof.
  intros Hall Hroom. unfold run_tracks. rewrite track_loop_app.
  destruct (track_loop_complete env good srcs 0
              (main_init env (to_int (argc_of (good ++ bad :: rest) - 1)) w))
    as (its & t & ->); [exact Hall | exact Hroom |].
  exists its, t. reflexivity.
Qed.

(** A run that stops at the input [bad] returns 1 and leaves in [disc.bin]
    what the image stream holds at that point. *)
Lemma main_exit_at prog good bad rest srcs w W FB :
  can_create env bin_path = true -> malloc_ok env = true ->
  Forall2 (resolved (<[bin_path := []]> (files w))) good srcs ->
  Z.of_nat (length (image_of srcs)) <= disk_room env ->
  (forall its t, exists its' t',
      process_track env (length good) bad
        (mkRun (print (appended_msgs good srcs) (store bin_path [] w))
               (mkOFILE (image_of srcs) (disk_room env - Z.of_nat (length (image_of srcs))))
               its t)
      = StepExit (mkRun W FB its' t')) ->
  main env prog (good ++ bad :: rest) w = Exit 1 (store bin_path (o_content FB) W).
Proof.
  intros Hbin Hmal Hall Hroom Hstep. unfold main.
  assert ((argc_of (good ++ bad :: rest) <? 2) = false) as ->.
  { unfold argc_of. rewrite length_app. cbn [length].
    destruct (Z.ltb_spec (1 + Z.of_nat (length good + S (length rest))) 2); lia. }
  rewrite Hbin, Hmal. cbn [negb].
  destruct (run_tracks_prefix good bad rest srcs w Hall Hroom) as (its & t & ->).
  destruct (Hstep its t) as (its' & t' & ->). reflexivity.
Qed.

Lemma process_track_missing i wav st :
  fopen_rb (files (world st)) wav = None ->
  process_track env i wav st
  = StepExit (mkRun (eprint [perror env "open wav" wav] (world st)) (fbin st)
                    (index_times st) (total_sectors_before st)).
Proof. intros O. unfold process_track. now rewrite O. Qed.

Lemma process_track_rejected i wav st fin diag :
  fopen_rb (files (world st)) wav = Some fin -> parse_wav fin wav = ParseFail diag ->
  process_track env i wav st
  = StepExit (mkRun (eprint diag (world st)) (fbin st)
                    (index_times st) (total_sectors_before st)).
Proof. intros O P. unfold process_track. now rewrite O, P. Qed.

(** The payload loop on an input that ends before the declared size: the
    pieces of 8192 bytes that are all there are copied, then the read
    falls short. *)
Lemma copy_loop_short budget : forall content pos fb remaining,
  let avail := Z.of_nat (length (drop (Z.to_nat pos) content)) in
  avail < remaining < 2 ^ 64 -> 0 <= pos ->
  8192 * (avail / 8192) <= o_room fb ->
  (Z.to_nat (remaining / 8192) < budget)%nat ->
  copy_loop budget (mkFILE content pos) fb remaining
  = CopyShortRead (mkOFILE (o_content fb ++ take (Z.to_nat (8192 * (avail / 8192)))
                                                 (drop (Z.to_nat pos) content))
                           (o_room fb - 8192 * (avail / 8192))).
Proof.
  induction budget as [|budget IH]; intros content pos fb r avail Hr Hpos Hroom Hb; [lia|].
  assert (0 <= avail) as Hav by (subst avail; lia).
  cbn [copy_loop]. destruct (Z.gtb_spec r 0) as [Hgt|Hz]; [|lia].
  cbv zeta. set (chunk := if r >? 8192 then 8192 else r).
  assert (0 < chunk <= r) as Hc by (subst chunk; destruct (Z.gtb_spec r 8192); lia).
  assert (chunk = r \/ chunk = 8192 /\ 8192 < r) as Hch
      by (subst chunk; destruct (Z.gtb_spec r 8192); lia).
  assert (chunk <= 8192) as Hle by (subst chunk; destruct (Z.gtb_spec r 8192); lia).
  clearbody chunk.
  destruct (Z.lt_ge_cases avail chunk) as [Hlt|Hge].
  - unfold fread. cbn [f_pos f_content].
    rewrite take_ge by (fold avail; lia). fold avail.
    destruct (Z.eqb_spec avail chunk) as [|_]; [lia|]. cbn [negb].
    assert (avail / 8192 = 0) as -> by (apply Z.div_small; lia).
    cbn [Z.mul Z.to_nat take]. rewrite app_nil_r, Z.sub_0_r. destruct fb. reflexivity.
  - destruct Hch as [Heq|[Hch Hbig]]; [lia|]. subst chunk.
    assert (avail / 8192 = (avail - 8192) / 8192 + 1) as Hdiv.
    { replace avail with ((avail - 8192) + 1 * 8192) at 1 by lia.
      rewrite Z.div_add by lia. reflexivity. }
    assert (0 <= (avail - 8192) / 8192) as Hq by (apply Z.div_pos; lia).
    rewrite (fread_at content pos (take (Z.to_nat 8192) (drop (Z.to_nat pos) content))
                      (drop (Z.to_nat 8192) (drop (Z.to_nat pos) content)) 8192);
      [|exact Hpos | now rewrite take_drop | rewrite length_take; fold avail; lia].
    rewrite length_take. fold avail.
    rewrite Nat2Z.inj_min, Z2Nat.id, Z.min_l, Z.eqb_refl by lia. cbn [negb].
    rewrite fwrite_fits by (rewrite length_take; fold avail; lia).
    rewrite length_take. fold avail.
    rewrite Nat2Z.inj_min, Z2Nat.id, Z.min_l, Z.eqb_refl by lia. cbn [negb].
    rewrite ul_sub_small by lia.
    assert (Z.of_nat (length (drop (Z.to_nat (pos + 8192)) content)) = avail - 8192) as Hav'.
    { rewrite Z2Nat.inj_add, <- drop_drop, length_drop by lia. fold avail. lia. }
    rewrite IH.
    + cbn [o_content o_room]. rewrite Hav', Hdiv. do 2 f_equal; [|lia].
      rewrite <- app_assoc. f_equal.
      rewrite Z2Nat.inj_add, <- drop_drop, take_take_drop by lia. f_equal. lia.
    + lia.
    + lia.
    + cbn [o_room]. rewrite Hav'. lia.
    + pose proof (trips_step r Hbig) as T. unfold trips in T. lia.
Qed.

Lemma process_track_short_read i wav st src :
  resolve (files (world st)) wav = Some src ->
  let avail := Z.of_nat (length (payload src)) in
  avail < s_size src ->
  8192 * (avail / 8192) <= o_room (fbin st) ->
  process_track env i wav st
  = StepExit (mkRun (eprint [wav +:+ ": short read" +:+ nl] (world st))
                    (mkOFILE (o_content (fbin st)
                                ++ take (Z.to_nat (8192 * (avail / 8192))) (payload src))
                             (o_room (fbin st) - 8192 * (avail / 8192)))
                    (<[i := total_sectors_before st]> (index_times st))
                    (total_sectors_before st)).
Proof.
  intros Hres avail Hshort Hroom.
  destruct (resolve_inv _ _ _ Hres) as (fin & f' & O & C & P0 & I & P & C' & Hs & Ho).
  assert (avail = Z.of_nat (length (drop (Z.to_nat (s_ofs src)) (s_content src)))) as Hav.
  { subst avail. unfold payload in *. rewrite length_take in *. lia. }
  assert (payload src = drop (Z.to_nat (s_ofs src)) (s_content src)) as Hpay.
  { unfold payload. apply take_ge. lia. }
  unfold process_track. rewrite O, P, to_long_small by exact Ho.
  unfold fseek_set, seekable.
  destruct (Z.leb_spec 0 (s_ofs src)); [|lia].
  destruct (Z.leb_spec (s_ofs src) LONG_MAX); [|lia]. cbn [andb].
  rewrite C', copy_loop_short; rewrite <- ?Hav, <- ?Hpay; try lia; [reflexivity|].
  unfold trips. lia.
Qed.

End Failures.

(** X6.  A run stops at the first input that cannot be opened: the inputs
    before it have been appended (and reported on stdout), [perror] writes
    "open wav: ..." to stderr, the exit status is 1, [disc.bin] is left
    with the tracks appended so far, no cue sheet is written and the
    inputs behind the missing one are not looked at. *)
Theorem missing_input_stops_run env prog good bad rest srcs w :
  can_create env bin_path = true -> malloc_ok env = true ->
  Forall2 (resolved (<[bin_path := []]> (files w))) good srcs ->
  Z.of_nat (length (image_of srcs)) <= disk_room env ->
  files w !! bad = None -> bad <> bin_path ->
  main env prog (good ++ bad :: rest) w
  = Exit 1 (mkWorld (<[bin_path := image_of srcs]> (files w))
                    (stderr w ++ [perror env "open wav" bad])
                    (stdout w ++ appended_msgs good srcs)).
Proof.
  intros Hbin Hmal Hall Hroom Hnone Hne.
  rewrite (main_exit_at env prog good bad rest srcs w
             (eprint [perror env "open wav" bad]
                     (print (appended_msgs good srcs) (store bin_path [] w)))
             (mkOFILE (image_of srcs) (disk_room env - Z.of_nat (length (image_of srcs))))
             Hbin Hmal Hall Hroom).
  - unfold store, eprint, print. cbn [files stderr stdout o_content].
    now rewrite insert_insert_eq.
  - intros its t. exists its, t. apply process_track_missing.
    unfold fopen_rb. cbn [world print store files].
    rewrite lookup_insert_ne by congruence. now rewrite Hnone.
Qed.

(** X7.  A run stops at the first input that [parse_wav] rejects: the
    diagnostics of [parse_wav] are all that reaches stderr, the exit status
    is 1, [disc.bin] is left with the tracks appended so far and no cue
    sheet is written. *)
Theorem rejected_input_stops_run env prog good bad rest srcs w content diag :
  can_create env bin_path = true -> malloc_ok env = true ->
  Forall2 (resolved (<[bin_path := []]> (files w))) good srcs ->
  Z.of_nat (length (image_of srcs)) <= disk_room env ->
  files w !! bad = Some content -> bad <> bin_path ->
  Z.of_nat (length content) <= LONG_MAX ->
  parse_wav (mkFILE content 0) bad = ParseFail diag ->
  main env prog (good ++ bad :: rest) w
  = Exit 1 (mkWorld (<[bin_path := image_of srcs]> (files w))
                    (stderr w ++ diag)
                    (stdout w ++ appended_msgs good srcs)).
Proof.
  intros Hbin Hmal Hall Hroom Hsome Hne Hlen Hparse.
  rewrite (main_exit_at env prog good bad rest srcs w
             (eprint diag (print (appended_msgs good srcs) (store bin_path [] w)))
             (mkOFILE (image_of srcs) (disk_room env - Z.of_nat (length (image_of srcs))))
             Hbin Hmal Hall Hroom).
  - unfold store, eprint, print. cbn [files stderr stdout o_content].
    now rewrite insert_insert_eq.
  - intros its t. exists its, t.
    rewrite (process_track_rejected env (length good) bad _ (mkFILE content 0) diag);
      [reflexivity| |exact Hparse].
    unfold fopen_rb. cbn [world print store files].
    rewrite lookup_insert_ne, Hsome by congruence.
    destruct (Z.leb_spec (Z.of_nat (length content)) LONG_MAX); [reflexivity | lia].
Qed.

(** X8.  [parse_wav] does not check that the payload is there.  An input
    whose data chunk declares more bytes than the file holds behind its
    header is accepted by the parser and fails in the copy loop: the pieces
    of 8192 bytes that are complete are appended to the image, then
    "<name>: short read" is written to stderr and the run returns 1 without
    a cue sheet. *)
Theorem truncated_payload_stops_run env prog good bad rest srcs src w :
  can_create env bin_path = true -> malloc_ok env = true ->
  Forall2 (resolved (<[bin_path := []]> (files w))) good srcs ->
  resolve (<[bin_path := []]> (files w)) bad = Some src ->
  let avail := Z.of_nat (length (payload src)) in
  let copied := 8192 * (avail / 8192) in
  avail < s_size src ->
  Z.of_nat (length (image_of srcs)) + copied <= disk_room env ->
  main env prog (good ++ bad :: rest) w
  = Exit 1 (mkWorld (<[bin_path := image_of srcs ++ take (Z.to_nat copied) (payload src)]>
                       (files w))
                    (stderr w ++ [bad +:+ ": short read" +:+ nl])
                    (stdout w ++ appended_msgs good srcs)).
Proof.
  intros Hbin Hmal Hall Hres avail copied Hshort Hroom.
  assert (0 <= copied) as Hcop.
  { subst copied. apply Z.mul_nonneg_nonneg; [lia|]. apply Z.div_pos; subst avail; lia. }
  rewrite (main_exit_at env prog good bad rest srcs w
             (eprint [bad +:+ ": short read" +:+ nl]
                     (print (appended_msgs good srcs) (store bin_path [] w)))
             (mkOFILE (image_of srcs ++ take (Z.to_nat copied) (payload src))
                      (disk_room env - Z.of_nat (length (image_of srcs)) - copied))
             Hbin Hmal Hall ltac:(lia)).
  - unfold store, eprint, print. cbn [files stderr stdout o_content].
    now rewrite insert_insert_eq.
  - intros its t. eexists _, _.
    rewrite (process_track_short_read env (length good) bad _ src);
      cbn [world print store files fbin o_room o_content].
    + fold avail copied. reflexivity.
    + exact Hres.
    + exact Hshort.
    + fold avail copied. lia.
Qed.

Lemma missing_input_stops_run_witness :
  main demo_env "mkcdda" (["s.wav"] ++ "nope.wav" :: ["e.wav"]) mixed_world
  = Exit 1 (mkWorld (<[bin_path := image_of [mkSource (wav_file (ramp 1 6)) 44 6]]>
                       (files mixed_world))
                    ([] ++ [perror demo_env "open wav" "nope.wav"])
                    ([] ++ appended_msgs ["s.wav"] [mkSource (wav_file (ramp 1 6)) 44 6])).
Proof.
  apply (missing_input_stops_run demo_env "mkcdda" ["s.wav"] "nope.wav" ["e.wav"]
           [mkSource (wav_file (ramp 1 6)) 44 6] mixed_world).
  - reflexivity.
  - reflexivity.
  - repeat constructor; vm_compute; try reflexivity; discriminate.
  - vm_compute; discriminate.
  - reflexivity.
  - discriminate.
Defined.

Lemma rejected_input_stops_run_witness :
  main demo_env "mkcdda" (["s.wav"] ++ "d.wav" :: ["e.wav"]) mixed_world
  = Exit 1 (mkWorld (<[bin_path := image_of [mkSource (wav_file (ramp 1 6)) 44 6]]>
                       (files mixed_world))
                    ([] ++ [msg_bad_format "d.wav"])
                    ([] ++ appended_msgs ["s.wav"] [mkSource (wav_file (ramp 1 6)) 44 6])).
Proof.
  apply (rejected_input_stops_run demo_env "mkcdda" ["s.wav"] "d.wav" ["e.wav"]
           [mkSource (wav_file (ramp 1 6)) 44 6] mixed_world dat_file).
  - reflexivity.
  - reflexivity.
  - repeat constructor; vm_compute; try reflexivity; discriminate.
  - vm_compute; discriminate.
  - reflexivity.
  - discriminate.
  - vm_compute; discriminate.
  - vm_compute; reflexivity.
Defined.

Lemma truncated_payload_stops_run_witness :
  main demo_env "mkcdda" (["s.wav"] ++ "c.wav" :: ["e.wav"]) mixed_world
  = Exit 1 (mkWorld (<[bin_path := image_of [mkSource (wav_file (ramp 1 6)) 44 6]
                                     ++ replicate (Z.to_nat 8192) "U"%byte]>
                       (files mixed_world))
                    ([] ++ ["c.wav" +:+ ": short read" +:+ nl])
                    ([] ++ appended_msgs ["s.wav"] [mkSource (wav_file (ramp 1 6)) 44 6])).
Proof.
  apply (truncated_payload_stops_run demo_env "mkcdda" ["s.wav"] "c.wav" ["e.wav"]
           [mkSource (wav_file (ramp 1 6)) 44 6] (mkSource cut_payload_file 44 10000)
           mixed_world).
  - reflexivity.
  - reflexivity.
  - repeat constructor; vm_compute; try reflexivity; discriminate.
  - vm_compute; reflexivity.
  - vm_compute; reflexivity.
  - vm_compute; discriminate.
Defined.

(** X9.  The image path given as the first input: [disc.bin] has been
    truncated by the [fopen] of line 124 before the input of that name is
    opened for reading, so the input is empty, [parse_wav] answers "cannot
    read RIFF header", the run returns 1, and the file that was there is
    lost. *)
Theorem image_path_as_first_input env prog rest w :
  can_create env bin_path = true -> malloc_ok env = true ->
  main env prog (bin_path :: rest) w
  = Exit 1 (mkWorld (<[bin_path := []]> (files w))
                    (stderr w ++ [msg_no_header bin_path]) (stdout w)).
Proof.
  intros Hbin Hmal. unfold main. rewrite argc_of_cons, Hbin, Hmal. cbn [negb].
  unfold run_tracks. cbn [track_loop].
  rewrite (process_track_rejected env 0 bin_path _ (mkFILE [] 0) [msg_no_header bin_path]).
  - unfold close_bin, store, eprint. cbn [world fbin main_init files stderr stdout o_content].
    unfold store. cbn [files stderr stdout]. now rewrite insert_insert_eq.
  - unfold fopen_rb. cbn [main_init world store files]. now rewrite lookup_insert_eq.
  - reflexivity.
Qed.

Lemma image_path_as_first_input_witness :
  main demo_env "mkcdda" (bin_path :: ["s.wav"])
       (store bin_path (wav_file (ramp 1 6)) tiny_world)
  = Exit 1 (mkWorld (<[bin_path := []]> (files (store bin_path (wav_file (ramp 1 6)) tiny_world)))
                    ([] ++ [msg_no_header bin_path]) []).
Proof.
  apply (image_path_as_first_input demo_env "mkcdda" ["s.wav"]
           (store bin_path (wav_file (ramp 1 6)) tiny_world)); reflexivity.
Defined.

(** ** What a run touches *)

Section Frames.

Variable env : Env.

(** What one trip of the track loop does to the file system and to the two
    output streams. *)
Lemma process_track_frame i wav st :
  match process_track env i wav st with
  | StepNext st' =>
      files (world st') = files (world st) /\ stderr (world st') = stderr (world st)
      /\ exists m, stdout (world st') = stdout (world st) ++ [m]
  | StepExit st' =>
      files (world st') = files (world st) /\ stdout (world st') = stdout (world st)
      /\ exists e, stderr (world st') = stderr (world st) ++ e
  | StepBudget => True
  end.
Proof.
  unfold process_track.
  destruct (fopen_rb _ wav) as [fin|]; [|cbn; eauto].
  destruct (parse_wav fin wav) as [fin1 ofs size|diag|]; [|cbn; eauto|exact I].
  destruct (fseek_set _ fin1) as [fin2|]; [|cbn; eauto].
  destruct (copy_loop _ fin2 (fbin st) size) as [fin3 fb1|fb1|fb1|]; [|cbn; eauto..|exact I].
  destruct (write_padding fb1 _) as [fb2|fb2|]; [cbn; eauto..|exact I].
Qed.

Lemma track_loop_frame wavs : forall i st,
  match track_loop env i wavs st with
  | StepNext st' =>
      files (world st') = files (world st) /\ stderr (world st') = stderr (world st)
      /\ exists o, stdout (world st') = stdout (world st) ++ o /\ length o = length wavs
  | StepExit st' =>
      files (world st') = files (world st)
      /\ (exists o, stdout (world st') = stdout (world st) ++ o
                    /\ (length o < length wavs)%nat)
      /\ exists e, stderr (world st') = stderr (world st) ++ e
  | StepBudget => True
  end.
Proof.
  induction wavs as [|wav wavs IH]; intros i st; cbn [track_loop].
  - split; [reflexivity|]. split; [reflexivity|]. exists []. now rewrite app_nil_r.
  - pose proof (process_track_frame i wav st) as P.
    destruct (process_track env i wav st) as [st1|st1|]; [|cbn [length]|exact I].
    + destruct P as (F & E & m & O). specialize (IH (S i) st1).
      destruct (track_loop env (S i) wavs st1) as [st2|st2|]; [| |exact I].
      * destruct IH as (F2 & E2 & o & O2 & L2).
        split; [congruence|]. split; [congruence|]. exists (m :: o).
        split; [rewrite O2, O, <- app_assoc; reflexivity | cbn; lia].
      * destruct IH as (F2 & (o & O2 & L2) & e & E2).
        split; [congruence|]. split.
        -- exists (m :: o). split; [rewrite O2, O, <- app_assoc; reflexivity | cbn; lia].
        -- exists e. congruence.
    + destruct P as (F & O & e & E). split; [exact F|]. split; [|eauto].
      exists []. split; [now rewrite app_nil_r | cbn; lia].
Qed.

(** The outcome of [main], case by case. *)
Lemma main_cases prog wavs w s w' :
  main env prog wavs w = Exit s w' ->
  (s = 1 /\ files w' = files w /\ stdout w' = stdout w)
  \/ (s = 1 /\ wavs <> []
      /\ exists content o e,
           files w' = <[bin_path := content]> (files w)
           /\ stdout w' = stdout w ++ o /\ (length o <= length wavs)%nat
           /\ stderr w' = stderr w ++ e)
  \/ (s = 0 /\ wavs <> []
      /\ exists content text o,
           files w' = <[bin_path := content]> (<[cue_path := text]> (files w))
           /\ stdout w' = stdout w ++ o ++ [msg_done (to_int (argc_of wavs - 1))]
           /\ length o = length wavs
           /\ stderr w' = stderr w).
Proof.
  unfold main. destruct (Z.ltb_spec (argc_of wavs) 2) as [|Hargc].
  { intros [= <- <-]. left. auto. }
  assert (wavs <> []) as Hne.
  { intros ->. unfold argc_of in Hargc. cbn in Hargc. lia. }
  destruct (can_create env bin_path); cbn [negb].
  2: { intros [= <- <-]. left. auto. }
  destruct (malloc_ok env); cbn [negb].
  2: { intros [= <- <-]. right. left. split; [reflexivity|]. split; [exact Hne|].
       exists [], [], ["Out of memory" +:+ nl]. unfold close_bin, store, eprint.
       cbn [world fbin o_content files stderr stdout].
       rewrite insert_insert_eq, app_nil_r. repeat split; auto. cbn. lia. }
  unfold run_tracks.
  pose proof (track_loop_frame wavs 0 (main_init env (to_int (argc_of wavs - 1)) w)) as T.
  destruct (track_loop env 0 wavs _) as [st|st|]; [| |discriminate].
  - destruct T as (F & E & o & O & L).
    cbn [main_init world store files stderr stdout] in F, E, O.
    destruct (can_create env cue_path); cbn [negb].
    + destruct (cue_lines _ _) as [lines|]; [|discriminate].
      intros [= <- <-]. right. right. split; [reflexivity|]. split; [exact Hne|].
      exists (o_content (fbin st)), (bytes_of (concat_lines lines)), o.
      unfold print, store. cbn [files stderr stdout].
      rewrite F, O, E, <- app_assoc.
      rewrite (insert_insert_ne (<[bin_path:=[]]> (files w)) bin_path cue_path) by discriminate.
      rewrite insert_insert_eq, (insert_insert_ne (files w) cue_path bin_path) by discriminate.
      auto.
    + intros [= <- <-]. right. left. split; [reflexivity|]. split; [exact Hne|].
      exists (o_content (fbin st)), o, [perror env "open disc.cue" cue_path].
      unfold close_bin, store, eprint. cbn [world fbin files stderr stdout].
      rewrite F, O, E, insert_insert_eq. repeat split; auto. lia.
  - destruct T as (F & (o & O & L) & e & E).
    cbn [main_init world store files stderr stdout] in F, E, O.
    intros [= <- <-]. right. left. split; [reflexivity|]. split; [exact Hne|].
    exists (o_content (fbin st)), o, e.
    unfold close_bin, store. cbn [files stderr stdout].
    rewrite F, O, E, insert_insert_eq. repeat split; auto. lia.
Qed.

End Frames.


(** X11.  [main] returns 0 or 1.  A run that returns 1 leaves [disc.cue]
    as it was: the cue sheet is written only when every track has been
    appended.  A run that has got as far as opening the inputs leaves a
    file [disc.bin] behind in either case. *)
Theorem exit_status_and_cue env prog wavs w s w' :
  main env prog wavs w = Exit s w' ->
  (s = 0 \/ s = 1)
  /\ (s = 1 -> files w' !! cue_path = files w !! cue_path)
  /\ (s = 0 -> files w' !! cue_path <> None /\ files w' !! bin_path <> None).
Proof.
  intros M.
  destruct (main_cases env prog wavs w s w' M)
    as [(-> & F & _)|[(-> & _ & c & o & e & F & _)|(-> & _ & c & t & o & F & _)]];
    rewrite F.
  - split; [auto|]. split; [reflexivity | discriminate].
  - split; [auto|]. split; [|discriminate]. intros _.
    now rewrite lookup_insert_ne by discriminate.
  - split; [auto|]. split; [discriminate|]. intros _.
    rewrite lookup_insert_eq, lookup_insert_ne, lookup_insert_eq by discriminate.
    split; discriminate.
Qed.

(** X12.  A run that returns 0 has written nothing to stderr, and to stdout
    one line per input followed by the closing line. *)
Theorem successful_run_is_quiet env prog wavs w w' :
  main env prog wavs w = Exit 0 w' ->
  stderr w' = stderr w
  /\ exists o, stdout w' = stdout w ++ o ++ [msg_done (to_int (argc_of wavs - 1))]
               /\ length o = length wavs.
Proof.
  intros M.
  destruct (main_cases env prog wavs w 0 w' M)
    as [([=] & _)|[([=] & _)|(_ & _ & c & t & o & _ & O & L & E)]].
  split; [exact E|]. exists o. auto.
Qed.


Lemma exit_status_and_cue_witness :
  exists s w',
    main demo_env "mkcdda" ["s.wav"; "nope.wav"] tiny_world = Exit s w'
    /\ s = 1
    /\ (s = 0 \/ s = 1)
    /\ (s = 1 -> files w' !! cue_path = files tiny_world !! cue_path)
    /\ (s = 0 -> files w' !! cue_path <> None /\ files w' !! bin_path <> None).
Proof.
  eexists _, _. split; [vm_compute; reflexivity|]. split; [reflexivity|].
  apply (exit_status_and_cue demo_env "mkcdda" ["s.wav"; "nope.wav"] tiny_world).
  vm_compute; reflexivity.
Defined.

Lemma successful_run_is_quiet_witness :
  exists w',
    main demo_env "mkcdda" tiny_wavs tiny_world = Exit 0 w'
    /\ stderr w' = stderr tiny_world
    /\ exists o, stdout w' = stdout tiny_world ++ o
                              ++ [msg_done (to_int (argc_of tiny_wavs - 1))]
                 /\ length o = length tiny_wavs.
Proof.
  eexists. split; [vm_compute; reflexivity|].
  apply (successful_run_is_quiet demo_env "mkcdda" tiny_wavs tiny_world).
  vm_compute; reflexivity.
Defined.

(** ** Fresh memory *)

Section FreshMemory.

Variable env : Env.

(** One trip of the track loop reads nothing of [index_times]: it stores
    entry [i]. *)
Lemma process_track_its i wav w fb its1 its2 t :
  match process_track env i wav (mkRun w fb its1 t),
        process_track env i wav (mkRun w fb its2 t) with
  | StepNext a, StepNext b =>
      world a = world b /\ fbin a = fbin b
      /\ total_sectors_before a = total_sectors_before b
      /\ index_times a = <[i := t]> its1 /\ index_times b = <[i := t]> its2
  | StepExit a, StepExit b => world a = world b /\ fbin a = fbin b
  | StepBudget, StepBudget => True
  | _, _ => False
  end.
Proof.
  unfold process_track. cbn [world fbin index_times total_sectors_before].
  destruct (fopen_rb _ wav) as [fin|]; [|auto].
  destruct (parse_wav fin wav) as [fin1 ofs size|diag|]; [|auto|exact I].
  destruct (fseek_set _ fin1) as [fin2|]; [|auto].
  destruct (copy_loop _ fin2 fb size) as [fin3 fb1|fb1|fb1|]; [|auto..|exact I].
  destruct (write_padding fb1 _) as [fb2|fb2|]; [cbn; auto 6|auto|exact I].
Qed.

Lemma track_loop_its wavs : forall i w fb its1 its2 t,
  length its1 = length its2 ->
  (forall k, (k < i)%nat -> its1 !! k = its2 !! k) ->
  match track_loop env i wavs (mkRun w fb its1 t),
        track_loop env i wavs (mkRun w fb its2 t) with
  | StepNext a, StepNext b =>
      world a = world b /\ fbin a = fbin b
      /\ total_sectors_before a = total_sectors_before b
      /\ length (index_times a) = length its1
      /\ length (index_times b) = length its2
      /\ (forall k, (k < i + length wavs)%nat -> index_times a !! k = index_times b !! k)
  | StepExit a, StepExit b => world a = world b /\ fbin a = fbin b
  | StepBudget, StepBudget => True
  | _, _ => False
  end.
Proof.
  induction wavs as [|wav wavs IH]; intros i w fb its1 its2 t Hlen Hagree; cbn [track_loop].
  - cbn. rewrite Nat.add_0_r. auto 7.
  - pose proof (process_track_its i wav w fb its1 its2 t) as P.
    destruct (process_track env i wav (mkRun w fb its1 t)) as [[w1 fb1 a1 t1]|a|];
      destruct (process_track env i wav (mkRun w fb its2 t)) as [[w2 fb2 a2 t2]|b|];
      try contradiction; try exact P.
    cbn in P. destruct P as (-> & -> & -> & -> & ->).
    specialize (IH (S i) w2 fb2 (<[i:=t]> its1) (<[i:=t]> its2) t2).
    rewrite !length_insert in IH. specialize (IH Hlen).
    assert (forall k, (k < S i)%nat -> <[i:=t]> its1 !! k = <[i:=t]> its2 !! k) as Hagree'.
    { intros k Hk. destruct (decide (k = i)) as [->|Hne].
      - destruct (decide (i < length its1)%nat).
        + rewrite !list_lookup_insert_eq by lia. reflexivity.
        + rewrite !(proj2 (lookup_ge_None _ _)) by (rewrite length_insert; lia). reflexivity.
      - rewrite !list_lookup_insert_ne by congruence. apply Hagree. lia. }
    specialize (IH Hagree').
    destruct (track_loop env (S i) wavs _) as [a| |];
      destruct (track_loop env (S i) wavs _) as [b| |]; try contradiction; try exact IH.
    destruct IH as (? & ? & ? & ? & ? & Hk). repeat split; try assumption.
    intros k Hlt. apply Hk. cbn [length] in Hlt. lia.
Qed.

End FreshMemory.

(** X13.  The array [index_times] comes from [malloc] and is not
    initialised.  Its initial content never shows: every entry that the cue
    loop reads has been stored by the track loop before, so the outcome of
    a run is the same whatever the fresh memory holds. *)
Theorem fresh_memory_never_read env junk prog wavs w :
  argc_of wavs <= INT_MAX ->
  main (with_heap env junk) prog wavs w = main env prog wavs w.
Proof.
  intros Hargc. unfold main, with_heap. cbn [can_create malloc_ok disk_room].
  destruct (argc_of wavs <? 2); [reflexivity|].
  destruct (negb (can_create env bin_path)); [reflexivity|].
  destruct (negb (malloc_ok env)); [reflexivity|].
  unfold run_tracks, main_init. cbn [heap_junk disk_room].
  set (n := Z.to_nat (to_int (argc_of wavs - 1))).
  assert (n = length wavs) as Hn by (apply ntracks_of_argc, Hargc).
  pose proof (track_loop_its env wavs 0 (store bin_path [] w) (mkOFILE [] (disk_room env))
                (map junk (seq 0 n)) (map (heap_junk env) (seq 0 n)) 0) as T.
  rewrite !length_map in T. specialize (T eq_refl ltac:(intros; lia)).
  assert (forall i st, track_loop
            (mkEnv (can_create env) (malloc_ok env) (disk_room env) junk (strerror env))
            i wavs st = track_loop env i wavs st) as E.
  { clear. induction wavs as [|wav wavs IH]; intros i st; [reflexivity|].
    cbn [track_loop]. change (process_track _ i wav st) with (process_track env i wav st).
    destruct (process_track env i wav st); auto. }
  rewrite E. clear E.
  destruct (track_loop env 0 wavs _) as [[w1 fb1 a1 t1]| [w1 fb1 a1 t1] |];
    destruct (track_loop env 0 wavs _) as [[w2 fb2 a2 t2]| [w2 fb2 a2 t2] |];
    try contradiction; try reflexivity.
  - cbn in T. destruct T as (-> & -> & -> & L1 & L2 & Hk).
    assert (a1 = a2) as ->; [|reflexivity].
    apply list_eq. intros k. destruct (decide (k < length wavs)%nat).
    + apply Hk. lia.
    + rewrite length_seq in L1, L2.
      rewrite !(proj2 (lookup_ge_None _ _)) by lia. reflexivity.
  - cbn in T. destruct T as (-> & ->). reflexivity.
Qed.

Lemma fresh_memory_never_read_witness :
  main (with_heap demo_env (fun _ => 0)) "mkcdda" tiny_wavs tiny_world
  = main demo_env "mkcdda" tiny_wavs tiny_world.
Proof.
  apply (fresh_memory_never_read demo_env (fun _ => 0) "mkcdda" tiny_wavs tiny_world).
  vm_compute; discriminate.
Defined.

(** ** Layout of the cue sheet *)

Section CueLayout.

Lemma cue_index_line_text s l :
  cue_index_line s = Some l -> l = "    INDEX 01 " +:+ mmssff_from_sectors s +:+ nl.
Proof. unfold cue_index_line. destruct (_ <? _)%nat; [|discriminate]. now intros [= <-]. Qed.

Lemma track_line_not_pregap i : cue_track_line i <> cue_pregap_line.
Proof. unfold cue_track_line, cue_pregap_line. cbn [String.append]. discriminate. Qed.

Lemma index_line_not_pregap s l : cue_index_line s = Some l -> l <> cue_pregap_line.
Proof.
  intros H. apply cue_index_line_text in H. subst l.
  unfold cue_pregap_line. cbn [String.append]. discriminate.
Qed.

(** The lines of the tracks behind the first: two per track, none of them
    a pregap. *)
Lemma cue_loop_layout its : forall n i0 lines,
  cue_loop n i0 its = Some lines ->
  0 < i0 -> i0 + Z.of_nat n <= INT_MAX ->
  length lines = (2 * n)%nat
  /\ (forall k, (k < n)%nat ->
        lines !! (2 * k + 1)%nat
        = Some ("    INDEX 01 "
                  +:+ mmssff_from_sectors (nth (Z.to_nat (i0 + Z.of_nat k)) its 0) +:+ nl))
  /\ Forall (fun l => l <> cue_pregap_line) lines.
Proof.
  induction n as [|n IH]; intros i0 lines H Hi Hmax.
  - injection H as <-. split; [reflexivity|]. split; [intros k Hk; lia | constructor].
  - cbn [cue_loop] in H.
    destruct (cue_index_line _) as [index_line|] eqn:X; [|discriminate].
    rewrite to_int_small in H by (unfold INT_MAX in *; lia).
    destruct (cue_loop n (i0 + 1) its) as [rest|] eqn:R; [|discriminate].
    destruct (Z.eqb_spec i0 0) as [|_]; [lia|]. injection H as <-.
    destruct (IH _ _ R ltac:(lia) ltac:(lia)) as (L & K & F).
    cbn [app length]. split; [lia|]. split.
    + intros [|k] Hk.
      * cbn. rewrite Z.add_0_r. f_equal. now apply cue_index_line_text.
      * replace (2 * S k + 1)%nat with (S (S (2 * k + 1))) by lia. cbn [lookup list_lookup].
        rewrite K by lia. do 5 f_equal. lia.
    + constructor; [apply track_line_not_pregap|].
      constructor; [eapply index_line_not_pregap, X | exact F].
Qed.

End CueLayout.

(** X14.  The cue sheet of [n >= 1] tracks has [2 n + 2] lines: the FILE
    line, then for every track its TRACK line and its INDEX 01 line, which
    carries the timecode of the track's starting sector.  The PREGAP line
    is written once, between the two lines of the first track, and nowhere
    else. *)
Theorem cue_sheet_layout ntracks its lines :
  cue_lines ntracks its = Some lines ->
  (0 < ntracks)%nat -> Z.of_nat ntracks < INT_MAX ->
  length lines = (2 * ntracks + 2)%nat
  /\ lines !! 0%nat = Some cue_header
  /\ (forall k, lines !! k = Some cue_pregap_line <-> k = 2%nat)
  /\ (forall i, (i < ntracks)%nat ->
        lines !! (2 * i + 3)%nat
        = Some ("    INDEX 01 " +:+ mmssff_from_sectors (nth i its 0) +:+ nl)).
Proof.
  intros H Hn Hmax. destruct ntracks as [|n]; [lia|].
  unfold cue_lines in H. cbn [cue_loop] in H.
  destruct (cue_index_line _) as [index_line|] eqn:X; [|discriminate].
  rewrite to_int_small in H by (unfold INT_MAX; lia).
  destruct (cue_loop n (0 + 1) its) as [rest|] eqn:R; [|discriminate].
  change (0 =? 0) with true in H. cbv iota in H. injection H as <-.
  destruct (cue_loop_layout _ _ _ _ R ltac:(lia) ltac:(lia)) as (L & K & F).
  cbn [app length]. split; [lia|]. split; [reflexivity|]. split.
  - intros k. split.
    + destruct k as [|[|[|[|k]]]]; cbn [lookup list_lookup]; intros E.
      * discriminate.
      * exfalso. apply (track_line_not_pregap 0). congruence.
      * reflexivity.
      * exfalso. apply (index_line_not_pregap _ _ X). congruence.
      * rewrite Forall_lookup in F. now apply F in E.
    + intros ->. reflexivity.
  - intros [|i] Hi.
    + cbn. f_equal. now apply cue_index_line_text.
    + replace (2 * S i + 3)%nat with (S (S (S (S (2 * i + 1))))) by lia.
      cbn [lookup list_lookup]. rewrite K by lia. do 5 f_equal. lia.
Qed.

Lemma cue_sheet_layout_witness :
  exists lines,
    cue_lines 3 [0; 1; 1] = Some lines
    /\ length lines = (2 * 3 + 2)%nat
    /\ lines !! 0%nat = Some cue_header
    /\ (forall k, lines !! k = Some cue_pregap_line <-> k = 2%nat)
    /\ (forall i, (i < 3)%nat ->
          lines !! (2 * i + 3)%nat
          = Some ("    INDEX 01 " +:+ mmssff_from_sectors (nth i [0; 1; 1] 0) +:+ nl)).
Proof.
  eexists. split; [vm_compute; reflexivity|].
  apply (cue_sheet_layout 3 [0; 1; 1]).
  - vm_compute; reflexivity.
  - lia.
  - vm_compute; reflexivity.
Defined.

(** ** Sector counts and the silent failure *)

(** X15.  The sectors a track adds to the running total (lines 209-210)
    are the payload length divided by 2352 and rounded up: none for an
    empty payload, and otherwise the least number of sectors that hold the
    payload. *)
Theorem sectors_per_track len :
  0 <= len < 2 ^ 32 ->
  let sectors := padded_size len / to_ulong SECTOR in
  sectors = (len + 2351) / 2352
  /\ (sectors = 0 <-> len = 0)
  /\ len <= 2352 * sectors < len + 2352.
Proof.
  intros H. cbv zeta. rewrite padded_sectors_spec by exact H.
  pose proof (spec_sectors_times len) as T. pose proof (spec_pad_range len) as R.
  split; [|split; lia].
  apply (Z.div_unique (len + 2351) 2352 _ (2351 - spec_pad len)); lia.
Qed.

Lemma sectors_per_track_witness :
  0 <= 4700 < 2 ^ 32
  /\ padded_size 4700 / to_ulong SECTOR = 2
  /\ let sectors := padded_size 4700 / to_ulong SECTOR in
     sectors = (4700 + 2351) / 2352
     /\ (sectors = 0 <-> 4700 = 0)
     /\ 4700 <= 2352 * sectors < 4700 + 2352.
Proof.
  split; [lia|]. split; [reflexivity|].
  apply (sectors_per_track 4700). lia.
Defined.

Section SilentFailure.

(** With the cursor inside the file, the only [return -1] in the loop body
    that can be taken is the short read of a format chunk. *)
Lemma chunk_body_none chdr content pos st :
  0 <= pos <= Z.of_nat (length content) ->
  Z.of_nat (length content) + 2 ^ 32 < LONG_MAX ->
  chunk_body chdr (mkFILE content pos) st = None ->
  memcmp_eq chdr (bytes_of "fmt ") 4 = true
  /\ Z.of_nat (length content) - pos < Z.min (rd_le_u32 (drop 4 chdr)) 40.
Proof.
  intros Hpos Hmax. unfold chunk_body.
  pose proof (rd_le_u32_range (drop 4 chdr)) as Hc.
  set (csize := rd_le_u32 (drop 4 chdr)) in *.
  assert (0 <= (if Z.odd csize then 1 else 0) <= 1) as Hodd by (destruct (Z.odd csize); lia).
  rewrite !to_long_small by (unfold LONG_MAX; destruct (csize <? 40); lia).
  destruct (memcmp_eq chdr (bytes_of "fmt ") 4).
  - set (need := if csize <? 40 then csize else 40).
    assert (need = Z.min csize 40) as Hneed
        by (subst need; destruct (Z.ltb_spec csize 40); lia).
    unfold fread. cbn [f_pos f_content].
    rewrite length_take, length_drop.
    destruct (Z.eqb_spec (Z.of_nat (Z.to_nat need `min` (length content - Z.to_nat pos))) need)
      as [E|N]; cbn [negb].
    + rewrite E.
      assert ((if need <? csize
               then fseek_cur (csize - need) (mkFILE content (pos + need))
               else Some (mkFILE content (pos + need)))
              = Some (mkFILE content (pos + csize))) as ->.
      { destruct (Z.ltb_spec need csize).
        - rewrite fseek_cur_at by lia. do 2 f_equal. lia.
        - do 2 f_equal. lia. }
      rewrite skip_pad_byte_at by lia. discriminate.
    + intros _. split; [reflexivity|]. lia.
  - destruct (memcmp_eq chdr (bytes_of "data") 4).
    + unfold ftell. cbn [f_pos]. destruct (Z.ltb_spec pos 0); [lia|].
      rewrite fseek_cur_at by lia. rewrite skip_pad_byte_at by lia. discriminate.
    + rewrite fseek_cur_at by lia. rewrite skip_pad_byte_at by lia. discriminate.
Qed.

Lemma scan_chunks_error budget : forall f st,
  file_inv f -> Z.of_nat (length (f_content f)) + 2 ^ 32 < LONG_MAX ->
  scan_chunks budget f st = ScanError ->
  exists pos,
    f_pos f <= pos /\ pos + 8 <= Z.of_nat (length (f_content f))
    /\ memcmp_eq (drop (Z.to_nat pos) (f_content f)) (bytes_of "fmt ") 4 = true
    /\ Z.of_nat (length (f_content f)) - (pos + 8)
       < Z.min (rd_le_u32 (drop (Z.to_nat pos + 4) (f_content f))) 40.
Proof.
  induction budget as [|budget IH]; intros f st I Hmax; [discriminate|].
  cbn [scan_chunks].
  destruct (fread 8 f) as [chdr f1] eqn:R.
  destruct (fread_inv _ _ _ _ R I) as (I1 & C1 & P1).
  destruct (Z.eqb_spec (Z.of_nat (length chdr)) 8) as [L|_]; cbn [negb]; [|discriminate].
  pose proof I as [[Hp0 _] _].
  destruct (fread_full _ _ _ _ R Hp0 ltac:(lia) L) as [F1 F2].
  pose proof R as R'. apply fread_spec in R' as (Echdr & _ & _).
  change (Z.to_nat 8) with 8%nat in Echdr.
  destruct (chunk_body chdr f1 st) as [[st1 f2]|] eqn:B.
  - destruct (chunk_body_file _ _ _ _ _ B I1) as (I2 & C2 & P2).
    destruct (got_fmt st1 && got_data st1); [discriminate|].
    intros H. apply IH in H; [|exact I2 | rewrite C2, C1; exact Hmax].
    destruct H as (pos & H1 & H2 & H3 & H4). rewrite C2, C1 in H2, H3, H4.
    exists pos. repeat split; try assumption. lia.
  - intros _. destruct f1 as [content1 pos1]. cbn [f_content f_pos] in *. subst content1.
    apply chunk_body_none in B; [|lia | exact Hmax].
    destruct B as [T S]. exists (f_pos f). split; [lia|]. split; [lia|].
    rewrite Echdr in T, S. rewrite memcmp_eq_take in T by lia.
    rewrite rd_le_u32_take_drop, drop_drop in S by lia.
    split; [exact T|]. rewrite F2 in S. exact S.
Qed.

End SilentFailure.

(** X16.  [parse_wav] fails without a diagnostic in one case only (files
    of up to [LONG_MAX - 2 ^ 32] bytes): the chunk loop has met the header
    of a format chunk behind which the file holds fewer bytes than the
    chunk declares, or fewer than 40 if it declares more.  The [fseek] and
    [ftell] calls of the loop cannot fail on such a file. *)
Theorem silent_failure_is_cut_format content name :
  Z.of_nat (length content) + 2 ^ 32 < LONG_MAX ->
  parse_wav (mkFILE content 0) name = ParseFail [] ->
  exists pos,
    12 <= pos /\ pos + 8 <= Z.of_nat (length content)
    /\ take 4 (drop (Z.to_nat pos) content) = bytes_of "fmt "
    /\ Z.of_nat (length content) - (pos + 8)
       < Z.min (rd_le_u32 (drop (Z.to_nat pos + 4) content)) 40.
Proof.
  intros Hmax. rewrite parse_wav_header.
  destruct (Z.eqb_spec (Z.of_nat (length (take 12 content))) 12) as [E|]; cbn [negb];
    [|discriminate].
  destruct (_ || _); [discriminate|]. rewrite E.
  destruct (scan_chunks _ _ _) as [st f| |] eqn:S; [| |discriminate].
  - destruct (_ || _); [discriminate|]. destruct (negb _); discriminate.
  - intros _. apply scan_chunks_error in S.
    + cbn [f_content f_pos] in S. destruct S as (pos & H1 & H2 & H3 & H4).
      exists pos. repeat split; try assumption.
      apply memcmp_eq_true in H3 as (_ & _ & H3). exact H3.
    + unfold file_inv, LONG_MAX in *. cbn [f_content f_pos]. lia.
    + exact Hmax.
Qed.

Lemma silent_failure_is_cut_format_witness :
  parse_wav (mkFILE cut_fmt_file 0) "t.wav" = ParseFail []
  /\ exists pos,
       12 <= pos /\ pos + 8 <= Z.of_nat (length cut_fmt_file)
       /\ take 4 (drop (Z.to_nat pos) cut_fmt_file) = bytes_of "fmt "
       /\ Z.of_nat (length cut_fmt_file) - (pos + 8)
          < Z.min (rd_le_u32 (drop (Z.to_nat pos + 4) cut_fmt_file)) 40.
Proof.
  split; [vm_compute; reflexivity|].
  apply (silent_failure_is_cut_format cut_fmt_file "t.wav").
  - vm_compute; reflexivity.
  - vm_compute; reflexivity.
Defined.

(** ** The footprint of a run *)

Section Footprint.

Variable env : Env.



End Footprint.



(** X18.  When every input has been appended but [disc.cue] cannot be
    created, the run returns 1 after the [perror] line: [disc.bin] then
    holds the whole image, and there is no cue sheet to go with it. *)
Theorem cue_open_failure_keeps_image env prog wavs srcs w :
  can_create env bin_path = true -> can_create env cue_path = false ->
  malloc_ok env = true ->
  wavs <> [] -> argc_of wavs <= INT_MAX ->
  Forall2 (resolved (<[bin_path := []]> (files w))) wavs srcs ->
  Z.of_nat (length (image_of srcs)) <= disk_room env ->
  main env prog wavs w
  = Exit 1 (mkWorld (<[bin_path := image_of srcs]> (files w))
                    (stderr w ++ [perror env "open disc.cue" cue_path])
                    (stdout w ++ appended_msgs wavs srcs)).
Proof.
  intros Hbin Hcue Hmal Hne Hargc Hall Hroom.
  unfold main. destruct wavs as [|wav wavs']; [contradiction|].
  rewrite argc_of_cons, Hbin, Hmal. cbn [negb].
  rewrite (run_tracks_complete env _ srcs w Hargc Hall Hroom), Hcue. cbn [negb].
  unfold close_bin, eprint, print, store. cbn [world fbin o_content files stderr stdout].
  now rewrite insert_insert_eq.
Qed.

Lemma cue_open_failure_keeps_image_witness :
  main (mkEnv (fun p => negb (String.eqb p cue_path)) true 1000000 (fun _ => 0)
              (fun _ => "Permission denied"))
       "mkcdda" tiny_wavs tiny_world
  = Exit 1 (mkWorld (<[bin_path := image_of tiny_srcs]> (files tiny_world))
                    ([] ++ ["open disc.cue: Permission denied" +:+ nl])
                    ([] ++ appended_msgs tiny_wavs tiny_srcs)).
Proof.
  apply (cue_open_failure_keeps_image
           (mkEnv (fun p => negb (String.eqb p cue_path)) true 1000000 (fun _ => 0)
                  (fun _ => "Permission denied"))
           "mkcdda" tiny_wavs tiny_srcs tiny_world).
  - reflexivity.
  - reflexivity.
  - reflexivity.
  - discriminate.
  - vm_compute; discriminate.
  - repeat constructor; vm_compute; try reflexivity; discriminate.
  - vm_compute; discriminate.
Defined.

(** ** The seek to the payload, and the shape of a timecode *)

(** X21.  The [fseek] of line 162 cannot fail: the offset that [parse_wav]
    hands out was taken from [ftell], lies in [0, LONG_MAX] and survives
    the conversions to [unsigned long] and back to [long].  The "seek
    failed" branch of [main] is never taken. *)
Theorem seek_to_payload_succeeds fs wav fin f' ofs size :
  fopen_rb fs wav = Some fin ->
  parse_wav fin wav = ParseOk f' ofs size ->
  to_long ofs = ofs
  /\ fseek_set (to_long ofs) f' = Some (mkFILE (f_content fin) ofs).
Proof.
  intros O P. destruct (fopen_rb_inv _ _ _ O) as (I & _ & _).
  destruct (parse_wav_ok _ _ _ _ _ P I) as (C & _ & Ho & _).
  rewrite to_long_small by exact Ho. split; [reflexivity|].
  unfold fseek_set, seekable. rewrite C.
  destruct (Z.leb_spec 0 ofs); [|lia].
  destruct (Z.leb_spec ofs LONG_MAX); [reflexivity | lia].
Qed.

Lemma seek_to_payload_succeeds_witness :
  to_long 44 = 44
  /\ fseek_set (to_long 44) (mkFILE (wav_file (ramp 1 6)) 50)
     = Some (mkFILE (f_content (mkFILE (wav_file (ramp 1 6)) 0)) 44).
Proof.
  apply (seek_to_payload_succeeds (files tiny_world) "s.wav"
           (mkFILE (wav_file (ramp 1 6)) 0) (mkFILE (wav_file (ramp 1 6)) 50) 44 6).
  - vm_compute; reflexivity.
  - vm_compute; reflexivity.
Defined.

Section TimecodeShape.

Lemma two_chars (s : string) :
  String.length s = 2%nat -> exists a b, s = String a (String b EmptyString).
Proof.
  destruct s as [|a [|b [|c s]]]; try discriminate. intros _. eauto.
Qed.

End TimecodeShape.

(** X22.  Below 100 minutes (450000 sectors) the timecode has the fixed
    shape MM:SS:FF: eight characters, two decimal digits for each field and
    a colon at the third and at the sixth place. *)
Theorem timecode_is_mm_ss_ff (s : Z) :
  0 <= s < 450000 ->
  exists m1 m2 s1 s2 f1 f2,
    mmssff_from_sectors s
    = String m1 (String m2 (String ":" (String s1 (String s2 (String ":"
        (String f1 (String f2 EmptyString)))))))
    /\ all_digits (String m1 (String m2 (String s1 (String s2
                     (String f1 (String f2 EmptyString)))))) = true.
Proof.
  intros H. unfold mmssff_from_sectors, mmssff_fields.
  change (to_ulong (75 * 60)) with 4500.
  assert (0 <= s / 4500 <= 99) as Hm.
  { split; [apply Z.div_pos; lia|]. apply Z.lt_succ_r, Z.div_lt_upper_bound; lia. }
  pose proof (Z.mod_pos_bound (s / 75) 60 ltac:(lia)) as Hs.
  pose proof (Z.mod_pos_bound s 75 ltac:(lia)) as Hf.
  pose proof (all_digits_fmt_02lu (s / 4500)) as D1.
  pose proof (all_digits_fmt_02lu ((s / 75) mod 60)) as D2.
  pose proof (all_digits_fmt_02lu (s mod 75)) as D3.
  destruct (two_chars (fmt_02lu (s / 4500))) as (m1 & m2 & E1).
  { rewrite <- fmt_02d_nonneg by lia. apply length_fmt_02d_small. lia. }
  destruct (two_chars (fmt_02lu ((s / 75) mod 60))) as (s1 & s2 & E2).
  { rewrite <- fmt_02d_nonneg by lia. apply length_fmt_02d_small. lia. }
  destruct (two_chars (fmt_02lu (s mod 75))) as (f1 & f2 & E3).
  { rewrite <- fmt_02d_nonneg by lia. apply length_fmt_02d_small. lia. }
  rewrite E1 in *. rewrite E2 in *. rewrite E3 in *.
  exists m1, m2, s1, s2, f1, f2. split; [reflexivity|].
  cbn [all_digits] in *. rewrite !andb_true_iff in *. tauto.
Qed.

Lemma timecode_is_mm_ss_ff_witness :
  mmssff_from_sectors 337999 = "75:06:49"
  /\ exists m1 m2 s1 s2 f1 f2,
       mmssff_from_sectors 337999
       = String m1 (String m2 (String ":" (String s1 (String s2 (String ":"
           (String f1 (String f2 EmptyString)))))))
       /\ all_digits (String m1 (String m2 (String s1 (String s2
                        (String f1 (String f2 EmptyString)))))) = true.
Proof.
  split; [reflexivity|].
  apply (timecode_is_mm_ss_ff 337999). lia.
Defined.
